(** * mahiro: the plugin/group registry and its TTL caches

    A shallow embedding of [packages/mahiro/src/database/index.ts]
    (class [Database]) together with the properties of its registration
    tracker, its two read-through caches and its permission resolver.

    Conventions of the embedding:
    - a JavaScript number that holds an id, a user id or a timestamp is an
      integer of [Z]; the two agree on the safe integers, those below 2^53
      in magnitude, which is where the statements about written strings
      are made;
    - an [async] method is a computation in the monad [M]: it threads the
      fields of the [Database] object and the persistent store, and it may
      throw;
    - [Date.now()] and the outcome of a store access are given by the
      environment, one reading per call. *)

From Stdlib Require Import ZArith Lia Ascii String.
From Stdlib Require Import DecimalString DecimalZ DecimalNat.
From stdpp Require Import base option list sorting gmap strings.

Local Open Scope Z_scope.

(** ** JavaScript and lodash helpers used by the class *)

(** [Array.prototype.includes]. *)
Definition includes `{EqDecision A} (l : list A) (x : A) : bool :=
  bool_decide (x ∈ l).

(** [Array.prototype.indexOf]: position of the first occurrence, else -1. *)
Fixpoint indexOf (l : list Z) (x : Z) : Z :=
  match l with
  | [] => -1
  | y :: l' =>
      if bool_decide (y = x) then 0
      else let i := indexOf l' x in if i <? 0 then -1 else i + 1
  end.

(** [Array.prototype.splice(index, 1)]: a negative index counts from the
    end, an index past the end removes nothing. *)
Definition splice1 (l : list Z) (index : Z) : list Z :=
  let len := Z.of_nat (length l) in
  let start := if index <? 0 then Z.max 0 (len + index) else Z.min index len in
  delete (Z.to_nat start) l.

(** [Array.prototype.push]. *)
Definition push {A} (l : list A) (x : A) : list A := l ++ [x].

(** lodash [uniq]: the first occurrence of each value is kept, in order. *)
Fixpoint uniq_from (seen : list Z) (l : list Z) : list Z :=
  match l with
  | [] => seen
  | x :: l' => uniq_from (if includes seen x then seen else push seen x) l'
  end.

Definition uniq (l : list Z) : list Z := uniq_from [] l.

(** [Number.isSafeInteger]: the integers that a JavaScript number holds
    exactly, with their neighbours. *)
Definition safe_integer (n : Z) : Prop := Z.abs n < 2 ^ 53.

(** The decimal digits of an integer, with its sign. *)
Definition decimal_digits (n : Z) : string :=
  NilZero.string_of_int (Z.to_int n).

Definition Number_sign (n : Z) : string := if n <? 0 then "-" else "".

Fixpoint zeros (k : nat) : string :=
  match k with
  | O => EmptyString
  | S k' => String "0" (zeros k')
  end.

(** A string of digits without the zeros it ends in. *)
Fixpoint strip_zeros (s : string) : string :=
  match s with
  | EmptyString => EmptyString
  | String c s' =>
      match strip_zeros s' with
      | EmptyString => if Ascii.eqb c "0" then EmptyString else String c EmptyString
      | t => String c t
      end
  end.

(** The fraction of an exponent form, with its point: nothing when there
    is no digit to write. *)
Definition point (frac : string) : string :=
  match frac with
  | EmptyString => EmptyString
  | _ => String "." frac
  end.

(** The exponent form of the number whose digits are [d] followed by
    [rest]: the first digit, the others up to the last that is not 0 behind
    a point, and the count of the others as the exponent. *)
Definition exponent_form (d : ascii) (rest : string) : string :=
  (String d (point (strip_zeros rest))
   ++ "e+" ++ NilZero.string_of_uint (Nat.to_uint (String.length rest)))%string.

(** [String(n)] for an integer [n]: its decimal digits below 10^21 and the
    exponent form from there on, as in [1e+21]. Beyond the safe integers a
    JavaScript number is a rounded value, of which [String] writes the
    shortest digits that denote it; the digits written here are those of
    [n] itself. *)
Definition Number_toString (n : Z) : string :=
  if Z.abs n <? 10 ^ 21 then decimal_digits n
  else
    match decimal_digits (Z.abs n) with
    | String d rest => (Number_sign n ++ exponent_form d rest)%string
    | EmptyString => EmptyString
    end.

(** The pieces of a string before and after the first [c]. *)
Fixpoint split_at (c : ascii) (s : string) : option (string * string) :=
  match s with
  | EmptyString => None
  | String a s' =>
      if Ascii.eqb a c then Some (EmptyString, s')
      else match split_at c s' with
           | Some (l, r) => Some (String a l, r)
           | None => None
           end
  end.

(** [Number(s)] for a string that spells an integer, in decimal digits or
    in the exponent form that [String] writes; any other string has no
    integer value. *)
Definition Number_ofString (s : string) : option Z :=
  match split_at "e" s with
  | None => Z.of_int <$> NilZero.int_of_string s
  | Some (m, x) =>
      let '(i, f) := default (m, EmptyString) (split_at "." m) in
      let x := match x with String "+" x' => x' | _ => x end in
      match NilZero.int_of_string (i ++ f), NilZero.uint_of_string x with
      | Some _, Some e =>
          let e := Nat.of_uint e in
          if (String.length f <=? e)%nat
          then Z.of_int <$>
               NilZero.int_of_string (i ++ f ++ zeros (e - String.length f))
          else None
      | _, _ => None
      end
  end.

(** [Array.prototype.join(',')] on an array of integers. *)
Fixpoint join_strings (sep : string) (l : list string) : string :=
  match l with
  | [] => EmptyString
  | [s] => s
  | s :: l' => (s ++ sep ++ join_strings sep l')%string
  end.

Definition join (l : list Z) : string :=
  join_strings "," (Number_toString <$> l).

(** [String.prototype.split(',')]: the pieces between the commas; the
    empty string splits into one empty piece. *)
Fixpoint split_comma (s : string) : list string :=
  match s with
  | EmptyString => [EmptyString]
  | String c s' =>
      if Ascii.eqb c ","%char then EmptyString :: split_comma s'
      else match split_comma s' with
           | piece :: pieces => String c piece :: pieces
           | [] => [String c EmptyString]
           end
  end.

(** Modelled from the spec: [toArrayNumber] of [../utils] is not part of the
    sources at hand. The spec has every list-valued column persisted as a
    delimited string that is parsed into an ordered sequence of integers on
    read, empty values giving the empty sequence. The delimiter is the comma
    that [join] writes; an empty piece gives no element, and neither does a
    piece that spells no integer. *)
Definition toArrayNumber (s : string) : list Z :=
  omap Number_ofString (split_comma s).

(** ** Records of [./interface] *)

(** A row of the [plugins] table ([IDataPlugin], with its columns [id] and
    [threshold]). *)
Record IDataPlugin := {
  dp_id : Z;
  dp_name : string;
  dp_enabled : bool;
  dp_white_list_users : string;
  dp_black_list_users : string;
  dp_internal : bool;
  dp_threshold : Z
}.

(** [IMvcPlugin]: a plugin as the class hands it out. *)
Record IMvcPlugin := {
  p_id : Z;
  p_name : string;
  p_enabled : bool;
  p_internal : bool;
  p_threshold : Z;
  p_white_list_users : list Z;
  p_black_list_users : list Z
}.

(** A row of the [groups] table. *)
Record IDataGroup := {
  dg_id : Z;
  dg_name : string;
  dg_group_id : Z;
  dg_admins : string;
  dg_expired_at : string;
  dg_plugins : string
}.

(** [IMvcGroup]; a group posted to be added may come without [id]. *)
Record IMvcGroup := {
  g_id : option Z;
  g_name : string;
  g_group_id : Z;
  g_expired_at : string;
  g_admins : list Z;
  g_plugins : list Z
}.

(** [Partial<IMvcPlugin>] as [updatePlugin] receives it; [id] is read with
    a non-null assertion. *)
Record PartialPlugin := {
  pp_id : Z;
  pp_name : option string;
  pp_enabled : option bool;
  pp_internal : option bool;
  pp_threshold : option Z;
  pp_white_list_users : option (list Z);
  pp_black_list_users : option (list Z)
}.

(** [Partial<IMvcGroup>] as [updateGroup] receives it. *)
Record PartialGroup := {
  pg_id : Z;
  pg_name : option string;
  pg_group_id : option Z;
  pg_expired_at : option string;
  pg_admins : option (list Z);
  pg_plugins : option (list Z)
}.

(** [IDataRegisterPluginOpts]; [internal] defaults to [false]. *)
Record IDataRegisterPluginOpts := {
  rp_name : string;
  rp_internal : option bool
}.

(** [IDataRegisterGroupOpts]. *)
Record IDataRegisterGroupOpts := {
  rg_name : string;
  rg_group_id : Z;
  rg_expired_at : string
}.

(** ** The object and its surroundings *)

(** What the process observes of the outside: the successive readings of
    [Date.now()] and, for each access to the store, whether it is
    rejected. *)
Record Environment := {
  clock : nat -> Z;
  db_fault : nat -> bool
}.

(** The fields of a [Database] object, the store behind [this.db], and the
    number of clock readings and store accesses made so far. A table holds
    its rows in the order in which [select] reads them, that of the ids.
    [seq_groups] is the largest id that the table of the groups has ever
    held, which the store keeps for an [increments] column so as not to give
    the id of a deleted row again. [cacheTime] is whatever [getCacheTime()]
    of [./interface] gave when the object was built. *)
Record Database := {
  env : Environment;
  ticks : nat;
  db_calls : nat;
  tbl_plugins : list IDataPlugin;
  tbl_groups : list IDataGroup;
  seq_groups : Z;
  registeredPlugins : list string;
  registeredExternalPlugins : list string;
  cacheTime : Z;
  groupCache : gmap Z IMvcGroup;
  pluginCache : option (list IMvcPlugin);
  cacheTimeMap : gmap string Z
}.

Definition set_ticks (n : nat) (s : Database) : Database :=
  {| env := env s; ticks := n; db_calls := db_calls s;
     tbl_plugins := tbl_plugins s; tbl_groups := tbl_groups s;
     seq_groups := seq_groups s;
     registeredPlugins := registeredPlugins s;
     registeredExternalPlugins := registeredExternalPlugins s;
     cacheTime := cacheTime s; groupCache := groupCache s;
     pluginCache := pluginCache s; cacheTimeMap := cacheTimeMap s |}.

Definition set_db_calls (n : nat) (s : Database) : Database :=
  {| env := env s; ticks := ticks s; db_calls := n;
     tbl_plugins := tbl_plugins s; tbl_groups := tbl_groups s;
     seq_groups := seq_groups s;
     registeredPlugins := registeredPlugins s;
     registeredExternalPlugins := registeredExternalPlugins s;
     cacheTime := cacheTime s; groupCache := groupCache s;
     pluginCache := pluginCache s; cacheTimeMap := cacheTimeMap s |}.

Definition set_tbl_plugins (t : list IDataPlugin) (s : Database) : Database :=
  {| env := env s; ticks := ticks s; db_calls := db_calls s;
     tbl_plugins := t; tbl_groups := tbl_groups s;
     seq_groups := seq_groups s;
     registeredPlugins := registeredPlugins s;
     registeredExternalPlugins := registeredExternalPlugins s;
     cacheTime := cacheTime s; groupCache := groupCache s;
     pluginCache := pluginCache s; cacheTimeMap := cacheTimeMap s |}.

Definition set_tbl_groups (t : list IDataGroup) (s : Database) : Database :=
  {| env := env s; ticks := ticks s; db_calls := db_calls s;
     tbl_plugins := tbl_plugins s; tbl_groups := t;
     seq_groups := seq_groups s;
     registeredPlugins := registeredPlugins s;
     registeredExternalPlugins := registeredExternalPlugins s;
     cacheTime := cacheTime s; groupCache := groupCache s;
     pluginCache := pluginCache s; cacheTimeMap := cacheTimeMap s |}.

Definition set_seq_groups (n : Z) (s : Database) : Database :=
  {| env := env s; ticks := ticks s; db_calls := db_calls s;
     tbl_plugins := tbl_plugins s; tbl_groups := tbl_groups s;
     seq_groups := n;
     registeredPlugins := registeredPlugins s;
     registeredExternalPlugins := registeredExternalPlugins s;
     cacheTime := cacheTime s; groupCache := groupCache s;
     pluginCache := pluginCache s; cacheTimeMap := cacheTimeMap s |}.

Definition set_registeredPlugins (l : list string) (s : Database) : Database :=
  {| env := env s; ticks := ticks s; db_calls := db_calls s;
     tbl_plugins := tbl_plugins s; tbl_groups := tbl_groups s;
     seq_groups := seq_groups s;
     registeredPlugins := l;
     registeredExternalPlugins := registeredExternalPlugins s;
     cacheTime := cacheTime s; groupCache := groupCache s;
     pluginCache := pluginCache s; cacheTimeMap := cacheTimeMap s |}.

Definition set_registeredExternalPlugins (l : list string) (s : Database)
  : Database :=
  {| env := env s; ticks := ticks s; db_calls := db_calls s;
     tbl_plugins := tbl_plugins s; tbl_groups := tbl_groups s;
     seq_groups := seq_groups s;
     registeredPlugins := registeredPlugins s;
     registeredExternalPlugins := l;
     cacheTime := cacheTime s; groupCache := groupCache s;
     pluginCache := pluginCache s; cacheTimeMap := cacheTimeMap s |}.

Definition set_groupCache (m : gmap Z IMvcGroup) (s : Database) : Database :=
  {| env := env s; ticks := ticks s; db_calls := db_calls s;
     tbl_plugins := tbl_plugins s; tbl_groups := tbl_groups s;
     seq_groups := seq_groups s;
     registeredPlugins := registeredPlugins s;
     registeredExternalPlugins := registeredExternalPlugins s;
     cacheTime := cacheTime s; groupCache := m;
     pluginCache := pluginCache s; cacheTimeMap := cacheTimeMap s |}.

Definition set_pluginCache (c : option (list IMvcPlugin)) (s : Database)
  : Database :=
  {| env := env s; ticks := ticks s; db_calls := db_calls s;
     tbl_plugins := tbl_plugins s; tbl_groups := tbl_groups s;
     seq_groups := seq_groups s;
     registeredPlugins := registeredPlugins s;
     registeredExternalPlugins := registeredExternalPlugins s;
     cacheTime := cacheTime s; groupCache := groupCache s;
     pluginCache := c; cacheTimeMap := cacheTimeMap s |}.

Definition set_cacheTimeMap (m : gmap string Z) (s : Database) : Database :=
  {| env := env s; ticks := ticks s; db_calls := db_calls s;
     tbl_plugins := tbl_plugins s; tbl_groups := tbl_groups s;
     seq_groups := seq_groups s;
     registeredPlugins := registeredPlugins s;
     registeredExternalPlugins := registeredExternalPlugins s;
     cacheTime := cacheTime s; groupCache := groupCache s;
     pluginCache := pluginCache s; cacheTimeMap := m |}.

(** ** Asynchronous methods: state and exceptions *)

(** The one error of the class itself: a rejected store access. *)
Inductive Error := StoreError.

Inductive Result (A : Type) :=
| Ok (a : A)
| Throw (e : Error).
Arguments Ok {A} a.
Arguments Throw {A} e.

(** A method run: its outcome and the object afterwards. What was assigned
    before a throw stays assigned. *)
Definition M (A : Type) : Type := Database -> Result A * Database.

Definition ret {A} (a : A) : M A := fun s => (Ok a, s).

Definition bind {A B} (m : M A) (k : A -> M B) : M B :=
  fun s => match m s with
           | (Ok a, s') => k a s'
           | (Throw e, s') => (Throw e, s')
           end.

Definition throw {A} (e : Error) : M A := fun s => (Throw e, s).
Definition gets {A} (f : Database -> A) : M A := fun s => (Ok (f s), s).
Definition modify (f : Database -> Database) : M unit := fun s => (Ok tt, f s).

Notation "'let*' x ':=' m 'in' k" := (bind m (fun x => k))
  (at level 10, x name, m at level 100, k at level 200).
Notation "m ';;' k" := (bind m (fun _ => k))
  (at level 100, k at level 200, right associativity).

Definition when (b : bool) (m : M unit) : M unit := if b then m else ret tt.

(** The outcome and the final object of a run. *)
Definition outcome {A} (m : M A) (s : Database) : Result A := fst (m s).
Definition after {A} (m : M A) (s : Database) : Database := snd (m s).

(** [Date.now()]. *)
Definition Date_now : M Z :=
  fun s => (Ok (clock (env s) (ticks s)), set_ticks (S (ticks s)) s).

(** ** The store behind [this.db] *)

(** One access to the store: it is counted, and it is rejected when the
    environment says so. *)
Definition db_access : M unit :=
  fun s =>
    let s' := set_db_calls (S (db_calls s)) s in
    if db_fault (env s) (db_calls s) then (Throw StoreError, s') else (Ok tt, s').

(** The id an [increments] column gives to the next row: one more than the
    largest of [ids]. For the plugins these are the ids in the table, whose
    rows the class never deletes and never writes with an id of its own;
    for the groups they are the ids in the table and the largest id that
    the table has ever held. *)
Definition next_id (ids : list Z) : Z := 1 + foldr Z.max 0 ids.

(** [db(table.plugins).select('*')]. *)
Definition select_plugins : M (list IDataPlugin) :=
  db_access ;; gets tbl_plugins.

(** [db.table(table.plugins).where({ name }).first()]. *)
Definition first_plugin_by_name (name : string) : M (option IDataPlugin) :=
  db_access ;;
  gets (fun s => head (filter (fun r => dp_name r = name) (tbl_plugins s))).

(** [db.table(table.plugins).where({ id }).first()]. *)
Definition first_plugin_by_id (id : Z) : M (option IDataPlugin) :=
  db_access ;;
  gets (fun s => head (filter (fun r => dp_id r = id) (tbl_plugins s))).

(** [db(table.plugins).insert({ name, enabled, white_list_users,
    black_list_users, internal })]: [id] is auto-incremented, [threshold]
    takes its default 2, and [name] is a unique column. *)
Definition insert_plugin (name : string) (enabled : bool) (wl bl : string)
    (internal : bool) : M unit :=
  db_access ;;
  let* rows := gets tbl_plugins in
  if includes (dp_name <$> rows) name then throw StoreError
  else
    modify (set_tbl_plugins (rows ++ [
      {| dp_id := next_id (dp_id <$> rows); dp_name := name;
         dp_enabled := enabled; dp_white_list_users := wl;
         dp_black_list_users := bl; dp_internal := internal;
         dp_threshold := 2 |} ])).

(** [db(table.plugins).where({ id }).update(fields)]: the number of rows
    changed; a change that repeats a name is rejected. *)
Definition update_plugin_where_id (id : Z)
    (fields : IDataPlugin -> IDataPlugin) : M Z :=
  db_access ;;
  let* rows := gets tbl_plugins in
  let rows' := (fun r => if bool_decide (dp_id r = id) then fields r else r) <$> rows in
  if bool_decide (NoDup (dp_name <$> rows')) then
    modify (set_tbl_plugins rows') ;;
    ret (Z.of_nat (length (filter (fun r => dp_id r = id) rows)))
  else throw StoreError.

(** [db(table.groups).select('*')]. *)
Definition select_groups : M (list IDataGroup) :=
  db_access ;; gets tbl_groups.

(** [db.table(table.groups).where({ group_id }).first()]. *)
Definition first_group_by_group_id (group_id : Z) : M (option IDataGroup) :=
  db_access ;;
  gets (fun s => head (filter (fun r => dg_group_id r = group_id) (tbl_groups s))).

(** [db.table(table.groups).where({ id }).first()]. *)
Definition first_group_by_id (id : Z) : M (option IDataGroup) :=
  db_access ;;
  gets (fun s => head (filter (fun r => dg_id r = id) (tbl_groups s))).

(** The place of a new row among the rows of the groups: before the first
    row of a larger id. *)
Fixpoint place_group (row : IDataGroup) (rows : list IDataGroup)
  : list IDataGroup :=
  match rows with
  | [] => [row]
  | r :: rows' =>
      if dg_id row <? dg_id r then row :: r :: rows'
      else r :: place_group row rows'
  end.

(** [db(table.groups).insert(row)]: [id] is auto-incremented when the row
    brings none, past every id that the table has held; [id] is the primary
    key and [group_id] a unique column. The result is the array that holds
    the id of the new row. *)
Definition insert_group (id : option Z) (name : string) (group_id : Z)
    (admins expired_at plugins : string) : M (list Z) :=
  db_access ;;
  let* rows := gets tbl_groups in
  let* seq := gets seq_groups in
  let id' := default (next_id (seq :: (dg_id <$> rows))) id in
  if includes (dg_id <$> rows) id' || includes (dg_group_id <$> rows) group_id
  then throw StoreError
  else
    modify (set_tbl_groups (place_group
      {| dg_id := id'; dg_name := name; dg_group_id := group_id;
         dg_admins := admins; dg_expired_at := expired_at;
         dg_plugins := plugins |} rows)) ;;
    modify (set_seq_groups (Z.max seq id')) ;;
    ret [id'].

(** [db(table.groups).where({ id }).update(fields)]. *)
Definition update_group_where_id (id : Z)
    (fields : IDataGroup -> IDataGroup) : M Z :=
  db_access ;;
  let* rows := gets tbl_groups in
  let rows' := (fun r => if bool_decide (dg_id r = id) then fields r else r) <$> rows in
  if bool_decide (NoDup (dg_group_id <$> rows')) then
    modify (set_tbl_groups rows') ;;
    ret (Z.of_nat (length (filter (fun r => dg_id r = id) rows)))
  else throw StoreError.

(** [db(table.groups).where({ id }).del()]: the number of rows deleted. *)
Definition delete_group_where_id (id : Z) : M Z :=
  db_access ;;
  let* rows := gets tbl_groups in
  modify (set_tbl_groups (filter (fun r => dg_id r ≠ id) rows)) ;;
  ret (Z.of_nat (length (filter (fun r => dg_id r = id) rows))).

(** ** The methods of [Database] *)

(** The keys of [cacheKeys]. *)
Definition cacheKeys_plugins : string := "plugins".
Definition cacheKeys_groups : string := "groups".

Definition registerPlugin (opts : IDataRegisterPluginOpts) (external : bool)
  : M unit :=
  let name := rp_name opts in
  let internal := default false (rp_internal opts) in
  let* has := first_plugin_by_name name in
  (match has with
   | None => insert_plugin name true "" "" internal
   | Some _ => ret tt
   end) ;;
  (* add to runtime *)
  let* registered := gets registeredPlugins in
  when (negb (includes registered name))
       (modify (set_registeredPlugins (push registered name))) ;;
  (* add to external runtime *)
  let* registeredExternal := gets registeredExternalPlugins in
  when (external && negb (includes registeredExternal name))
       (modify (set_registeredExternalPlugins (push registeredExternal name))).

Definition clearExternalPlugins : M unit :=
  (* remove external plugins from runtime *)
  modify (fun s =>
    set_registeredPlugins
      (filter (fun name => includes (registeredExternalPlugins s) name = false)
              (registeredPlugins s)) s) ;;
  (* clear external plugins *)
  modify (set_registeredExternalPlugins []).

Definition registerGroup (opts : IDataRegisterGroupOpts) : M unit :=
  let* has := first_group_by_group_id (rg_group_id opts) in
  match has with
  | None => insert_group None (rg_name opts) (rg_group_id opts) ""
                         (rg_expired_at opts) "" ;;
            ret tt
  | Some _ => ret tt
  end.

(** A timestamp counts as present when it is truthy: 0 does not. *)
Definition isCacheExpired (key : string) : M bool :=
  let* latest := gets (fun s => cacheTimeMap s !! key) in
  match latest with
  | Some latest =>
      if bool_decide (latest ≠ 0) then
        let* now := Date_now in
        let* cacheTime := gets cacheTime in
        if now - latest <? cacheTime then ret false else ret true
      else ret true
  | None => ret true
  end.

Definition updateCacheTimeMap (key : string) : M unit :=
  let* now := Date_now in
  modify (fun s => set_cacheTimeMap (<[key := now]> (cacheTimeMap s)) s).

Definition mvcPlugin (plugin : IDataPlugin) : IMvcPlugin :=
  {| p_id := dp_id plugin;
     p_name := dp_name plugin;
     p_enabled := dp_enabled plugin;
     p_internal := dp_internal plugin;
     p_threshold := dp_threshold plugin;
     p_white_list_users := toArrayNumber (dp_white_list_users plugin);
     p_black_list_users := toArrayNumber (dp_black_list_users plugin) |}.

Definition getPlugins : M (list IMvcPlugin) :=
  let* plugins := select_plugins in
  let* registered := gets registeredPlugins in
  ret (filter (fun p => includes registered (p_name p) = true)
              (mvcPlugin <$> plugins)).

Definition updatePlugin (plugin : PartialPlugin) : M (option Z) :=
  let id := pp_id plugin in
  let* has := first_plugin_by_id id in
  match has with
  | Some _ =>
      (* fields to string *)
      let black_list_users := join <$> pp_black_list_users plugin in
      let white_list_users := join <$> pp_white_list_users plugin in
      let* res := update_plugin_where_id id (fun r =>
        {| dp_id := id;
           dp_name := default (dp_name r) (pp_name plugin);
           dp_enabled := default (dp_enabled r) (pp_enabled plugin);
           dp_white_list_users := default (dp_white_list_users r) white_list_users;
           dp_black_list_users := default (dp_black_list_users r) black_list_users;
           dp_internal := default (dp_internal r) (pp_internal plugin);
           dp_threshold := default (dp_threshold r) (pp_threshold plugin) |}) in
      ret (Some res)
  | None => ret None
  end.

Definition mvcGroup (g : IDataGroup) : IMvcGroup :=
  {| g_id := Some (dg_id g);
     g_name := dg_name g;
     g_group_id := dg_group_id g;
     g_expired_at := dg_expired_at g;
     g_admins := toArrayNumber (dg_admins g);
     g_plugins := toArrayNumber (dg_plugins g) |}.

Definition getGroups : M (list IMvcGroup) :=
  let* groups := select_groups in
  ret (mvcGroup <$> groups).

Definition getInternalPluginIds : M (list Z) :=
  let* plugins := getPlugins in
  ret (p_id <$> filter (fun p => p_internal p = true) plugins).

Definition updateGroup (group : PartialGroup) : M (option Z) :=
  let id := pg_id group in
  let* has := first_group_by_id id in
  match has with
  | Some _ =>
      let admins := join <$> pg_admins group in
      let* plugins :=
        match pg_plugins group with
        | Some plugins =>
            let* internalIds := getInternalPluginIds in
            (* ensure internal plugins *)
            ret (Some (join (uniq (internalIds ++ plugins))))
        | None => ret None
        end in
      let* res := update_group_where_id id (fun r =>
        {| dg_id := id;
           dg_name := default (dg_name r) (pg_name group);
           dg_group_id := default (dg_group_id r) (pg_group_id group);
           dg_admins := default (dg_admins r) admins;
           dg_expired_at := default (dg_expired_at r) (pg_expired_at group);
           dg_plugins := default (dg_plugins r) plugins |}) in
      ret (Some res)
  | None => ret None
  end.

Definition addGroup (group : IMvcGroup) : M (list Z) :=
  (* auto add internal plugins *)
  let* internalPluginIds := getInternalPluginIds in
  let plugins := uniq (internalPluginIds ++ g_plugins group) in
  (* stringify *)
  insert_group (g_id group) (g_name group) (g_group_id group)
               (join (g_admins group)) (g_expired_at group) (join plugins).

Definition deleteGroup (id : Z) : M Z :=
  delete_group_where_id id.

(** The closure [update] of [getPluginListFromCache]. *)
Definition getPluginListFromCache_update : M unit :=
  let* plugins := getPlugins in
  modify (set_pluginCache (Some (filter (fun p => p_enabled p = true) plugins))) ;;
  updateCacheTimeMap cacheKeys_plugins.

(** [pluginCache] is [None] until the first refresh; an array, even an
    empty one, is truthy. *)
Definition getPluginListFromCache : M (list IMvcPlugin) :=
  let* cache := gets pluginCache in
  let refreshed :=
    getPluginListFromCache_update ;;
    let* cache' := gets pluginCache in
    ret (default [] cache') in
  match cache with
  | Some cache =>
      let* expired := isCacheExpired cacheKeys_plugins in
      if negb expired then ret cache else refreshed
  | None => refreshed
  end.

(** [groups.forEach((g) => this.groupCache.set(g.group_id, g))]. *)
Definition groupCache_setAll (groups : list IMvcGroup)
    (cache : gmap Z IMvcGroup) : gmap Z IMvcGroup :=
  foldl (fun m g => <[g_group_id g := g]> m) cache groups.

(** The closure [update] of [getGroupMapFromCache]. *)
Definition getGroupMapFromCache_update : M unit :=
  let* groups := getGroups in
  modify (fun s => set_groupCache (groupCache_setAll groups (groupCache s)) s) ;;
  updateCacheTimeMap cacheKeys_groups.

Definition getGroupMapFromCache (groupId : Z) : M (option IMvcGroup) :=
  let* cache := gets (fun s => groupCache s !! groupId) in
  let refreshed :=
    getGroupMapFromCache_update ;;
    gets (fun s => groupCache s !! groupId) in
  match cache with
  | Some cache =>
      let* expired := isCacheExpired cacheKeys_groups in
      if negb expired then ret (Some cache) else refreshed
  | None => refreshed
  end.

Definition isGroupAdmin (groupId userId : Z) : M bool :=
  let* group := getGroupMapFromCache groupId in
  match group with
  | Some group => ret (includes (g_admins group) userId)
  | None => ret false
  end.

Section Dayjs.

(** [dayjs(s).valueOf()]: the instant a string denotes, in milliseconds,
    or [None] for the [NaN] of a string that is no date. *)
Variable dayjs_valueOf : string -> option Z.

(** A comparison with [NaN] is false. *)
Definition isGroupValid (groupId : Z) : M bool :=
  let* group := getGroupMapFromCache groupId in
  match group with
  | Some group =>
      let expiredAt := dayjs_valueOf (g_expired_at group) in
      let* now := Date_now in
      ret (match expiredAt with
           | Some expiredAt => now <=? expiredAt
           | None => false
           end)
  | None => ret false
  end.

End Dayjs.

(** One round of the [forEach] over the catalog: the whitelist [push], then
    the blacklist [splice], on the array of plugin ids. *)
Definition applyUserOverrides (userId : Z) (ids : list Z) (p : IMvcPlugin)
  : list Z :=
  let isWhiteList := includes (p_white_list_users p) userId in
  let ids1 :=
    if isWhiteList && negb (includes ids (p_id p)) then push ids (p_id p)
    else ids in
  let isBlackList := includes (p_black_list_users p) userId in
  if isBlackList && includes ids1 (p_id p)
  then splice1 ids1 (indexOf ids1 (p_id p))
  else ids1.

(** [pluginsList.reduce((acc, cur) => { acc[cur.id] = cur; return acc }, {})]. *)
Definition pluginMap_of (pluginsList : list IMvcPlugin) : gmap Z IMvcPlugin :=
  foldl (fun acc cur => <[p_id cur := cur]> acc) ∅ pluginsList.

(** [ids.map((id) => pluginMap[id]?.name)] followed by [filter(Boolean)]: an
    id outside the map gives [undefined], and the empty name is falsy as
    well. *)
Definition pluginNames (pluginMap : gmap Z IMvcPlugin) (ids : list Z)
  : list string :=
  omap (fun id =>
          match pluginMap !! id with
          | Some plugin =>
              if bool_decide (p_name plugin = EmptyString) then None
              else Some (p_name plugin)
          | None => None
          end) ids.

(** [userId] is optional, and [if (userId)] also skips a user id 0. *)
Definition truthy (userId : option Z) : option Z :=
  match userId with
  | Some u => if bool_decide (u = 0) then None else Some u
  | None => None
  end.

Definition set_g_plugins (plugins : list Z) (g : IMvcGroup) : IMvcGroup :=
  {| g_id := g_id g; g_name := g_name g; g_group_id := g_group_id g;
     g_expired_at := g_expired_at g; g_admins := g_admins g;
     g_plugins := plugins |}.

(** [groupAvaliablePluginsIds] is the very array [group.plugins] of the
    record held in [groupCache] under [groupId]: what [push] and [splice] do
    to it is done to the cached record. *)
Definition getAvailablePlugins (groupId : Z) (userId : option Z)
  : M (list string) :=
  let* group := getGroupMapFromCache groupId in
  match group with
  | Some group =>
      let groupAvaliablePluginsIds := g_plugins group in
      let* pluginsList := getPluginListFromCache in
      let pluginMap := pluginMap_of pluginsList in
      let* groupAvaliablePluginsIds :=
        match truthy userId with
        | Some userId =>
            let ids := foldl (applyUserOverrides userId)
                             groupAvaliablePluginsIds pluginsList in
            modify (fun s =>
              set_groupCache (<[groupId := set_g_plugins ids group]> (groupCache s)) s) ;;
            ret ids
        | None => ret groupAvaliablePluginsIds
        end in
      ret (pluginNames pluginMap groupAvaliablePluginsIds)
  | None => ret []
  end.

(** A fresh object over a store as it stands: nothing registered, nothing
    cached. *)
Definition new_Database (e : Environment) (cacheTime : Z)
    (plugins : list IDataPlugin) (groups : list IDataGroup) (seq : Z)
  : Database :=
  {| env := e; ticks := 0; db_calls := 0;
     tbl_plugins := plugins; tbl_groups := groups; seq_groups := seq;
     registeredPlugins := []; registeredExternalPlugins := [];
     cacheTime := cacheTime; groupCache := ∅; pluginCache := None;
     cacheTimeMap := ∅ |}.

(** ** Vocabulary of the statements *)

(** No access to the store is rejected. *)
Definition never_faults (s : Database) : Prop :=
  ∀ n, db_fault (env s) n = false.

(** A string without a comma. *)
Fixpoint comma_free (s : string) : Prop :=
  match s with
  | EmptyString => True
  | String c s' => c ≠ ","%char ∧ comma_free s'
  end.

(** A string without the character [c]. *)
Fixpoint lacks (c : ascii) (s : string) : Prop :=
  match s with
  | EmptyString => True
  | String a s' => a ≠ c ∧ lacks c s'
  end.

(** A decimal digit, and a string of them. *)
Definition is_digit (a : ascii) : Prop :=
  is_Some (uint_of_char a (Some Decimal.Nil)).

Fixpoint all_digits (s : string) : Prop :=
  match s with
  | EmptyString => True
  | String a s' => is_digit a ∧ all_digits s'
  end.

(** The digits of the magnitude of an integer. *)
Definition magnitude (n : Z) : Decimal.uint :=
  match n with
  | Z0 => Decimal.D0 Decimal.Nil
  | Zpos p | Zneg p => Pos.to_uint p
  end.

(** A batch of registrations, each with its [external] flag, in order. *)
Fixpoint registerAll (regs : list (IDataRegisterPluginOpts * bool)) : M unit :=
  match regs with
  | [] => ret tt
  | (opts, external) :: regs' =>
      registerPlugin opts external ;; registerAll regs'
  end.

(** The names a batch registers, and those it registers as external. *)
Definition registered_names (regs : list (IDataRegisterPluginOpts * bool))
  : list string :=
  (fun r => rp_name (fst r)) <$> regs.

Definition external_names (regs : list (IDataRegisterPluginOpts * bool))
  : list string :=
  (fun r => rp_name (fst r)) <$> filter (fun r => snd r = true) regs.

(** The row [insert_plugin] writes for a new name. *)
Definition new_plugin_row (rows : list IDataPlugin) (name : string)
    (internal : bool) : IDataPlugin :=
  {| dp_id := next_id (dp_id <$> rows); dp_name := name; dp_enabled := true;
     dp_white_list_users := ""; dp_black_list_users := "";
     dp_internal := internal; dp_threshold := 2 |}.

(** The plugins [getPlugins] keeps, those of a registered name, and the
    enabled ones among them, which a refresh puts in [pluginCache]. *)
Definition activePlugins (s : Database) : list IMvcPlugin :=
  filter (fun p => includes (registeredPlugins s) (p_name p) = true)
         (mvcPlugin <$> tbl_plugins s).

Definition enabledPlugins (s : Database) : list IMvcPlugin :=
  filter (fun p => p_enabled p = true) (activePlugins s).

(** *** A sample installation

    Three registered plugins, the first of them internal, and the row of an
    internal plugin that this run has not registered; one group,
    a clock that advances by 100 ms per reading and a store that answers;
    the cache time is 500 ms. *)
Definition sample_ping : IDataPlugin :=
  {| dp_id := 1; dp_name := "ping"; dp_enabled := true;
     dp_white_list_users := ""; dp_black_list_users := "";
     dp_internal := true; dp_threshold := 2 |}.

Definition sample_dice : IDataPlugin :=
  {| dp_id := 2; dp_name := "dice"; dp_enabled := true;
     dp_white_list_users := ""; dp_black_list_users := "7,42";
     dp_internal := false; dp_threshold := 2 |}.

Definition sample_quote : IDataPlugin :=
  {| dp_id := 3; dp_name := "quote"; dp_enabled := true;
     dp_white_list_users := "42"; dp_black_list_users := "";
     dp_internal := false; dp_threshold := 2 |}.

Definition sample_legacy : IDataPlugin :=
  {| dp_id := 4; dp_name := "legacy"; dp_enabled := true;
     dp_white_list_users := ""; dp_black_list_users := "";
     dp_internal := true; dp_threshold := 2 |}.

Definition sample_plugins : list IDataPlugin :=
  [sample_ping; sample_dice; sample_quote; sample_legacy].

(** The snapshot a refresh takes in the sample. *)
Definition sample_catalog : list IMvcPlugin :=
  [mvcPlugin sample_ping; mvcPlugin sample_dice; mvcPlugin sample_quote].

Definition sample_groups : list IDataGroup :=
  [ {| dg_id := 1; dg_name := "lobby"; dg_group_id := 555;
       dg_admins := "9"; dg_expired_at := "2030-01-01";
       dg_plugins := "1,2" |} ].

Definition sample_env : Environment :=
  {| clock := fun n => 1000 + 100 * Z.of_nat n; db_fault := fun _ => false |}.

Definition sample_db : Database :=
  set_registeredPlugins ["ping"; "dice"; "quote"]
    (new_Database sample_env 500 sample_plugins sample_groups 1).

(** The same installation with a store that rejects its second access and
    a wall clock that is set back after the second reading. *)
Definition faulty_env : Environment :=
  {| clock := fun n => match n with
                       | O => 1000
                       | S O => 2000
                       | _ => 1200
                       end;
     db_fault := fun n => bool_decide (n = 1%nat) |}.

Definition faulty_db : Database :=
  set_registeredPlugins ["ping"; "dice"; "quote"]
    (new_Database faulty_env 500 sample_plugins sample_groups 1).

(** The group record [getGroups] builds from the row of the sample. *)
Definition sample_group : IMvcGroup :=
  {| g_id := Some 1; g_name := "lobby"; g_group_id := 555;
     g_expired_at := "2030-01-01"; g_admins := [9]; g_plugins := [1; 2] |}.

(** A reading of [dayjs] for the dates of the sample: the first instant of
    2030 in milliseconds, and [NaN] for anything else. *)
Definition sample_dayjs (date : string) : option Z :=
  if bool_decide (date = "2030-01-01") then Some 1893456000000 else None.

(** Two registrations of one name, and a batch with an external plugin. *)
Definition sample_opts : IDataRegisterPluginOpts :=
  {| rp_name := "weather"; rp_internal := None |}.

Definition sample_batch : list (IDataRegisterPluginOpts * bool) :=
  [ (sample_opts, true);
    ({| rp_name := "help"; rp_internal := Some true |}, false) ].








(** The [plugins] column of every group row that [sel] selects holds all
    of [ids]. *)
Definition grants_include (ids : list Z) (s : Database)
    (sel : IDataGroup -> Prop) : Prop :=
  ∀ row, row ∈ tbl_groups s → sel row →
  ∀ id, id ∈ ids → id ∈ toArrayNumber (dg_plugins row).

(** The ids of the plugin rows with [internal] set, and of those among them
    whose name is registered in this run. *)
Definition internal_row_ids (s : Database) : list Z :=
  dp_id <$> filter (fun r => dp_internal r = true) (tbl_plugins s).

Definition internal_registered_ids (s : Database) : list Z :=
  dp_id <$> filter (fun r => dp_internal r = true ∧
                             dp_name r ∈ registeredPlugins s) (tbl_plugins s).

(** The row [addGroup] writes. *)
Definition new_group_row (s : Database) (group : IMvcGroup) : IDataGroup :=
  {| dg_id := default (next_id (seq_groups s :: (dg_id <$> tbl_groups s)))
                      (g_id group);
     dg_name := g_name group;
     dg_group_id := g_group_id group;
     dg_admins := join (g_admins group);
     dg_expired_at := g_expired_at group;
     dg_plugins :=
       join (uniq ((p_id <$> filter (fun p => p_internal p = true) (activePlugins s))
                   ++ g_plugins group)) |}.

(** The rows [updateGroup] leaves when [plugins] is among the fields. *)
Definition updated_group_rows (s : Database) (group : PartialGroup)
    (plugins : list Z) : list IDataGroup :=
  (fun r => if bool_decide (dg_id r = pg_id group)
        then {| dg_id := pg_id group;
                dg_name := default (dg_name r) (pg_name group);
                dg_group_id := default (dg_group_id r) (pg_group_id group);
                dg_admins := default (dg_admins r) (join <$> pg_admins group);
                dg_expired_at := default (dg_expired_at r) (pg_expired_at group);
                dg_plugins :=
                  join (uniq ((p_id <$> filter (fun p => p_internal p = true)
                                                (activePlugins s)) ++ plugins)) |}
        else r) <$> tbl_groups s.

(** A group to add to the sample, and a change of the plugins of its group. *)
Definition sample_new_group : IMvcGroup :=
  {| g_id := None; g_name := "annex"; g_group_id := 777;
     g_expired_at := "2030-01-01"; g_admins := [9]; g_plugins := [2] |}.

Definition sample_group_update : PartialGroup :=
  {| pg_id := 1; pg_name := None; pg_group_id := None; pg_expired_at := None;
     pg_admins := None; pg_plugins := Some [3] |}.

(** ** Vocabulary of the further statements *)

(** A run of [m] leaves the observation [f] of the object as it was,
    whatever its outcome. *)
Definition preserves {A B} (f : Database -> B) (m : M A) : Prop :=
  ∀ s, f (after m s) = f s.

(** All that a cached read depends on: both caches, the timestamps, the
    cache time, and the clock with the number of readings taken. *)
Definition caches (s : Database)
  : gmap Z IMvcGroup * option (list IMvcPlugin) * gmap string Z * Z
    * Environment * nat :=
  (groupCache s, pluginCache s, cacheTimeMap s, cacheTime s, env s, ticks s).

(** The two runtime lists. *)
Definition runtime (s : Database) : list string * list string :=
  (registeredPlugins s, registeredExternalPlugins s).

(** The store: the two tables and the largest id given to a group. *)
Definition tables (s : Database) : list IDataPlugin * list IDataGroup * Z :=
  (tbl_plugins s, tbl_groups s, seq_groups s).

(** What [registerPlugin] does to the runtime lists once the store has
    answered. *)
Definition add_to_runtime (name : string) (external : bool) (s : Database)
  : Database :=
  let s1 :=
    if includes (registeredPlugins s) name then s
    else set_registeredPlugins (push (registeredPlugins s) name) s in
  if external && negb (includes (registeredExternalPlugins s1) name)
  then set_registeredExternalPlugins (push (registeredExternalPlugins s1) name) s1
  else s1.

(** The calls that write: the two of the registration tracker and the
    administrative ones, with their results dropped. *)
Inductive Write :=
| W_registerPlugin (opts : IDataRegisterPluginOpts) (external : bool)
| W_clearExternalPlugins
| W_registerGroup (opts : IDataRegisterGroupOpts)
| W_updatePlugin (plugin : PartialPlugin)
| W_updateGroup (group : PartialGroup)
| W_addGroup (group : IMvcGroup)
| W_deleteGroup (id : Z).

Definition run_write (w : Write) : M unit :=
  match w with
  | W_registerPlugin opts external => registerPlugin opts external
  | W_clearExternalPlugins => clearExternalPlugins
  | W_registerGroup opts => registerGroup opts
  | W_updatePlugin plugin => updatePlugin plugin ;; ret tt
  | W_updateGroup group => updateGroup group ;; ret tt
  | W_addGroup group => addGroup group ;; ret tt
  | W_deleteGroup id => deleteGroup id ;; ret tt
  end.

(** The runtime lists are well formed: no name twice in either, and every
    external name is a registered one. *)
Definition runtime_wf (s : Database) : Prop :=
  NoDup (registeredPlugins s) ∧
  NoDup (registeredExternalPlugins s) ∧
  registeredExternalPlugins s ⊆ registeredPlugins s.

(** A run of [m] keeps the property [P] of the object, whatever its
    outcome. *)
Definition keeps {A} (P : Database -> Prop) (m : M A) : Prop :=
  ∀ s, P s → P (after m s).

(** The caches are well formed: the snapshot holds enabled plugins only; a
    group record sits under its own [group_id]; every timestamp is a reading
    of the clock taken earlier; and the snapshot is there exactly when its
    timestamp is. *)
Definition cache_wf (s : Database) : Prop :=
  (∀ c, pluginCache s = Some c → Forall (fun p => p_enabled p = true) c) ∧
  (∀ k g, groupCache s !! k = Some g → g_group_id g = k) ∧
  (∀ key t, cacheTimeMap s !! key = Some t →
            ∃ n, (n < ticks s)%nat ∧ t = clock (env s) n) ∧
  (is_Some (pluginCache s) ↔ is_Some (cacheTimeMap s !! cacheKeys_plugins)).

(** The calls open to the rest of the program and to the routes of
    [createMiddleware]. *)
Inductive Call :=
| C_write (w : Write)
| C_getPlugins
| C_getGroups
| C_isGroupAdmin (groupId userId : Z)
| C_isGroupValid (groupId : Z)
| C_getAvailablePlugins (groupId : Z) (userId : option Z).

(** The object after a call, and after a sequence of calls. *)
Definition run_call (dayjs_valueOf : string -> option Z) (c : Call)
    (s : Database) : Database :=
  match c with
  | C_write w => after (run_write w) s
  | C_getPlugins => after getPlugins s
  | C_getGroups => after getGroups s
  | C_isGroupAdmin groupId userId => after (isGroupAdmin groupId userId) s
  | C_isGroupValid groupId => after (isGroupValid dayjs_valueOf groupId) s
  | C_getAvailablePlugins groupId userId =>
      after (getAvailablePlugins groupId userId) s
  end.

Definition run_calls (dayjs_valueOf : string -> option Z) (calls : list Call)
    (s : Database) : Database :=
  foldl (fun s c => run_call dayjs_valueOf c s) s calls.

(** The fields [updatePlugin] hands to the store, over the row they
    replace: the lists as strings, what is absent as it was. *)
Definition plugin_fields (plugin : PartialPlugin) (r : IDataPlugin)
  : IDataPlugin :=
  {| dp_id := pp_id plugin;
     dp_name := default (dp_name r) (pp_name plugin);
     dp_enabled := default (dp_enabled r) (pp_enabled plugin);
     dp_white_list_users :=
       default (dp_white_list_users r) (join <$> pp_white_list_users plugin);
     dp_black_list_users :=
       default (dp_black_list_users r) (join <$> pp_black_list_users plugin);
     dp_internal := default (dp_internal r) (pp_internal plugin);
     dp_threshold := default (dp_threshold r) (pp_threshold plugin) |}.

Definition updated_plugin_rows (s : Database) (plugin : PartialPlugin)
  : list IDataPlugin :=
  (fun r => if bool_decide (dp_id r = pp_id plugin)
            then plugin_fields plugin r else r) <$> tbl_plugins s.

(** The same update on a plugin as the class hands it out. *)
Definition plugin_patch (plugin : PartialPlugin) (p : IMvcPlugin)
  : IMvcPlugin :=
  {| p_id := pp_id plugin;
     p_name := default (p_name p) (pp_name plugin);
     p_enabled := default (p_enabled p) (pp_enabled plugin);
     p_internal := default (p_internal p) (pp_internal plugin);
     p_threshold := default (p_threshold p) (pp_threshold plugin);
     p_white_list_users :=
       default (p_white_list_users p) (pp_white_list_users plugin);
     p_black_list_users :=
       default (p_black_list_users p) (pp_black_list_users plugin) |}.

(** The update of [updateGroup] on a group as the class hands it out, with
    [internalIds] the internal plugins of the moment: the plugins, when
    given, are merged with them; the admins are taken as given. *)
Definition group_patch (internalIds : list Z) (group : PartialGroup)
    (g : IMvcGroup) : IMvcGroup :=
  {| g_id := Some (pg_id group);
     g_name := default (g_name g) (pg_name group);
     g_group_id := default (g_group_id g) (pg_group_id group);
     g_expired_at := default (g_expired_at g) (pg_expired_at group);
     g_admins := default (g_admins g) (pg_admins group);
     g_plugins :=
       match pg_plugins group with
       | Some plugins => uniq (internalIds ++ plugins)
       | None => g_plugins g
       end |}.

(** The rows [updateGroup] leaves when [plugins] is not among the fields. *)
Definition updated_group_rows_admins (s : Database) (group : PartialGroup)
  : list IDataGroup :=
  (fun r => if bool_decide (dg_id r = pg_id group)
            then {| dg_id := pg_id group;
                    dg_name := default (dg_name r) (pg_name group);
                    dg_group_id := default (dg_group_id r) (pg_group_id group);
                    dg_admins := default (dg_admins r) (join <$> pg_admins group);
                    dg_expired_at := default (dg_expired_at r) (pg_expired_at group);
                    dg_plugins := dg_plugins r |}
            else r) <$> tbl_groups s.

(** The row [registerGroup] writes for a new [group_id]. *)
Definition registered_group_row (s : Database) (opts : IDataRegisterGroupOpts)
  : IDataGroup :=
  {| dg_id := next_id (seq_groups s :: (dg_id <$> tbl_groups s));
     dg_name := rg_name opts;
     dg_group_id := rg_group_id opts;
     dg_admins := "";
     dg_expired_at := rg_expired_at opts;
     dg_plugins := "" |}.

(** The ids [getInternalPluginIds] reports. *)
Definition reportedInternalIds (s : Database) : list Z :=
  p_id <$> filter (fun p => p_internal p = true) (activePlugins s).

(** *** More of the sample *)

(** An update that disables the plugin 2 and gives it a white list, and one
    for an id that no row has. *)
Definition sample_plugin_update : PartialPlugin :=
  {| pp_id := 2; pp_name := None; pp_enabled := Some false;
     pp_internal := None; pp_threshold := None;
     pp_white_list_users := Some [7; 8]; pp_black_list_users := None |}.

Definition missing_plugin_update : PartialPlugin :=
  {| pp_id := 99; pp_name := None; pp_enabled := Some false;
     pp_internal := None; pp_threshold := None;
     pp_white_list_users := None; pp_black_list_users := None |}.

Definition missing_group_update : PartialGroup :=
  {| pg_id := 99; pg_name := None; pg_group_id := None; pg_expired_at := None;
     pg_admins := Some [5]; pg_plugins := None |}.

(** A registration of a group that the sample has not. *)
Definition sample_group_opts : IDataRegisterGroupOpts :=
  {| rg_name := "annex"; rg_group_id := 777; rg_expired_at := "2031-01-01" |}.

(** The sample once a call without a user has filled both caches. *)
Definition warm_db : Database :=
  after (getAvailablePlugins 555 None) sample_db.

(** The installation with the failing store, after a first read. *)
Definition failing_db : Database := after getPlugins faulty_db.

(** * Properties *)

(** ** Lists of integers as delimited strings *)

Lemma split_comma_piece (s : string) :
  comma_free s → split_comma s = [s].
Proof.
  induction s as [|c s IH]; simpl; [done|].
  intros [Hc Hs]. destruct (Ascii.eqb_spec c ","%char); [done|].
  by rewrite (IH Hs).
Qed.

Lemma split_comma_app (s t : string) :
  comma_free s →
  split_comma (s ++ String "," t)%string = s :: split_comma t.
Proof.
  induction s as [|c s IH]; simpl.
  - done.
  - intros [Hc Hs]. destruct (Ascii.eqb_spec c ","%char); [done|].
    by rewrite (IH Hs).
Qed.

Lemma append_nil (s : string) : (EmptyString ++ s)%string = s.
Proof. reflexivity. Qed.

Lemma append_String c (s t : string) :
  (String c s ++ t)%string = String c (s ++ t)%string.
Proof. reflexivity. Qed.

Lemma append_assoc (s t u : string) :
  ((s ++ t) ++ u)%string = (s ++ t ++ u)%string.
Proof. induction s as [|c s IH]; [done|]. by rewrite !append_String, IH. Qed.

Ltac append_norm := rewrite ?append_String, ?append_nil.

Lemma lacks_comma_free s : lacks "," s → comma_free s.
Proof. induction s; simpl; [done|]. intros [? ?]. auto. Qed.

Lemma lacks_app c s t : lacks c s → lacks c t → lacks c (s ++ t)%string.
Proof. induction s; simpl; [done|]. intros [? ?] ?. auto. Qed.

Lemma all_digits_uint u : all_digits (NilEmpty.string_of_uint u).
Proof. induction u; simpl; repeat split; unfold is_digit; simpl; eauto. Qed.

Lemma all_digits_uint0 u : all_digits (NilZero.string_of_uint u).
Proof.
  destruct u; [|apply (all_digits_uint (_ u))..].
  split; [|done]. unfold is_digit. simpl. eauto.
Qed.

Lemma digit_neq a c : is_digit a → uint_of_char c (Some Decimal.Nil) = None → a ≠ c.
Proof. intros [u Hu] Hc ->. congruence. Qed.

Lemma all_digits_lacks c s :
  uint_of_char c (Some Decimal.Nil) = None → all_digits s → lacks c s.
Proof.
  intros Hc. induction s as [|a s IH]; cbn [all_digits lacks]; [done|].
  intros [Ha Hs]. split; [by apply digit_neq|auto].
Qed.

Lemma digit_parse a u : is_digit a → is_Some (uint_of_char a (Some u)).
Proof.
  unfold is_digit.
  destruct a as [[|] [|] [|] [|] [|] [|] [|] [|]]; simpl; intros [w Hw];
    try discriminate; eauto.
Qed.

Lemma all_digits_parse s : all_digits s → is_Some (NilEmpty.uint_of_string s).
Proof.
  induction s as [|a s IH]; cbn [all_digits NilEmpty.uint_of_string]; [eauto|].
  intros [Ha Hs]. destruct (IH Hs) as [u ->]. by apply digit_parse.
Qed.

Lemma all_digits_strip s : all_digits s → all_digits (strip_zeros s).
Proof.
  induction s as [|a s IH]; cbn [all_digits strip_zeros]; [done|].
  intros [Ha Hs]. specialize (IH Hs). destruct (strip_zeros s).
  - destruct (Ascii.eqb a "0"); cbn [all_digits]; auto.
  - cbn [all_digits] in *. tauto.
Qed.

Lemma split_at_lacks c s : lacks c s → split_at c s = None.
Proof.
  induction s as [|a s IH]; simpl; [done|]. intros [Ha Hs].
  destruct (Ascii.eqb_spec a c); [done|]. by rewrite IH.
Qed.

Lemma split_at_app c s t :
  lacks c s → split_at c (s ++ String c t)%string = Some (s, t).
Proof.
  induction s as [|a s IH]; simpl.
  - intros _. by rewrite Ascii.eqb_refl.
  - intros [Ha Hs]. destruct (Ascii.eqb_spec a c); [done|]. by rewrite IH.
Qed.

Lemma strip_zeros_length s : (String.length (strip_zeros s) ≤ String.length s)%nat.
Proof.
  induction s as [|a s IH]; simpl; [done|].
  destruct (strip_zeros s); [destruct (Ascii.eqb a "0")|]; simpl in *; lia.
Qed.

Lemma strip_zeros_pad s :
  (strip_zeros s ++ zeros (String.length s - String.length (strip_zeros s)))%string = s.
Proof.
  induction s as [|a s IH]; [done|].
  pose proof (strip_zeros_length s) as Hlen.
  cbn [strip_zeros String.length].
  destruct (strip_zeros s) as [|b t] eqn:Ht.
  - rewrite append_nil in IH. cbn [String.length] in IH.
    rewrite Nat.sub_0_r in IH.
    destruct (Ascii.eqb_spec a "0") as [->|Hne];
      cbn [String.length zeros Nat.sub]; append_norm.
    + by rewrite IH.
    + by rewrite Nat.sub_0_r, IH.
  - cbn [String.length Nat.sub] in *. rewrite append_String.
    by rewrite IH.
Qed.

Lemma magnitude_nonnil n : magnitude n ≠ Decimal.Nil.
Proof.
  destruct n; simpl; [done| |]; apply DecimalPos.Unsigned.to_uint_nonnil.
Qed.

Lemma decimal_abs n : decimal_digits (Z.abs n) = NilEmpty.string_of_uint (magnitude n).
Proof.
  pose proof (magnitude_nonnil n) as Hnn.
  destruct n; simpl in *; [done| |]; unfold decimal_digits; simpl;
    by destruct (Pos.to_uint p).
Qed.

Lemma decimal_sign n :
  decimal_digits n = (Number_sign n ++ decimal_digits (Z.abs n))%string.
Proof. by destruct n. Qed.

Lemma decimal_parse n : NilZero.int_of_string (decimal_digits n) = Some (Z.to_int n).
Proof.
  unfold decimal_digits. apply NilZero.isi.
  - destruct n; simpl; try discriminate.
    intros [= H]. by apply DecimalPos.Unsigned.to_uint_nonnil in H.
  - destruct n; simpl; try discriminate.
    intros [= H]. by apply DecimalPos.Unsigned.to_uint_nonnil in H.
Qed.

Lemma lacks_decimal c n :
  uint_of_char c (Some Decimal.Nil) = None → c ≠ "-"%char → lacks c (decimal_digits n).
Proof.
  intros Hc Hm. rewrite decimal_sign, decimal_abs.
  apply lacks_app.
  - unfold Number_sign. destruct (n <? 0); simpl; [split; [congruence|done]|done].
  - apply all_digits_lacks; [done|apply all_digits_uint].
Qed.

Lemma exponent_digits k :
  NilZero.uint_of_string (NilZero.string_of_uint (Nat.to_uint k))
    = Some (Nat.to_uint k).
Proof.
  apply NilZero.usu. intros Hnil.
  assert (k = O) as -> by (by rewrite <- (DecimalNat.Unsigned.of_to k), Hnil).
  discriminate Hnil.
Qed.

Lemma Number_ofString_toString (n : Z) :
  Number_ofString (Number_toString n) = Some n.
Proof.
  assert (Z.of_int <$> NilZero.int_of_string (decimal_digits n) = Some n) as Hplain.
  { rewrite decimal_parse. simpl. f_equal. apply DecimalZ.of_to. }
  unfold Number_toString. destruct (Z.abs n <? 10 ^ 21).
  { unfold Number_ofString. rewrite split_at_lacks; [done|].
    by apply lacks_decimal. }
  pose proof (decimal_sign n) as Hsign. rewrite decimal_abs in *.
  pose proof (all_digits_uint (magnitude n)) as Hdig.
  destruct (NilEmpty.string_of_uint (magnitude n)) as [|d rest] eqn:Hds.
  { exfalso. pose proof (magnitude_nonnil n). by destruct (magnitude n). }
  destruct Hdig as [Hd Hrest].
  unfold exponent_form.
  set (frac := strip_zeros rest).
  set (e := String.length rest).
  set (x := NilZero.string_of_uint (Nat.to_uint e)).
  set (lead := (Number_sign n ++ String d EmptyString)%string).
  assert (all_digits frac) as Hfrac by by apply all_digits_strip.
  assert (∀ c, uint_of_char c (Some Decimal.Nil) = None → c ≠ "-"%char →
               lacks c lead) as Hhead.
  { intros c Hc Hm. apply lacks_app.
    - unfold Number_sign. destruct (n <? 0); simpl; [split; [congruence|done]|done].
    - cbn [lacks]. split; [by apply digit_neq|done]. }
  (* the mantissa and the exponent, as the parser finds them *)
  assert ((Number_sign n ++ String d (point frac) ++ "e+" ++ x)%string
          = ((lead ++ point frac) ++ String "e" (String "+" x))%string) as ->.
  { subst lead. rewrite !append_assoc. by append_norm. }
  assert (lacks "e" (lead ++ point frac)%string) as He.
  { apply lacks_app; [by apply Hhead|]. unfold point.
    destruct frac eqn:Hf; [done|]. rewrite <- Hf. cbn [lacks].
    split; [discriminate|]. rewrite Hf. by apply all_digits_lacks. }
  assert (default ((lead ++ point frac)%string, EmptyString)
                  (split_at "." (lead ++ point frac)%string)
          = (lead, frac) ∨
          (frac = EmptyString ∧
           default ((lead ++ point frac)%string, EmptyString)
                   (split_at "." (lead ++ point frac)%string)
           = ((lead ++ EmptyString)%string, EmptyString))) as Hsplit.
  { unfold point. destruct frac eqn:Hf.
    - right. split; [done|]. rewrite split_at_lacks; [done|].
      apply lacks_app; [by apply Hhead|done].
    - left. rewrite <- Hf. rewrite split_at_app; [done|]. by apply Hhead. }
  assert (is_Some (NilZero.int_of_string (lead ++ frac))) as [m Hm].
  { subst lead. rewrite append_assoc. append_norm.
    destruct (all_digits_parse (String d frac)) as [u Hu]; [by split|].
    assert (Ascii.eqb d "-" = false) as Hdm.
    { apply Ascii.eqb_neq. by apply digit_neq. }
    unfold Number_sign. destruct (n <? 0); append_norm; simpl in *.
    - rewrite Hu. simpl. eauto.
    - rewrite Hdm, Hu. simpl. eauto. }
  assert ((lead ++ frac ++ zeros (e - String.length frac))%string = decimal_digits n)
    as Hdigits.
  { rewrite Hsign. subst lead. rewrite append_assoc. append_norm.
    do 2 f_equal. apply strip_zeros_pad. }
  pose proof (strip_zeros_length rest) as Hlen. fold frac e in Hlen.
  unfold Number_ofString. rewrite split_at_app by done.
  destruct Hsplit as [->|[Hnil ->]].
  - rewrite Hm. subst x. rewrite exponent_digits, DecimalNat.Unsigned.of_to.
    rewrite (proj2 (Nat.leb_le _ _) Hlen). by rewrite Hdigits.
  - rewrite Hnil in *. rewrite append_assoc in *. append_norm.
    rewrite Hm. subst x. rewrite exponent_digits, DecimalNat.Unsigned.of_to.
    cbn [String.length Nat.leb]. rewrite append_assoc. append_norm.
    rewrite append_nil in Hdigits. cbn [String.length] in Hdigits.
    by rewrite Hdigits.
Qed.

Lemma comma_free_toString (n : Z) : comma_free (Number_toString n).
Proof.
  apply lacks_comma_free. unfold Number_toString.
  destruct (Z.abs n <? 10 ^ 21); [by apply lacks_decimal|].
  rewrite decimal_abs.
  pose proof (all_digits_uint (magnitude n)) as Hdig.
  destruct (NilEmpty.string_of_uint (magnitude n)) as [|d rest]; [done|].
  destruct Hdig as [Hd Hrest]. unfold exponent_form.
  apply lacks_app.
  { unfold Number_sign. destruct (n <? 0); simpl; [split; [discriminate|done]|done]. }
  append_norm. cbn [lacks]. split; [by apply digit_neq|].
  apply lacks_app.
  { pose proof (all_digits_strip rest Hrest) as Hfrac. unfold point.
    destruct (strip_zeros rest) eqn:Hf; [done|]. rewrite <- Hf in *.
    cbn [lacks]. split; [discriminate|]. by apply all_digits_lacks. }
  append_norm. cbn [lacks]. split; [discriminate|]. split; [discriminate|].
  apply all_digits_lacks; [done|apply all_digits_uint0].
Qed.

Lemma toArrayNumber_join (l : list Z) : toArrayNumber (join l) = l.
Proof.
  unfold toArrayNumber, join.
  induction l as [|n [|n' l] IH].
  - reflexivity.
  - simpl. rewrite split_comma_piece by apply comma_free_toString.
    simpl. by rewrite Number_ofString_toString.
  - change (join_strings "," (Number_toString <$> n :: n' :: l))
      with (Number_toString n ++ String "," (join_strings "," (Number_toString <$> n' :: l)))%string.
    rewrite split_comma_app by apply comma_free_toString.
    change (omap ?f (?x :: ?xs)) with
      (match f x with Some y => y :: omap f xs | None => omap f xs end).
    rewrite Number_ofString_toString. by rewrite IH.
Qed.

(** A safe integer is written in its decimal digits. *)
Lemma Number_toString_safe (n : Z) :
  safe_integer n → Number_toString n = decimal_digits n.
Proof.
  unfold safe_integer, Number_toString. intros Hn.
  assert ((Z.abs n <? 10 ^ 21) = true) as ->; [|done].
  apply Z.ltb_lt. eapply Z.lt_trans; [exact Hn|reflexivity].
Qed.

Lemma join_safe (l : list Z) :
  Forall safe_integer l → join l = join_strings "," (decimal_digits <$> l).
Proof.
  unfold join. intros Hl. f_equal. apply list_fmap_ext.
  intros i n Hn. apply Number_toString_safe.
  by eapply Forall_lookup_1.
Qed.

(** C10. For each list-valued field (the white and black lists of a plugin,
    the admins and plugins of a group) and each sequence of safe integers,
    [join] writes the decimal digits of the integers with commas between
    them, and [toArrayNumber] reads the string back as the sequence it was
    written from; the empty string is read as the empty sequence. *)
Theorem serialize_then_parse :
  (∀ l : list Z, Forall safe_integer l →
     join l = join_strings "," (decimal_digits <$> l) ∧
     toArrayNumber (join l) = l) ∧
  toArrayNumber "" = [] ∧
  (∀ (r : IDataPlugin) (l : list Z), Forall safe_integer l →
      p_white_list_users (mvcPlugin
        {| dp_id := dp_id r; dp_name := dp_name r; dp_enabled := dp_enabled r;
           dp_white_list_users := join l;
           dp_black_list_users := dp_black_list_users r;
           dp_internal := dp_internal r; dp_threshold := dp_threshold r |}) = l) ∧
  (∀ (r : IDataPlugin) (l : list Z), Forall safe_integer l →
      p_black_list_users (mvcPlugin
        {| dp_id := dp_id r; dp_name := dp_name r; dp_enabled := dp_enabled r;
           dp_white_list_users := dp_white_list_users r;
           dp_black_list_users := join l;
           dp_internal := dp_internal r; dp_threshold := dp_threshold r |}) = l) ∧
  (∀ (r : IDataGroup) (admins plugins : list Z),
      Forall safe_integer admins → Forall safe_integer plugins →
      let g := mvcGroup
        {| dg_id := dg_id r; dg_name := dg_name r; dg_group_id := dg_group_id r;
           dg_admins := join admins; dg_expired_at := dg_expired_at r;
           dg_plugins := join plugins |} in
      g_admins g = admins ∧ g_plugins g = plugins).
Proof.
  split; [intros l Hl; split; [by apply join_safe|apply toArrayNumber_join]|].
  split; [reflexivity|].
  split; [intros r l _; apply toArrayNumber_join|].
  split; [intros r l _; apply toArrayNumber_join|].
  intros r admins plugins _ _ g. split; apply toArrayNumber_join.
Qed.

(** ** Running a method *)

Arguments pluginNames : simpl never.
Arguments pluginMap_of : simpl never.

Lemma includes_true `{EqDecision A} (l : list A) (x : A) :
  includes l x = true ↔ x ∈ l.
Proof. unfold includes. apply bool_decide_eq_true. Qed.

Lemma includes_false `{EqDecision A} (l : list A) (x : A) :
  includes l x = false ↔ x ∉ l.
Proof. unfold includes. apply bool_decide_eq_false. Qed.

Lemma bind_Ok {A B} (m : M A) (k : A → M B) s a s' :
  m s = (Ok a, s') → bind m k s = k a s'.
Proof. unfold bind. by intros ->. Qed.

Lemma bind_Throw {A B} (m : M A) (k : A → M B) s e s' :
  m s = (Throw e, s') → bind m k s = (Throw e, s').
Proof. unfold bind. by intros ->. Qed.

Lemma db_access_Ok s :
  db_fault (env s) (db_calls s) = false →
  db_access s = (Ok tt, set_db_calls (S (db_calls s)) s).
Proof. unfold db_access. by intros ->. Qed.

Lemma db_access_Throw s :
  db_fault (env s) (db_calls s) = true →
  db_access s = (Throw StoreError, set_db_calls (S (db_calls s)) s).
Proof. unfold db_access. by intros ->. Qed.

Lemma head_filter_None {A} (P : A → Prop) `{∀ x, Decision (P x)} (l : list A) :
  head (filter P l) = None ↔ ∀ x, x ∈ l → ¬ P x.
Proof.
  rewrite head_None. split.
  - intros Hnil x Hx HP. by eapply filter_nil_not_elem_of.
  - intros Hall. induction l as [|y l IH]; [done|].
    rewrite filter_cons. destruct (decide (P y)) as [HP|HP].
    + exfalso. eapply Hall; [left|done].
    + apply IH. intros x Hx. apply Hall. by right.
Qed.

Lemma head_filter_Some {A} (P : A → Prop) `{∀ x, Decision (P x)} (l : list A) x :
  head (filter P l) = Some x → x ∈ l ∧ P x.
Proof.
  intros Hhd. assert (x ∈ filter P l) as Hx.
  { destruct (filter P l); simplify_eq/=. left. }
  apply list_elem_of_filter in Hx. tauto.
Qed.

(** ** The registration tracker *)

(** What one registration does when the store answers. *)
Lemma registerPlugin_spec opts external s :
  never_faults s →
  let name := rp_name opts in
  let s' := after (registerPlugin opts external) s in
  outcome (registerPlugin opts external) s = Ok tt ∧
  env s' = env s ∧
  tbl_plugins s' =
    (if includes (dp_name <$> tbl_plugins s) name then tbl_plugins s
     else tbl_plugins s ++
          [new_plugin_row (tbl_plugins s) name (default false (rp_internal opts))]) ∧
  registeredPlugins s' =
    (if includes (registeredPlugins s) name then registeredPlugins s
     else push (registeredPlugins s) name) ∧
  registeredExternalPlugins s' =
    (if external && negb (includes (registeredExternalPlugins s) name)
     then push (registeredExternalPlugins s) name
     else registeredExternalPlugins s).
Proof.
  intros Hok name s'. subst s'. unfold outcome, after, registerPlugin.
  fold name. unfold first_plugin_by_name.
  rewrite (bind_Ok _ _ s (head (filter (λ r, dp_name r = name) (tbl_plugins s)))
             (set_db_calls (S (db_calls s)) s)); cycle 1.
  { unfold bind. rewrite db_access_Ok by apply Hok. done. }
  destruct (head (filter (λ r, dp_name r = name) (tbl_plugins s))) as [row|] eqn:Hhd.
  - apply head_filter_Some in Hhd as [Hrow Hname].
    assert (includes (dp_name <$> tbl_plugins s) name = true) as ->.
    { apply includes_true, list_elem_of_fmap. eauto. }
    unfold bind, ret, gets, when, modify; simpl.
    destruct (includes (registeredPlugins s) name); simpl;
      destruct external; simpl; try done;
      destruct (includes (registeredExternalPlugins s) name); simpl; done.
  - pose proof (proj1 (head_filter_None _ _) Hhd) as Hnone.
    assert (includes (dp_name <$> tbl_plugins s) name = false) as Hinc.
    { apply includes_false. intros (r & Hr & Hin)%list_elem_of_fmap.
      by eapply Hnone. }
    rewrite Hinc.
    unfold insert_plugin, bind, ret, gets, when, modify, throw, db_access; simpl.
    rewrite Hok. simpl. rewrite Hinc. simpl.
    destruct (includes (registeredPlugins s) name); simpl;
      destruct external; simpl; try done;
      destruct (includes (registeredExternalPlugins s) name); simpl; done.
Qed.

Lemma run_eq {A} (m : M A) s : m s = (outcome m s, after m s).
Proof. unfold outcome, after. by destruct (m s). Qed.

Lemma bind_outcome_Ok {A B} (m : M A) (k : A → M B) s a :
  outcome m s = Ok a → bind m k s = k a (after m s).
Proof. intros H. apply bind_Ok. by rewrite (run_eq m s), H. Qed.

Lemma length_filter_NoDup {A B} `{EqDecision B} (f : A → B) (l : list A) (x : B) :
  NoDup (f <$> l) → x ∈ f <$> l →
  length (filter (λ r, f r = x) l) = 1%nat.
Proof.
  induction l as [|y l IH]; simpl.
  - by intros _ ?%elem_of_nil.
  - intros [Hy Hl]%NoDup_cons Hx. rewrite filter_cons.
    destruct (decide (f y = x)) as [<-|Hne]; simpl.
    + f_equal. apply length_zero_iff_nil, elem_of_nil_inv.
      intros r [Hr Hin]%list_elem_of_filter. apply Hy, list_elem_of_fmap. eauto.
    + apply IH; [done|]. apply elem_of_cons in Hx as [->|Hx]; done.
Qed.

Lemma registerAll_spec regs s :
  never_faults s →
  let s' := after (registerAll regs) s in
  outcome (registerAll regs) s = Ok tt ∧
  env s' = env s ∧
  (∀ name, name ∈ registeredPlugins s' ↔
           name ∈ registeredPlugins s ∨ name ∈ registered_names regs) ∧
  (∀ name, name ∈ registeredExternalPlugins s' ↔
           name ∈ registeredExternalPlugins s ∨ name ∈ external_names regs).
Proof.
  revert s. induction regs as [|[opts external] regs IH]; intros s Hok; simpl.
  - unfold outcome, after; simpl. repeat split; try tauto.
    + intros [?|?%elem_of_nil]; done.
    + intros [?|?%elem_of_nil]; done.
  - destruct (registerPlugin_spec opts external s Hok)
      as (Hout & Henv & _ & Hreg & Hext).
    set (s1 := after (registerPlugin opts external) s) in *.
    assert (never_faults s1) as Hok1 by (intros n; rewrite Henv; apply Hok).
    destruct (IH s1 Hok1) as (Hout' & Henv' & Hreg' & Hext').
    unfold outcome, after. rewrite (bind_outcome_Ok _ _ _ _ Hout). fold s1.
    fold (outcome (registerAll regs) s1). fold (after (registerAll regs) s1).
    split; [done|]. split; [congruence|]. split.
    + intros name. rewrite Hreg', Hreg. unfold registered_names, push. simpl.
      rewrite elem_of_cons.
      destruct (includes (registeredPlugins s) (rp_name opts)) eqn:Hinc.
      * apply includes_true in Hinc. split; [tauto|].
        intros [?|[->|?]]; tauto.
      * rewrite elem_of_app, list_elem_of_singleton. tauto.
    + intros name. rewrite Hext', Hext. unfold external_names, push.
      rewrite filter_cons. simpl. destruct external; simpl.
      * rewrite elem_of_cons.
        destruct (includes (registeredExternalPlugins s) (rp_name opts)) eqn:Hinc;
          simpl.
        -- apply includes_true in Hinc. split; [tauto|].
           intros [?|[->|?]]; tauto.
        -- rewrite elem_of_app, list_elem_of_singleton. tauto.
      * done.
Qed.

(** C6. Registering a name twice, whatever the flags of the two calls,
    leaves one row of that name in the table and the name once in
    [registeredPlugins]; the second call does not touch the table, and
    neither does a call for a name that already has a row. The store is
    taken to answer, [name] to be a unique column and [registeredPlugins] to
    be free of repetitions, as it is in every object built by the class. *)
Theorem registerPlugin_idempotent
    (opts opts' : IDataRegisterPluginOpts) (external external' : bool)
    (s : Database) :
  never_faults s →
  NoDup (dp_name <$> tbl_plugins s) →
  NoDup (registeredPlugins s) →
  rp_name opts' = rp_name opts →
  let name := rp_name opts in
  let s1 := after (registerPlugin opts external) s in
  let s2 := after (registerPlugin opts' external') s1 in
  outcome (registerPlugin opts external) s = Ok tt ∧
  outcome (registerPlugin opts' external') s1 = Ok tt ∧
  length (filter (λ r, dp_name r = name) (tbl_plugins s2)) = 1%nat ∧
  length (filter (λ n, n = name) (registeredPlugins s2)) = 1%nat ∧
  tbl_plugins s2 = tbl_plugins s1 ∧
  (name ∈ dp_name <$> tbl_plugins s → tbl_plugins s1 = tbl_plugins s).
Proof.
  intros Hok Hnames Hreg Heq name s1 s2.
  destruct (registerPlugin_spec opts external s Hok)
    as (Hout1 & Henv1 & Htbl1 & Hreg1 & _).
  fold name s1 in Hout1, Henv1, Htbl1, Hreg1.
  assert (never_faults s1) as Hok1 by (intros n; rewrite Henv1; apply Hok).
  destruct (registerPlugin_spec opts' external' s1 Hok1)
    as (Hout2 & _ & Htbl2 & Hreg2 & _).
  rewrite Heq in Htbl2, Hreg2. fold name s2 in Htbl2, Hreg2.
  (* after the first call the name has a row and is registered *)
  assert (name ∈ dp_name <$> tbl_plugins s1 ∧ NoDup (dp_name <$> tbl_plugins s1))
    as [Hin1 Hnd1].
  { rewrite Htbl1.
    destruct (includes (dp_name <$> tbl_plugins s) name) eqn:Hinc.
    - by apply includes_true in Hinc.
    - apply includes_false in Hinc. rewrite fmap_app. simpl. split.
      + apply elem_of_app. right. by left.
      + apply NoDup_app. split; [done|]. split.
        * intros x Hx ->%list_elem_of_singleton. done.
        * apply NoDup_singleton. }
  assert (name ∈ registeredPlugins s1 ∧ NoDup (registeredPlugins s1))
    as [Hin1' Hnd1'].
  { rewrite Hreg1.
    destruct (includes (registeredPlugins s) name) eqn:Hinc.
    - by apply includes_true in Hinc.
    - apply includes_false in Hinc. unfold push. split.
      + apply elem_of_app. right. by left.
      + apply NoDup_app. split; [done|]. split.
        * intros x Hx ->%list_elem_of_singleton. done.
        * apply NoDup_singleton. }
  apply includes_true in Hin1 as Hinc1. apply includes_true in Hin1' as Hinc1'.
  rewrite Hinc1 in Htbl2. rewrite Hinc1' in Hreg2.
  split; [done|]. split; [done|]. split.
  { rewrite Htbl2. by apply length_filter_NoDup. }
  split.
  { rewrite Hreg2. apply (length_filter_NoDup id).
    - by rewrite list_fmap_id.
    - by rewrite list_fmap_id. }
  split; [done|].
  intros Hin. apply includes_true in Hin. by rewrite Htbl1, Hin.
Qed.

(** C7. After any batch of registrations, [clearExternalPlugins] empties
    [registeredExternalPlugins] and keeps in [registeredPlugins] the names
    that were not in it, in their order; the names in it are those the
    batch registered as external, besides those it held before. A name the
    batch registered, never as external, and that was not held as external
    before, stays registered. *)
Theorem clearExternalPlugins_spec
    (regs : list (IDataRegisterPluginOpts * bool)) (s : Database) :
  never_faults s →
  let s1 := after (registerAll regs) s in
  let s2 := after clearExternalPlugins s1 in
  outcome (registerAll regs) s = Ok tt ∧
  outcome clearExternalPlugins s1 = Ok tt ∧
  registeredExternalPlugins s2 = [] ∧
  registeredPlugins s2 =
    filter (λ name, name ∉ registeredExternalPlugins s1) (registeredPlugins s1) ∧
  (∀ name, name ∈ registeredExternalPlugins s1 ↔
           name ∈ registeredExternalPlugins s ∨ name ∈ external_names regs) ∧
  (∀ name, name ∈ registeredPlugins s2 ↔
           (name ∈ registeredPlugins s ∨ name ∈ registered_names regs) ∧
           ¬ (name ∈ registeredExternalPlugins s ∨ name ∈ external_names regs)) ∧
  (∀ name, name ∈ registered_names regs →
           name ∉ external_names regs →
           name ∉ registeredExternalPlugins s →
           name ∈ registeredPlugins s2).
Proof.
  intros Hok s1 s2.
  destruct (registerAll_spec regs s Hok) as (Hout & _ & Hreg & Hext).
  fold s1 in Hreg, Hext.
  assert (registeredPlugins s2 =
          filter (λ name, name ∉ registeredExternalPlugins s1) (registeredPlugins s1))
    as Hfilter.
  { subst s2. unfold after, clearExternalPlugins, bind, modify. simpl.
    apply list_filter_iff. intros name. apply includes_false. }
  assert (∀ name, name ∈ registeredPlugins s2 ↔
           (name ∈ registeredPlugins s ∨ name ∈ registered_names regs) ∧
           ¬ (name ∈ registeredExternalPlugins s ∨ name ∈ external_names regs))
    as Hiff.
  { intros name. rewrite Hfilter, list_elem_of_filter, Hreg, Hext. tauto. }
  split; [done|]. split; [done|]. split; [done|]. split; [done|].
  split; [done|]. split; [done|].
  intros name Hin Hnext Hnheld. apply Hiff. tauto.
Qed.

(** ** The TTL caches *)

Lemma isCacheExpired_run key s :
  isCacheExpired key s =
  match cacheTimeMap s !! key with
  | Some latest =>
      if bool_decide (latest ≠ 0)
      then (Ok (negb (clock (env s) (ticks s) - latest <? cacheTime s)),
            set_ticks (S (ticks s)) s)
      else (Ok true, s)
  | None => (Ok true, s)
  end.
Proof.
  unfold isCacheExpired, bind, gets, ret, Date_now; simpl.
  destruct (cacheTimeMap s !! key) as [latest|]; [|done].
  destruct (bool_decide (latest ≠ 0)); [|done]. simpl.
  by destruct (clock (env s) (ticks s) - latest <? cacheTime s).
Qed.

Lemma updateCacheTimeMap_run key s :
  updateCacheTimeMap key s =
  (Ok tt, set_cacheTimeMap (<[key := clock (env s) (ticks s)]> (cacheTimeMap s))
            (set_ticks (S (ticks s)) s)).
Proof. reflexivity. Qed.

Lemma getPlugins_Ok s :
  db_fault (env s) (db_calls s) = false →
  getPlugins s = (Ok (activePlugins s), set_db_calls (S (db_calls s)) s).
Proof.
  intros Hok. unfold getPlugins, select_plugins, bind.
  by rewrite db_access_Ok.
Qed.

Lemma getPlugins_Throw s :
  db_fault (env s) (db_calls s) = true →
  getPlugins s = (Throw StoreError, set_db_calls (S (db_calls s)) s).
Proof.
  intros Hko. unfold getPlugins, select_plugins, bind.
  by rewrite db_access_Throw.
Qed.

Lemma plugin_update_Ok s :
  db_fault (env s) (db_calls s) = false →
  getPluginListFromCache_update s =
  (Ok tt,
   set_cacheTimeMap
     (<[cacheKeys_plugins := clock (env s) (ticks s)]> (cacheTimeMap s))
     (set_ticks (S (ticks s))
        (set_pluginCache (Some (enabledPlugins s))
           (set_db_calls (S (db_calls s)) s)))).
Proof.
  intros Hok. unfold getPluginListFromCache_update.
  rewrite (bind_Ok _ _ _ _ _ (getPlugins_Ok s Hok)). reflexivity.
Qed.

Lemma plugin_update_Throw s :
  db_fault (env s) (db_calls s) = true →
  getPluginListFromCache_update s =
  (Throw StoreError, set_db_calls (S (db_calls s)) s).
Proof.
  intros Hko. unfold getPluginListFromCache_update.
  by rewrite (bind_Throw _ _ _ _ _ (getPlugins_Throw s Hko)).
Qed.

(** The getter when the snapshot is there and its timer has not run out. *)
Lemma getPluginListFromCache_cached s cache latest :
  pluginCache s = Some cache →
  cacheTimeMap s !! cacheKeys_plugins = Some latest →
  latest ≠ 0 →
  clock (env s) (ticks s) - latest < cacheTime s →
  getPluginListFromCache s = (Ok cache, set_ticks (S (ticks s)) s).
Proof.
  intros Hc Ht Hnz Hlt. unfold getPluginListFromCache, bind at 1, gets.
  rewrite Hc. unfold bind. rewrite isCacheExpired_run, Ht.
  rewrite bool_decide_eq_true_2 by done.
  apply Z.ltb_lt in Hlt. by rewrite Hlt.
Qed.

(** The getter when the timer has run out and the store answers. *)
Lemma getPluginListFromCache_due s cache latest :
  pluginCache s = Some cache →
  cacheTimeMap s !! cacheKeys_plugins = Some latest →
  latest ≠ 0 →
  cacheTime s ≤ clock (env s) (ticks s) - latest →
  db_fault (env s) (db_calls s) = false →
  getPluginListFromCache s =
  (Ok (enabledPlugins s),
   set_cacheTimeMap
     (<[cacheKeys_plugins := clock (env s) (S (ticks s))]> (cacheTimeMap s))
     (set_ticks (S (S (ticks s)))
        (set_pluginCache (Some (enabledPlugins s))
           (set_db_calls (S (db_calls s)) s)))).
Proof.
  intros Hc Ht Hnz Hge Hok. unfold getPluginListFromCache, bind at 1, gets.
  rewrite Hc. unfold bind at 1. rewrite isCacheExpired_run, Ht.
  rewrite bool_decide_eq_true_2 by done.
  assert ((clock (env s) (ticks s) - latest <? cacheTime s) = false) as ->
    by (apply Z.ltb_ge; lia).
  simpl. unfold bind at 1. rewrite plugin_update_Ok by done. reflexivity.
Qed.

(** The getter before any refresh. *)
Lemma getPluginListFromCache_first s :
  pluginCache s = None →
  db_fault (env s) (db_calls s) = false →
  getPluginListFromCache s =
  (Ok (enabledPlugins s),
   set_cacheTimeMap
     (<[cacheKeys_plugins := clock (env s) (ticks s)]> (cacheTimeMap s))
     (set_ticks (S (ticks s))
        (set_pluginCache (Some (enabledPlugins s))
           (set_db_calls (S (db_calls s)) s)))).
Proof.
  intros Hc Hok. unfold getPluginListFromCache, bind at 1, gets.
  rewrite Hc. unfold bind at 1. rewrite plugin_update_Ok by done. reflexivity.
Qed.

(** Whenever the getter returns, what it returns is the snapshot it leaves
    in [pluginCache]. *)
Lemma getPluginListFromCache_returns s snapshot s' :
  getPluginListFromCache s = (Ok snapshot, s') →
  pluginCache s' = Some snapshot.
Proof.
  assert (∀ s0, (getPluginListFromCache_update ;;
                 let* cache' := gets pluginCache in ret (default [] cache')) s0
                = (Ok snapshot, s') → pluginCache s' = Some snapshot) as Hrefresh.
  { intros s0. unfold bind at 1.
    destruct (db_fault (env s0) (db_calls s0)) eqn:Hf.
    - by rewrite plugin_update_Throw.
    - rewrite plugin_update_Ok by done. simpl. by intros [= <- <-]. }
  unfold getPluginListFromCache, bind at 1, gets.
  destruct (pluginCache s) as [cache|] eqn:Hc; [|apply Hrefresh].
  unfold bind at 1. rewrite isCacheExpired_run.
  destruct (cacheTimeMap s !! cacheKeys_plugins) as [latest|]; [|apply Hrefresh].
  destruct (bool_decide (latest ≠ 0)); [|apply Hrefresh].
  destruct (clock (env s) (ticks s) - latest <? cacheTime s); simpl;
    [|apply Hrefresh].
  unfold ret. by intros [= <- <-].
Qed.

Lemma getPluginListFromCache_snapshot s snapshot :
  outcome getPluginListFromCache s = Ok snapshot →
  pluginCache (after getPluginListFromCache s) = Some snapshot.
Proof.
  intros H. apply (getPluginListFromCache_returns s).
  by rewrite (run_eq getPluginListFromCache s), H.
Qed.

(** The expiry test reads the clock and nothing else changes. *)
Lemma isCacheExpired_frame key s :
  let s' := after (isCacheExpired key) s in
  env s' = env s ∧ db_calls s' = db_calls s ∧
  tbl_plugins s' = tbl_plugins s ∧ tbl_groups s' = tbl_groups s ∧
  registeredPlugins s' = registeredPlugins s ∧
  cacheTime s' = cacheTime s ∧ groupCache s' = groupCache s ∧
  pluginCache s' = pluginCache s ∧ cacheTimeMap s' = cacheTimeMap s.
Proof.
  unfold after. rewrite isCacheExpired_run.
  destruct (cacheTimeMap s !! key) as [latest|]; [|done].
  by destruct (bool_decide (latest ≠ 0)).
Qed.

(** The getter when a refresh is due and the store rejects the read. *)
Lemma getPluginListFromCache_fault s :
  db_fault (env s) (db_calls s) = true →
  pluginCache s = None ∨ outcome (isCacheExpired cacheKeys_plugins) s = Ok true →
  outcome getPluginListFromCache s = Throw StoreError ∧
  pluginCache (after getPluginListFromCache s) = pluginCache s ∧
  cacheTimeMap (after getPluginListFromCache s) = cacheTimeMap s.
Proof.
  intros Hf Hdue.
  assert (∃ s1, getPluginListFromCache s =
                (Throw StoreError, set_db_calls (S (db_calls s1)) s1) ∧
                pluginCache s1 = pluginCache s ∧
                cacheTimeMap s1 = cacheTimeMap s) as (s1 & Hrun & Hc1 & Ht1).
  { unfold getPluginListFromCache, bind at 1, gets.
    destruct (pluginCache s) as [cache|] eqn:Hc.
    - destruct Hdue as [?|Hexp]; [done|].
      exists (after (isCacheExpired cacheKeys_plugins) s).
      destruct (isCacheExpired_frame cacheKeys_plugins s)
        as (He & Hd & _ & _ & _ & _ & _ & Hp & Ht).
      rewrite (bind_outcome_Ok _ _ _ _ Hexp). simpl. unfold bind at 1.
      rewrite plugin_update_Throw by (by rewrite He, Hd).
      split; [done|]. split; congruence.
    - exists s. unfold bind at 1. by rewrite plugin_update_Throw. }
  unfold outcome, after. rewrite Hrun. simpl. done.
Qed.

(** C9. The expiry test answers that a key is expired exactly when the key
    has no timestamp or the cache time has passed since its timestamp
    (timestamps being readings of a clock that is past 1970, hence not 0).
    A second call of the getter within the cache time of the timestamp
    returns the snapshot of the first and reaches the store not once; a call
    once the cache time has passed reaches the store once, replaces the
    snapshot by the enabled registered plugins and stamps the key anew. *)
Theorem cache_freshness (s : Database) :
  (∀ key, cacheTimeMap s !! key ≠ Some 0 →
     (outcome (isCacheExpired key) s = Ok true ∨
      outcome (isCacheExpired key) s = Ok false) ∧
     (outcome (isCacheExpired key) s = Ok true ↔
      cacheTimeMap s !! key = None ∨
      ∃ latest, cacheTimeMap s !! key = Some latest ∧
                cacheTime s ≤ clock (env s) (ticks s) - latest)) ∧
  (∀ snapshot latest,
     outcome getPluginListFromCache s = Ok snapshot →
     let s1 := after getPluginListFromCache s in
     cacheTimeMap s1 !! cacheKeys_plugins = Some latest →
     latest ≠ 0 →
     clock (env s1) (ticks s1) - latest < cacheTime s1 →
     let s2 := after getPluginListFromCache s1 in
     outcome getPluginListFromCache s1 = Ok snapshot ∧
     db_calls s2 = db_calls s1 ∧
     pluginCache s2 = Some snapshot ∧
     cacheTimeMap s2 = cacheTimeMap s1) ∧
  (∀ cache latest,
     pluginCache s = Some cache →
     cacheTimeMap s !! cacheKeys_plugins = Some latest →
     latest ≠ 0 →
     cacheTime s ≤ clock (env s) (ticks s) - latest →
     db_fault (env s) (db_calls s) = false →
     let s' := after getPluginListFromCache s in
     outcome getPluginListFromCache s = Ok (enabledPlugins s) ∧
     db_calls s' = S (db_calls s) ∧
     pluginCache s' = Some (enabledPlugins s) ∧
     cacheTimeMap s' !! cacheKeys_plugins = Some (clock (env s) (S (ticks s)))).
Proof.
  split; [|split].
  - intros key Hnz. unfold outcome. rewrite isCacheExpired_run.
    destruct (cacheTimeMap s !! key) as [latest|] eqn:Ht; simpl.
    + rewrite bool_decide_eq_true_2 by congruence. simpl.
      destruct (Z.ltb_spec (clock (env s) (ticks s) - latest) (cacheTime s));
        simpl.
      * split; [by right|]. split; [done|].
        intros [?|(l & [= <-] & ?)]; [done|lia].
      * split; [by left|]. split; [|done]. intros _. right. eauto.
    + split; [by left|]. split; [|done]. intros _. by left.
  - intros snapshot latest Hout s1 Ht Hnz Hlt s2.
    pose proof (getPluginListFromCache_snapshot s snapshot Hout) as Hc.
    fold s1 in Hc. subst s2. unfold outcome, after.
    rewrite (getPluginListFromCache_cached s1 snapshot latest) by done.
    simpl. done.
  - intros cache latest Hc Ht Hnz Hge Hok s'. subst s'. unfold outcome, after.
    rewrite (getPluginListFromCache_due s cache latest) by done.
    simpl. split; [done|]. split; [done|]. split; [done|].
    apply lookup_insert_eq.
Qed.

(** C4. When a refresh of the plugin snapshot is due and the store rejects
    the read, the getter throws the store error and leaves [pluginCache] and
    [cacheTimeMap] as they were; a later call that finds the timer of the
    key not run out returns the snapshot that was there. *)
Theorem refresh_failure_keeps_snapshot (s : Database) :
  db_fault (env s) (db_calls s) = true →
  pluginCache s = None ∨ outcome (isCacheExpired cacheKeys_plugins) s = Ok true →
  let s' := after getPluginListFromCache s in
  outcome getPluginListFromCache s = Throw StoreError ∧
  pluginCache s' = pluginCache s ∧
  cacheTimeMap s' = cacheTimeMap s ∧
  (∀ snapshot latest s2,
     pluginCache s = Some snapshot →
     cacheTimeMap s !! cacheKeys_plugins = Some latest →
     latest ≠ 0 →
     pluginCache s2 = pluginCache s' →
     cacheTimeMap s2 = cacheTimeMap s' →
     clock (env s2) (ticks s2) - latest < cacheTime s2 →
     outcome getPluginListFromCache s2 = Ok snapshot).
Proof.
  intros Hf Hdue s'.
  destruct (getPluginListFromCache_fault s Hf Hdue) as (Hout & Hc' & Ht').
  fold s' in Hc', Ht'.
  split; [done|]. split; [done|]. split; [done|].
  intros snapshot latest s2 Hc Ht Hnz Hc2 Ht2 Hlt. unfold outcome.
  rewrite (getPluginListFromCache_cached s2 snapshot latest); try done.
  - congruence.
  - by rewrite Ht2, Ht'.
Qed.

Lemma getGroups_Ok s :
  db_fault (env s) (db_calls s) = false →
  getGroups s = (Ok (mvcGroup <$> tbl_groups s), set_db_calls (S (db_calls s)) s).
Proof.
  intros Hok. unfold getGroups, select_groups, bind.
  by rewrite db_access_Ok.
Qed.

Lemma getGroups_Throw s :
  db_fault (env s) (db_calls s) = true →
  getGroups s = (Throw StoreError, set_db_calls (S (db_calls s)) s).
Proof.
  intros Hko. unfold getGroups, select_groups, bind.
  by rewrite db_access_Throw.
Qed.

Lemma group_update_Ok s :
  db_fault (env s) (db_calls s) = false →
  getGroupMapFromCache_update s =
  (Ok tt,
   set_cacheTimeMap
     (<[cacheKeys_groups := clock (env s) (ticks s)]> (cacheTimeMap s))
     (set_ticks (S (ticks s))
        (set_groupCache
           (groupCache_setAll (mvcGroup <$> tbl_groups s) (groupCache s))
           (set_db_calls (S (db_calls s)) s)))).
Proof.
  intros Hok. unfold getGroupMapFromCache_update.
  rewrite (bind_Ok _ _ _ _ _ (getGroups_Ok s Hok)). reflexivity.
Qed.

Lemma group_update_Throw s :
  db_fault (env s) (db_calls s) = true →
  getGroupMapFromCache_update s =
  (Throw StoreError, set_db_calls (S (db_calls s)) s).
Proof.
  intros Hko. unfold getGroupMapFromCache_update.
  by rewrite (bind_Throw _ _ _ _ _ (getGroups_Throw s Hko)).
Qed.

(** A refresh writes the groups of the store over the map and leaves every
    other key as it was. *)
Lemma groupCache_setAll_other groups cache groupId :
  groupId ∉ g_group_id <$> groups →
  groupCache_setAll groups cache !! groupId = cache !! groupId.
Proof.
  unfold groupCache_setAll. revert cache.
  induction groups as [|g groups IH]; intros cache Hnot; simpl; [done|].
  rewrite fmap_cons, not_elem_of_cons in Hnot. destruct Hnot as [Hne Hnot].
  rewrite IH by done. by rewrite lookup_insert_ne.
Qed.

Lemma mvcGroup_ids (rows : list IDataGroup) :
  g_group_id <$> (mvcGroup <$> rows) = dg_group_id <$> rows.
Proof. rewrite <- list_fmap_compose. done. Qed.

(** A group that is the only one of its [group_id] among those set is
    found under it. *)
Lemma groupCache_setAll_found (groups : list IMvcGroup)
    (cache : gmap Z IMvcGroup) (g : IMvcGroup) :
  g ∈ groups →
  (∀ g', g' ∈ groups → g_group_id g' = g_group_id g → g' = g) →
  groupCache_setAll groups cache !! g_group_id g = Some g.
Proof.
  revert cache. induction groups as [|x groups IH]; intros cache Hin Hone.
  { by apply elem_of_nil in Hin. }
  change (groupCache_setAll (x :: groups) cache)
    with (groupCache_setAll groups (<[g_group_id x := x]> cache)).
  destruct (decide (g_group_id g ∈ g_group_id <$> groups)) as [Hlater|Hlast].
  - apply list_elem_of_fmap in Hlater as (g' & Heq & Hg').
    assert (g' = g) as -> by (apply Hone; [by right|done]).
    apply IH; [done|]. intros g' Hin' Hsame. apply Hone; [by right|done].
  - rewrite groupCache_setAll_other by done.
    apply elem_of_cons in Hin as [->|Hin].
    + apply lookup_insert_eq.
    + exfalso. apply Hlast. by apply list_elem_of_fmap_2.
Qed.

Lemma getGroupMapFromCache_run groupId s :
  getGroupMapFromCache groupId s =
  match groupCache s !! groupId with
  | Some group =>
      (let* expired := isCacheExpired cacheKeys_groups in
       if negb expired then ret (Some group)
       else (getGroupMapFromCache_update ;;
             gets (fun s => groupCache s !! groupId))) s
  | None => (getGroupMapFromCache_update ;;
             gets (fun s => groupCache s !! groupId)) s
  end.
Proof.
  unfold getGroupMapFromCache, bind at 1, gets.
  by destruct (groupCache s !! groupId).
Qed.

(** The lookup when the record is cached and the timer has not run out. *)
Lemma getGroupMapFromCache_cached groupId s group latest :
  groupCache s !! groupId = Some group →
  cacheTimeMap s !! cacheKeys_groups = Some latest →
  latest ≠ 0 →
  clock (env s) (ticks s) - latest < cacheTime s →
  getGroupMapFromCache groupId s = (Ok (Some group), set_ticks (S (ticks s)) s).
Proof.
  intros Hc Ht Hnz Hlt. rewrite getGroupMapFromCache_run, Hc.
  unfold bind. rewrite isCacheExpired_run, Ht.
  rewrite bool_decide_eq_true_2 by done.
  apply Z.ltb_lt in Hlt. by rewrite Hlt.
Qed.

(** The lookup either serves the cached record without reading the store,
    or it refreshes; when it refreshes and the store answers, it returns the
    entry of the refreshed map. *)
Lemma getGroupMapFromCache_cases groupId s :
  (∃ group, groupCache s !! groupId = Some group ∧
            outcome (isCacheExpired cacheKeys_groups) s = Ok false ∧
            getGroupMapFromCache groupId s =
              (Ok (Some group), after (isCacheExpired cacheKeys_groups) s)) ∨
  (∃ s1, env s1 = env s ∧ db_calls s1 = db_calls s ∧
         tbl_groups s1 = tbl_groups s ∧ groupCache s1 = groupCache s ∧
         (s1 = s ∨ s1 = after (isCacheExpired cacheKeys_groups) s) ∧
         getGroupMapFromCache groupId s =
           (getGroupMapFromCache_update ;;
            gets (fun s => groupCache s !! groupId)) s1).
Proof.
  rewrite getGroupMapFromCache_run.
  destruct (groupCache s !! groupId) as [group|] eqn:Hc.
  - destruct (isCacheExpired_frame cacheKeys_groups s)
      as (He & Hd & _ & Hg & _ & _ & Hgc & _ & _).
    destruct (outcome (isCacheExpired cacheKeys_groups) s) as [[|]|e] eqn:Hexp.
    + right. exists (after (isCacheExpired cacheKeys_groups) s).
      rewrite (bind_outcome_Ok _ _ _ _ Hexp). simpl. eauto 10.
    + left. exists group. rewrite (bind_outcome_Ok _ _ _ _ Hexp). simpl. eauto.
    + exfalso. revert Hexp. unfold outcome. rewrite isCacheExpired_run.
      destruct (cacheTimeMap s !! cacheKeys_groups) as [latest|]; [|done].
      by destruct (bool_decide (latest ≠ 0)).
  - right. exists s. eauto 10.
Qed.

(** A record that is in the map under an id the store no longer has is
    what the lookup returns, also when it refreshes. *)
Lemma getGroupMapFromCache_stale groupId s group :
  groupCache s !! groupId = Some group →
  groupId ∉ dg_group_id <$> tbl_groups s →
  db_fault (env s) (db_calls s) = false →
  outcome (getGroupMapFromCache groupId) s = Ok (Some group).
Proof.
  intros Hc Habsent Hok. unfold outcome.
  destruct (getGroupMapFromCache_cases groupId s)
    as [(g & Hg & _ & ->)|(s1 & He & Hd & Htbl & Hgc & _ & ->)].
  - simpl. congruence.
  - unfold bind. rewrite group_update_Ok by (by rewrite He, Hd). simpl.
    rewrite groupCache_setAll_other.
    + by rewrite Hgc, Hc.
    + by rewrite mvcGroup_ids, Htbl.
Qed.

(** An id that is neither in the map nor in the store is not found, and
    the store has been read once for it. *)
Lemma getGroupMapFromCache_unknown groupId s :
  groupCache s !! groupId = None →
  groupId ∉ dg_group_id <$> tbl_groups s →
  db_fault (env s) (db_calls s) = false →
  outcome (getGroupMapFromCache groupId) s = Ok None ∧
  db_calls (after (getGroupMapFromCache groupId) s) = S (db_calls s).
Proof.
  intros Hc Habsent Hok. unfold outcome, after.
  rewrite getGroupMapFromCache_run, Hc.
  unfold bind. rewrite group_update_Ok by done. simpl.
  rewrite groupCache_setAll_other by (by rewrite mvcGroup_ids).
  by rewrite Hc.
Qed.

(** C5. In the sample the group 555 is looked up, its row is deleted, and
    the cache time passes. The next lookup of 555 finds the timer run out and
    reads the store, which has no such group any more, and still returns the
    record read before the deletion: a refresh adds to [groupCache] and
    removes nothing from it. *)
Theorem deleted_group_still_found :
  let s1 := after (getGroupMapFromCache 555) sample_db in
  let s2 := after (deleteGroup 1) s1 in
  let s3 := set_ticks 10 s2 in
  outcome (getGroupMapFromCache 555) sample_db = Ok (Some sample_group) ∧
  outcome (deleteGroup 1) s1 = Ok 1 ∧
  tbl_groups s3 = [] ∧
  outcome (isCacheExpired cacheKeys_groups) s3 = Ok true ∧
  outcome (getGroupMapFromCache 555) s3 = Ok (Some sample_group) ∧
  db_calls (after (getGroupMapFromCache 555) s3) = S (db_calls s3).
Proof. vm_compute. repeat split; reflexivity. Qed.

(** ** The permission resolver *)

Lemma isGroupValid_run dayjs_valueOf groupId s group :
  outcome (getGroupMapFromCache groupId) s = Ok (Some group) →
  let s1 := after (getGroupMapFromCache groupId) s in
  outcome (isGroupValid dayjs_valueOf groupId) s =
  Ok (match dayjs_valueOf (g_expired_at group) with
      | Some expiredAt => clock (env s1) (ticks s1) <=? expiredAt
      | None => false
      end).
Proof.
  intros Hg s1. unfold outcome at 1, isGroupValid.
  rewrite (bind_outcome_Ok _ _ _ _ Hg). reflexivity.
Qed.

(** C8. [isGroupValid] answers false for an id that neither the cache nor
    the store knows. For a group that the lookup finds, with [now] the
    reading of the clock that follows the lookup, it answers true when [now]
    is before the instant [expired_at] denotes, false when [now] is past it,
    and false when [expired_at] denotes no instant. *)
Theorem isGroupValid_spec
    (dayjs_valueOf : string → option Z) (groupId : Z) (s : Database) :
  (groupCache s !! groupId = None →
   groupId ∉ dg_group_id <$> tbl_groups s →
   db_fault (env s) (db_calls s) = false →
   outcome (isGroupValid dayjs_valueOf groupId) s = Ok false) ∧
  (∀ group,
     outcome (getGroupMapFromCache groupId) s = Ok (Some group) →
     let s1 := after (getGroupMapFromCache groupId) s in
     let now := clock (env s1) (ticks s1) in
     (∀ expiredAt, dayjs_valueOf (g_expired_at group) = Some expiredAt →
        (now < expiredAt → outcome (isGroupValid dayjs_valueOf groupId) s = Ok true) ∧
        (expiredAt < now → outcome (isGroupValid dayjs_valueOf groupId) s = Ok false)) ∧
     (dayjs_valueOf (g_expired_at group) = None →
        outcome (isGroupValid dayjs_valueOf groupId) s = Ok false)).
Proof.
  split.
  - intros Hc Habsent Hok.
    destruct (getGroupMapFromCache_unknown groupId s Hc Habsent Hok) as [Hnone _].
    unfold outcome, isGroupValid. by rewrite (bind_outcome_Ok _ _ _ _ Hnone).
  - intros group Hg s1 now.
    pose proof (isGroupValid_run dayjs_valueOf groupId s group Hg) as Hrun.
    simpl in Hrun. fold s1 in Hrun. fold now in Hrun. rewrite Hrun. split.
    + intros expiredAt ->. split; intros Hcmp; f_equal.
      * apply Z.leb_le. lia.
      * apply Z.leb_gt. lia.
    + by intros ->.
Qed.

Lemma getAvailablePlugins_run groupId userId s group pluginsList :
  outcome (getGroupMapFromCache groupId) s = Ok (Some group) →
  let s1 := after (getGroupMapFromCache groupId) s in
  outcome getPluginListFromCache s1 = Ok pluginsList →
  let s2 := after getPluginListFromCache s1 in
  getAvailablePlugins groupId userId s =
  match truthy userId with
  | Some u =>
      let ids := foldl (applyUserOverrides u) (g_plugins group) pluginsList in
      (Ok (pluginNames (pluginMap_of pluginsList) ids),
       set_groupCache (<[groupId := set_g_plugins ids group]> (groupCache s2)) s2)
  | None => (Ok (pluginNames (pluginMap_of pluginsList) (g_plugins group)), s2)
  end.
Proof.
  intros Hg s1 Hp s2. unfold getAvailablePlugins.
  rewrite (bind_outcome_Ok _ _ _ _ Hg). fold s1.
  rewrite (bind_outcome_Ok _ _ _ _ Hp). fold s2.
  by destruct (truthy userId).
Qed.

Lemma getGroupMapFromCache_fresh groupId s group :
  groupCache s !! groupId = Some group →
  outcome (isCacheExpired cacheKeys_groups) s = Ok false →
  getGroupMapFromCache groupId s =
  (Ok (Some group), after (isCacheExpired cacheKeys_groups) s).
Proof.
  intros Hc Hexp. rewrite getGroupMapFromCache_run, Hc.
  by rewrite (bind_outcome_Ok _ _ _ _ Hexp).
Qed.


(** The lookup when a refresh is due. *)
Lemma getGroupMapFromCache_due groupId s :
  groupCache s !! groupId = None ∨
  outcome (isCacheExpired cacheKeys_groups) s = Ok true →
  ∃ s1, env s1 = env s ∧ db_calls s1 = db_calls s ∧
        tbl_groups s1 = tbl_groups s ∧ groupCache s1 = groupCache s ∧
        cacheTimeMap s1 = cacheTimeMap s ∧
        getGroupMapFromCache groupId s =
          (getGroupMapFromCache_update ;;
           gets (fun s => groupCache s !! groupId)) s1.
Proof.
  intros Hdue.
  destruct (getGroupMapFromCache_cases groupId s)
    as [(g & Hg & Hexp & _)|(s1 & He & Hd & Ht & Hgc & Hs1 & Hrun)].
  - destruct Hdue as [Hnone|Htrue]; congruence.
  - exists s1. repeat split; try done.
    destruct Hs1 as [->| ->]; [done|].
    by destruct (isCacheExpired_frame cacheKeys_groups s)
      as (_ & _ & _ & _ & _ & _ & _ & _ & ?).
Qed.






(** C2. With a user id that is not 0, [getAvailablePlugins] leaves in
    [groupCache], under the id of the group, the record of the group with
    its plugins replaced by the ids that the pushes and splices produced.
    A later lookup that finds the timer of the groups not run out returns
    that record, and a later call without a user id computes its names from
    those ids. *)
Theorem user_overrides_alias_cache
    (s : Database) (groupId userId : Z) (group : IMvcGroup)
    (pluginsList : list IMvcPlugin) :
  userId ≠ 0 →
  outcome (getGroupMapFromCache groupId) s = Ok (Some group) →
  outcome getPluginListFromCache (after (getGroupMapFromCache groupId) s)
    = Ok pluginsList →
  let ids := foldl (applyUserOverrides userId) (g_plugins group) pluginsList in
  let s' := after (getAvailablePlugins groupId (Some userId)) s in
  outcome (getAvailablePlugins groupId (Some userId)) s
    = Ok (pluginNames (pluginMap_of pluginsList) ids) ∧
  groupCache s' !! groupId = Some (set_g_plugins ids group) ∧
  (∀ s2,
     groupCache s2 !! groupId = groupCache s' !! groupId →
     outcome (isCacheExpired cacheKeys_groups) s2 = Ok false →
     outcome (getGroupMapFromCache groupId) s2
       = Ok (Some (set_g_plugins ids group)) ∧
     ∀ pluginsList2,
       outcome getPluginListFromCache (after (getGroupMapFromCache groupId) s2)
         = Ok pluginsList2 →
       outcome (getAvailablePlugins groupId None) s2
         = Ok (pluginNames (pluginMap_of pluginsList2) ids)).
Proof.
  intros Hnz Hg Hp ids s'.
  assert (outcome (getAvailablePlugins groupId (Some userId)) s
            = Ok (pluginNames (pluginMap_of pluginsList) ids) ∧
          groupCache s' !! groupId = Some (set_g_plugins ids group))
    as [Hout Hcache].
  { subst s'. unfold outcome at 1, after at 1.
    rewrite (getAvailablePlugins_run groupId _ s group pluginsList Hg Hp).
    simpl. rewrite bool_decide_eq_false_2 by done. simpl.
    split; [done|]. apply lookup_insert_eq. }
  split; [done|]. split; [done|].
  intros s2 Hsame Hexp. rewrite Hcache in Hsame.
  pose proof (getGroupMapFromCache_fresh groupId s2 _ Hsame Hexp) as Hrun.
  assert (outcome (getGroupMapFromCache groupId) s2
            = Ok (Some (set_g_plugins ids group))) as Hg2
    by (unfold outcome; by rewrite Hrun).
  split; [done|].
  intros pluginsList2 Hp2. unfold outcome at 1.
  by rewrite (getAvailablePlugins_run groupId _ s2 _ pluginsList2 Hg2 Hp2).
Qed.

(** ** Internal plugins in the grants of a group *)

Lemma elem_of_uniq_from (seen l : list Z) (x : Z) :
  x ∈ uniq_from seen l ↔ x ∈ seen ∨ x ∈ l.
Proof.
  revert seen. induction l as [|y l IH]; intros seen; simpl.
  - rewrite elem_of_nil. tauto.
  - rewrite IH, elem_of_cons. destruct (includes seen y) eqn:Hinc.
    + apply includes_true in Hinc. split; [tauto|].
      intros [?|[->|?]]; tauto.
    + unfold push. rewrite elem_of_app, list_elem_of_singleton. tauto.
Qed.

Lemma elem_of_uniq (l : list Z) (x : Z) : x ∈ uniq l ↔ x ∈ l.
Proof. unfold uniq. rewrite elem_of_uniq_from, elem_of_nil. tauto. Qed.

Lemma getInternalPluginIds_Ok s :
  db_fault (env s) (db_calls s) = false →
  getInternalPluginIds s =
  (Ok (p_id <$> filter (λ p, p_internal p = true) (activePlugins s)),
   set_db_calls (S (db_calls s)) s).
Proof.
  intros Hok. unfold getInternalPluginIds.
  by rewrite (bind_Ok _ _ _ _ _ (getPlugins_Ok s Hok)).
Qed.

Lemma getInternalPluginIds_Throw s :
  db_fault (env s) (db_calls s) = true →
  getInternalPluginIds s = (Throw StoreError, set_db_calls (S (db_calls s)) s).
Proof.
  intros Hko. unfold getInternalPluginIds.
  by rewrite (bind_Throw _ _ _ _ _ (getPlugins_Throw s Hko)).
Qed.

(** The internal plugins that [getInternalPluginIds] reports are those of
    the rows with [internal] set whose name is registered. *)
Lemma internal_registered_ids_reported s id :
  id ∈ internal_registered_ids s →
  id ∈ p_id <$> filter (λ p, p_internal p = true) (activePlugins s).
Proof.
  unfold internal_registered_ids, activePlugins.
  intros (r & -> & [[Hint Hreg] Hr]%list_elem_of_filter)%list_elem_of_fmap.
  apply list_elem_of_fmap. exists (mvcPlugin r). split; [done|].
  apply list_elem_of_filter. split; [done|].
  apply list_elem_of_filter. split.
  - by apply includes_true.
  - by apply list_elem_of_fmap_2.
Qed.

Lemma addGroup_run group s :
  addGroup group s =
  if db_fault (env s) (db_calls s)
  then (Throw StoreError, set_db_calls (S (db_calls s)) s)
  else if db_fault (env s) (S (db_calls s))
  then (Throw StoreError, set_db_calls (S (S (db_calls s))) s)
  else if includes (dg_id <$> tbl_groups s) (dg_id (new_group_row s group))
          || includes (dg_group_id <$> tbl_groups s) (g_group_id group)
  then (Throw StoreError, set_db_calls (S (S (db_calls s))) s)
  else (Ok [dg_id (new_group_row s group)],
        set_seq_groups (Z.max (seq_groups s) (dg_id (new_group_row s group)))
          (set_tbl_groups (place_group (new_group_row s group) (tbl_groups s))
             (set_db_calls (S (S (db_calls s))) s))).
Proof.
  unfold addGroup.
  destruct (db_fault (env s) (db_calls s)) eqn:Hf1.
  { by rewrite (bind_Throw _ _ _ _ _ (getInternalPluginIds_Throw s Hf1)). }
  rewrite (bind_Ok _ _ _ _ _ (getInternalPluginIds_Ok s Hf1)).
  unfold insert_group, bind, db_access, gets, throw, modify, ret. simpl.
  destruct (db_fault (env s) (S (db_calls s))); [done|]. simpl.
  by destruct (includes (dg_id <$> tbl_groups s) _
               || includes (dg_group_id <$> tbl_groups s) _).
Qed.

(** The rows of the groups after an insertion. *)
Lemma place_group_elem (row r : IDataGroup) (rows : list IDataGroup) :
  r ∈ place_group row rows ↔ r = row ∨ r ∈ rows.
Proof.
  induction rows as [|x rows IH]; simpl.
  - rewrite list_elem_of_singleton, elem_of_nil. tauto.
  - destruct (dg_id row <? dg_id x).
    + by rewrite elem_of_cons.
    + rewrite !elem_of_cons, IH. tauto.
Qed.

Lemma place_group_last (row : IDataGroup) (rows : list IDataGroup) :
  (∀ r, r ∈ rows → dg_id r < dg_id row) → place_group row rows = rows ++ [row].
Proof.
  induction rows as [|x rows IH]; intros Hall; simpl; [done|].
  assert ((dg_id row <? dg_id x) = false) as ->.
  { apply Z.ltb_ge. assert (dg_id x < dg_id row) by (apply Hall; left). lia. }
  f_equal. apply IH. intros r Hr. apply Hall. by right.
Qed.

Lemma place_group_filter (P : IDataGroup → Prop) `{∀ r, Decision (P r)}
    (row : IDataGroup) (rows : list IDataGroup) :
  ¬ P row → filter P (place_group row rows) = filter P rows.
Proof.
  intros Hrow. induction rows as [|x rows IH]; simpl.
  - by rewrite filter_cons, decide_False.
  - destruct (dg_id row <? dg_id x).
    + by rewrite (filter_cons _ row), decide_False.
    + by rewrite !(filter_cons _ x), IH.
Qed.

Lemma next_id_above (ids : list Z) (x : Z) : x ∈ ids → x < next_id ids.
Proof.
  unfold next_id. induction ids as [|y ids IH]; intros Hx; simpl.
  - by apply elem_of_nil in Hx.
  - apply elem_of_cons in Hx as [->|Hx]; [lia|]. specialize (IH Hx). lia.
Qed.

Lemma updateGroup_run group plugins s :
  pg_plugins group = Some plugins →
  updateGroup group s =
  if db_fault (env s) (db_calls s)
  then (Throw StoreError, set_db_calls (S (db_calls s)) s)
  else match head (filter (λ r, dg_id r = pg_id group) (tbl_groups s)) with
       | None => (Ok None, set_db_calls (S (db_calls s)) s)
       | Some _ =>
           if db_fault (env s) (S (db_calls s))
           then (Throw StoreError, set_db_calls (S (S (db_calls s))) s)
           else if db_fault (env s) (S (S (db_calls s)))
           then (Throw StoreError, set_db_calls (S (S (S (db_calls s)))) s)
           else if bool_decide
                     (NoDup (dg_group_id <$> updated_group_rows s group plugins))
           then (Ok (Some (Z.of_nat (length (filter (λ r, dg_id r = pg_id group)
                                                    (tbl_groups s))))),
                 set_tbl_groups (updated_group_rows s group plugins)
                   (set_db_calls (S (S (S (db_calls s)))) s))
           else (Throw StoreError, set_db_calls (S (S (S (db_calls s)))) s)
       end.
Proof.
  intros Hpl. unfold updateGroup, first_group_by_id. rewrite Hpl.
  unfold bind at 1. unfold bind at 1. unfold db_access.
  destruct (db_fault (env s) (db_calls s)); [done|]. simpl.
  destruct (head (filter (λ r, dg_id r = pg_id group) (tbl_groups s)));
    [|done].
  unfold bind at 1. unfold bind at 1.
  destruct (db_fault (env s) (S (db_calls s))) eqn:Hf2.
  { rewrite getInternalPluginIds_Throw by done. done. }
  rewrite getInternalPluginIds_Ok by done. simpl.
  unfold update_group_where_id, bind, db_access, gets, throw, modify, ret.
  simpl. destruct (db_fault (env s) (S (S (db_calls s)))); [done|]. simpl.
  unfold updated_group_rows, activePlugins. simpl.
  case_bool_decide; reflexivity.
Qed.

Lemma next_id_fresh (ids : list Z) : next_id ids ∉ ids.
Proof.
  assert (∀ x, x ∈ ids → x ≤ foldr Z.max 0 ids) as Hmax.
  { induction ids as [|y ids IH]; intros x Hx; simpl.
    - by apply elem_of_nil in Hx.
    - apply elem_of_cons in Hx as [->|Hx]; [lia|]. specialize (IH x Hx). lia. }
  intros Hin. apply Hmax in Hin. unfold next_id in Hin. lia.
Qed.

(** C3, as stated, fails in the sample: the row of the plugin 4 has
    [internal] set, its name is not registered in this run, and the group
    that [addGroup] writes is granted the plugins 1 and 2 only. *)
Lemma unregistered_internal_plugin_not_forced :
  let s' := after (addGroup sample_new_group) sample_db in
  outcome (addGroup sample_new_group) sample_db = Ok [2] ∧
  ¬ grants_include (internal_row_ids s') s' (λ row, dg_group_id row = 777).
Proof.
  split; [reflexivity|].
  intros Hall.
  specialize (Hall (new_group_row sample_db sample_new_group)).
  assert (4 ∈ [1; 2]) as Hin.
  { apply (Hall ltac:(vm_compute; repeat constructor) eq_refl 4).
    vm_compute. repeat constructor. }
  apply list_elem_of_In in Hin. simpl in Hin. intuition discriminate.
Qed.

(** C3, amended. After [addGroup], and after an [updateGroup] whose fields
    include [plugins], the plugins written for the group include the id of
    every plugin row that has [internal] set and a name registered in this
    run. Both calls succeed when the store answers and no key is repeated;
    [addGroup] then returns the id of the row it has written. *)
Theorem internal_plugins_forced (s : Database) :
  (∀ group res,
     outcome (addGroup group) s = Ok res →
     let s' := after (addGroup group) s in
     grants_include (internal_registered_ids s') s'
                    (λ row, dg_group_id row = g_group_id group)) ∧
  (∀ group plugins res,
     pg_plugins group = Some plugins →
     outcome (updateGroup group) s = Ok res →
     let s' := after (updateGroup group) s in
     grants_include (internal_registered_ids s') s'
                    (λ row, dg_id row = pg_id group)) ∧
  (∀ group,
     never_faults s →
     g_id group = None →
     g_group_id group ∉ dg_group_id <$> tbl_groups s →
     outcome (addGroup group) s = Ok [dg_id (new_group_row s group)] ∧
     new_group_row s group ∈ tbl_groups (after (addGroup group) s)) ∧
  (∀ group plugins row,
     never_faults s →
     pg_plugins group = Some plugins →
     pg_group_id group = None →
     NoDup (dg_group_id <$> tbl_groups s) →
     row ∈ tbl_groups s → dg_id row = pg_id group →
     (∃ n, outcome (updateGroup group) s = Ok (Some n)) ∧
     ∃ row', row' ∈ tbl_groups (after (updateGroup group) s) ∧
             dg_id row' = pg_id group).
Proof.
  assert (∀ l id, id ∈ internal_registered_ids s →
                  id ∈ toArrayNumber (join (uniq
                    ((p_id <$> filter (λ p, p_internal p = true) (activePlugins s))
                     ++ l)))) as Hforced.
  { intros l id Hid. rewrite toArrayNumber_join, elem_of_uniq, elem_of_app.
    left. by apply internal_registered_ids_reported. }
  split; [|split; [|split]].
  - intros group res. unfold outcome, after. rewrite addGroup_run.
    destruct (db_fault (env s) (db_calls s)); [done|].
    destruct (db_fault (env s) (S (db_calls s))); [done|].
    destruct (includes (dg_id <$> tbl_groups s) _
              || includes (dg_group_id <$> tbl_groups s) _) eqn:Hkeys; [done|].
    apply orb_false_iff in Hkeys as [_ Hgid]. apply includes_false in Hgid.
    intros _ row Hrow Hsel id Hid. simpl in Hrow.
    change (id ∈ internal_registered_ids s) in Hid.
    apply place_group_elem in Hrow as [->|Hrow].
    + apply Hforced, Hid.
    + exfalso. apply Hgid. rewrite <- Hsel. by apply list_elem_of_fmap_2.
  - intros group plugins res Hpl. unfold outcome, after.
    rewrite (updateGroup_run group plugins s Hpl).
    destruct (db_fault (env s) (db_calls s)); [done|].
    destruct (head (filter (λ r, dg_id r = pg_id group) (tbl_groups s)))
      as [r0|] eqn:Hhd.
    + destruct (db_fault (env s) (S (db_calls s))); [done|].
      destruct (db_fault (env s) (S (S (db_calls s)))); [done|].
      case_bool_decide; [|done].
      intros _ row Hrow Hsel id Hid. simpl in Hrow.
      change (id ∈ internal_registered_ids s) in Hid.
      unfold updated_group_rows in Hrow.
      apply list_elem_of_fmap in Hrow as (r & -> & Hr).
      case_bool_decide as Hrid; [apply Hforced, Hid|done].
    + intros _ row Hrow Hsel id Hid. simpl in Hrow.
      pose proof (proj1 (head_filter_None _ _) Hhd) as Hnone.
      exfalso. by eapply Hnone.
  - intros group Hok Hid Hgid. unfold outcome, after. rewrite addGroup_run.
    rewrite !Hok.
    assert (includes (dg_id <$> tbl_groups s) (dg_id (new_group_row s group))
            = false) as ->.
    { apply includes_false. simpl. rewrite Hid. simpl. intros Hin.
      apply (next_id_fresh (seq_groups s :: (dg_id <$> tbl_groups s))).
      by right. }
    apply includes_false in Hgid. rewrite Hgid. simpl. split; [done|].
    apply place_group_elem. by left.
  - intros group plugins row Hok Hpl Hgid Hnd Hrow Hid. unfold outcome, after.
    rewrite (updateGroup_run group plugins s Hpl). rewrite !Hok.
    destruct (head (filter (λ r, dg_id r = pg_id group) (tbl_groups s)))
      as [r0|] eqn:Hhd.
    + assert (dg_group_id <$> updated_group_rows s group plugins
              = dg_group_id <$> tbl_groups s) as Hsame.
      { unfold updated_group_rows. rewrite <- list_fmap_compose.
        apply list_fmap_ext. intros i r _. simpl.
        case_bool_decide; [|done]. simpl. by rewrite Hgid. }
      rewrite Hsame, bool_decide_eq_true_2 by done. simpl.
      split; [eauto|].
      eexists. split.
      * unfold updated_group_rows. apply list_elem_of_fmap_2, Hrow.
      * by rewrite bool_decide_eq_true_2.
    + pose proof (proj1 (head_filter_None _ _) Hhd) as Hnone.
      exfalso. by eapply Hnone.
Qed.

(** ** The statements at work on the sample *)

(** The black list of the plugin 2 of the sample, and the largest safe
    integer. *)
Lemma serialize_then_parse_witness :
  Forall safe_integer [7; 42; -9007199254740991] ∧
  join [7; 42; -9007199254740991] = "7,42,-9007199254740991" ∧
  toArrayNumber "7,42,-9007199254740991" = [7; 42; -9007199254740991] ∧
  p_black_list_users (mvcPlugin sample_dice) = [7; 42].
Proof.
  assert (Forall safe_integer [7; 42; -9007199254740991]) as Hsafe
    by (repeat constructor).
  assert (Forall safe_integer [7; 42]) as Hsafe' by (repeat constructor).
  destruct serialize_then_parse as (Hjoin & _ & _ & Hblack & _).
  destruct (Hjoin _ Hsafe) as [Hwritten Hread].
  split; [exact Hsafe|]. split; [exact Hwritten|].
  split; [exact Hread|]. exact (Hblack sample_dice [7; 42] Hsafe').
Defined.




(** In the sample, the call for user 42 leaves the ids 1 and 3 in the cached
    record, and the next call without a user answers from them. *)
Lemma user_overrides_alias_cache_witness :
  let s' := after (getAvailablePlugins 555 (Some 42)) sample_db in
  (42 ≠ 0 ∧
   outcome (getGroupMapFromCache 555) sample_db = Ok (Some sample_group) ∧
   outcome getPluginListFromCache (after (getGroupMapFromCache 555) sample_db)
     = Ok sample_catalog ∧
   outcome (isCacheExpired cacheKeys_groups) s' = Ok false ∧
   outcome getPluginListFromCache (after (getGroupMapFromCache 555) s')
     = Ok sample_catalog) ∧
  groupCache s' !! 555 = Some (set_g_plugins [1; 3] sample_group) ∧
  outcome (getGroupMapFromCache 555) s'
    = Ok (Some (set_g_plugins [1; 3] sample_group)) ∧
  outcome (getAvailablePlugins 555 None) s' = Ok ["ping"; "quote"].
Proof.
  intros s'.
  assert (42 ≠ 0) as Hnz by discriminate.
  assert (outcome (getGroupMapFromCache 555) sample_db = Ok (Some sample_group))
    as Hg by reflexivity.
  assert (outcome getPluginListFromCache
            (after (getGroupMapFromCache 555) sample_db) = Ok sample_catalog)
    as Hp by reflexivity.
  assert (outcome (isCacheExpired cacheKeys_groups) s' = Ok false)
    as Hexp by reflexivity.
  assert (outcome getPluginListFromCache (after (getGroupMapFromCache 555) s')
            = Ok sample_catalog) as Hp2 by reflexivity.
  split; [repeat split; assumption|].
  destruct (user_overrides_alias_cache sample_db 555 42 sample_group
              sample_catalog Hnz Hg Hp) as (_ & Hcache & Hlater).
  destruct (Hlater s' eq_refl Hexp) as [Hg2 Hnames].
  split; [exact Hcache|]. split; [exact Hg2|].
  exact (Hnames sample_catalog Hp2).
Defined.

(** In the sample the internal plugin 1 is registered: it is added to the
    plugins of a new group and of an updated one. *)
Lemma internal_plugins_forced_witness :
  let s1 := after (addGroup sample_new_group) sample_db in
  let s2 := after (updateGroup sample_group_update) sample_db in
  (outcome (addGroup sample_new_group) sample_db = Ok [2] ∧
   pg_plugins sample_group_update = Some [3] ∧
   outcome (updateGroup sample_group_update) sample_db = Ok (Some 1)) ∧
  internal_registered_ids sample_db = [1] ∧
  grants_include [1] s1 (λ row, dg_group_id row = 777) ∧
  grants_include [1] s2 (λ row, dg_id row = 1) ∧
  dg_plugins <$> tbl_groups s1 = ["1,2"; "1,2"] ∧
  dg_plugins <$> tbl_groups s2 = ["1,3"].
Proof.
  intros s1 s2.
  assert (outcome (addGroup sample_new_group) sample_db = Ok [2])
    as Hadd by reflexivity.
  assert (pg_plugins sample_group_update = Some [3]) as Hpl by reflexivity.
  assert (outcome (updateGroup sample_group_update) sample_db = Ok (Some 1))
    as Hupd by reflexivity.
  split; [repeat split; assumption|].
  destruct (internal_plugins_forced sample_db) as (Hforced1 & Hforced2 & _).
  split; [reflexivity|].
  split; [exact (Hforced1 sample_new_group [2] Hadd)|].
  split; [exact (Hforced2 sample_group_update [3] (Some 1) Hpl Hupd)|].
  split; reflexivity.
Defined.

(** A rejected refresh, followed by a call that reads an earlier time. *)
Lemma refresh_failure_keeps_snapshot_witness :
  let s := after getPluginListFromCache faulty_db in
  let s' := after getPluginListFromCache s in
  (db_fault (env s) (db_calls s) = true ∧
   outcome (isCacheExpired cacheKeys_plugins) s = Ok true ∧
   pluginCache s = Some sample_catalog ∧
   cacheTimeMap s !! cacheKeys_plugins = Some 1000 ∧
   clock (env s') (ticks s') - 1000 < cacheTime s') ∧
  outcome getPluginListFromCache s = Throw StoreError ∧
  pluginCache s' = Some sample_catalog ∧
  cacheTimeMap s' = cacheTimeMap s ∧
  outcome getPluginListFromCache s' = Ok sample_catalog.
Proof.
  intros s s'.
  assert (db_fault (env s) (db_calls s) = true) as Hf by reflexivity.
  assert (outcome (isCacheExpired cacheKeys_plugins) s = Ok true)
    as Hexp by reflexivity.
  assert (pluginCache s = Some sample_catalog) as Hc by reflexivity.
  assert (cacheTimeMap s !! cacheKeys_plugins = Some 1000) as Ht by reflexivity.
  assert (clock (env s') (ticks s') - 1000 < cacheTime s') as Hlt by reflexivity.
  split; [repeat split; assumption|].
  destruct (refresh_failure_keeps_snapshot s Hf (or_intror Hexp))
    as (Hout & Hc' & Ht' & Hlater).
  split; [exact Hout|]. split; [exact (eq_trans Hc' Hc)|]. split; [exact Ht'|].
  apply (Hlater sample_catalog 1000 s' Hc Ht); try reflexivity. discriminate.
Defined.

(** A name registered twice in the sample, as external and then not. *)
Lemma registerPlugin_idempotent_witness :
  let s1 := after (registerPlugin sample_opts true) sample_db in
  let s2 := after (registerPlugin sample_opts false) s1 in
  (never_faults sample_db ∧
   NoDup (dp_name <$> tbl_plugins sample_db) ∧
   NoDup (registeredPlugins sample_db)) ∧
  length (filter (λ r, dp_name r = "weather") (tbl_plugins s2)) = 1%nat ∧
  length (filter (λ n, n = "weather") (registeredPlugins s2)) = 1%nat ∧
  tbl_plugins s2 = tbl_plugins s1.
Proof.
  intros s1 s2.
  assert (never_faults sample_db) as Hok by (intros n; reflexivity).
  assert (NoDup (dp_name <$> tbl_plugins sample_db)) as Hnames
    by (apply (bool_decide_unpack _); reflexivity).
  assert (NoDup (registeredPlugins sample_db)) as Hreg
    by (apply (bool_decide_unpack _); reflexivity).
  split; [repeat split; assumption|].
  destruct (registerPlugin_idempotent sample_opts sample_opts true false
              sample_db Hok Hnames Hreg eq_refl)
    as (_ & _ & Hrow & Hname & Hsame & _).
  split; [exact Hrow|]. split; [exact Hname|]. exact Hsame.
Defined.

(** An external and an internal registration, then the clearing. *)
Lemma clearExternalPlugins_spec_witness :
  let s1 := after (registerAll sample_batch) sample_db in
  let s2 := after clearExternalPlugins s1 in
  never_faults sample_db ∧
  registeredExternalPlugins s1 = ["weather"] ∧
  registeredExternalPlugins s2 = [] ∧
  registeredPlugins s2 = ["ping"; "dice"; "quote"; "help"] ∧
  "help" ∈ registeredPlugins s2.
Proof.
  intros s1 s2.
  assert (never_faults sample_db) as Hok by (intros n; reflexivity).
  split; [exact Hok|].
  destruct (clearExternalPlugins_spec sample_batch sample_db Hok)
    as (_ & _ & Hext & _ & _ & _ & Hkept).
  split; [reflexivity|]. split; [exact Hext|]. split; [reflexivity|].
  apply Hkept.
  - apply includes_true. reflexivity.
  - apply includes_false. reflexivity.
  - apply includes_false. reflexivity.
Defined.

(** An unknown group, a group valid until 2030, and a date that is none. *)
Lemma isGroupValid_spec_witness :
  (groupCache sample_db !! 556 = None ∧
   (556 ∉ dg_group_id <$> tbl_groups sample_db) ∧
   db_fault (env sample_db) (db_calls sample_db) = false ∧
   outcome (getGroupMapFromCache 555) sample_db = Ok (Some sample_group) ∧
   sample_dayjs (g_expired_at sample_group) = Some 1893456000000 ∧
   clock (env sample_db) 1 < 1893456000000) ∧
  outcome (isGroupValid sample_dayjs 556) sample_db = Ok false ∧
  outcome (isGroupValid sample_dayjs 555) sample_db = Ok true ∧
  outcome (isGroupValid (λ _, None) 555) sample_db = Ok false.
Proof.
  assert (groupCache sample_db !! 556 = None) as Hc by reflexivity.
  assert (556 ∉ dg_group_id <$> tbl_groups sample_db) as Habsent
    by (apply includes_false; reflexivity).
  assert (db_fault (env sample_db) (db_calls sample_db) = false)
    as Hok by reflexivity.
  assert (outcome (getGroupMapFromCache 555) sample_db = Ok (Some sample_group))
    as Hg by reflexivity.
  assert (sample_dayjs (g_expired_at sample_group) = Some 1893456000000)
    as Hdate by reflexivity.
  assert (clock (env sample_db) 1 < 1893456000000) as Hlt by reflexivity.
  split; [repeat split; assumption|].
  split; [exact (proj1 (isGroupValid_spec sample_dayjs 556 sample_db) Hc Habsent Hok)|].
  split.
  - destruct (proj2 (isGroupValid_spec sample_dayjs 555 sample_db) sample_group Hg)
      as [Hdated _].
    exact (proj1 (Hdated 1893456000000 Hdate) Hlt).
  - destruct (proj2 (isGroupValid_spec (λ _, None) 555 sample_db) sample_group Hg)
      as [_ Hnan].
    exact (Hnan eq_refl).
Defined.

(** Three calls of the getter in the sample: a first one, one 100 ms later,
    and one after the cache time has passed. *)
Lemma cache_freshness_witness :
  let s1 := after getPluginListFromCache sample_db in
  let s2 := after getPluginListFromCache s1 in
  let late := set_ticks 9 s2 in
  let s3 := after getPluginListFromCache late in
  (outcome getPluginListFromCache sample_db = Ok sample_catalog ∧
   cacheTimeMap s1 !! cacheKeys_plugins = Some 1000 ∧
   clock (env s1) (ticks s1) - 1000 < cacheTime s1 ∧
   pluginCache late = Some sample_catalog ∧
   cacheTime late ≤ clock (env late) (ticks late) - 1000 ∧
   db_fault (env late) (db_calls late) = false) ∧
  outcome (isCacheExpired cacheKeys_plugins) sample_db = Ok true ∧
  outcome (isCacheExpired cacheKeys_plugins) s1 = Ok false ∧
  outcome (isCacheExpired cacheKeys_plugins) late = Ok true ∧
  outcome getPluginListFromCache s1 = Ok sample_catalog ∧
  db_calls s2 = db_calls s1 ∧
  outcome getPluginListFromCache late = Ok sample_catalog ∧
  db_calls s3 = S (db_calls late) ∧
  cacheTimeMap s3 !! cacheKeys_plugins = Some 2000.
Proof.
  intros s1 s2 late s3.
  assert (outcome getPluginListFromCache sample_db = Ok sample_catalog)
    as Hout by reflexivity.
  assert (cacheTimeMap s1 !! cacheKeys_plugins = Some 1000) as Ht1 by reflexivity.
  assert (clock (env s1) (ticks s1) - 1000 < cacheTime s1) as Hlt by reflexivity.
  assert (pluginCache late = Some sample_catalog) as Hc by reflexivity.
  assert (cacheTimeMap late !! cacheKeys_plugins = Some 1000) as Ht by reflexivity.
  assert (cacheTime late ≤ clock (env late) (ticks late) - 1000)
    as Hge by discriminate.
  assert (db_fault (env late) (db_calls late) = false) as Hok by reflexivity.
  assert (1000 ≠ 0) as Hnz by discriminate.
  split; [repeat split; assumption|].
  destruct (cache_freshness sample_db) as (Hexp0 & Hwithin & _).
  destruct (cache_freshness s1) as (Hexp1 & _ & _).
  destruct (cache_freshness late) as (Hexp2 & _ & Hdue).
  split.
  { apply (Hexp0 cacheKeys_plugins); [discriminate|]. by left. }
  split.
  { destruct (Hexp1 cacheKeys_plugins) as [[Htrue|Hfalse] Hiff];
      [by rewrite Ht1| |exact Hfalse].
    exfalso. apply Hiff in Htrue as [Hnone|(latest & Hsome & Hpast)].
    - by rewrite Ht1 in Hnone.
    - rewrite Ht1 in Hsome. injection Hsome as <-. apply Hpast. reflexivity. }
  split.
  { apply (Hexp2 cacheKeys_plugins); [by rewrite Ht|]. right. eauto. }
  destruct (Hwithin sample_catalog 1000 Hout Ht1 Hnz Hlt) as (Hsame & Hcalls & _).
  split; [exact Hsame|]. split; [exact Hcalls|].
  destruct (Hdue sample_catalog 1000 Hc Ht Hnz Hge Hok) as (Hnew & Hcalls' & _ & Hstamp).
  split; [exact Hnew|]. split; [exact Hcalls'|]. exact Hstamp.
Defined.

(** * Further properties *)

(** ** What a method leaves alone *)

Lemma after_bind {A B} (m : M A) (k : A → M B) s :
  after (bind m k) s =
  match outcome m s with
  | Ok a => after (k a) (after m s)
  | Throw _ => after m s
  end.
Proof.
  unfold after, outcome, bind. destruct (m s) as [[a|e] s']; done.
Qed.

Lemma outcome_bind {A B} (m : M A) (k : A → M B) s :
  outcome (bind m k) s =
  match outcome m s with
  | Ok a => outcome (k a) (after m s)
  | Throw e => Throw e
  end.
Proof.
  unfold after, outcome, bind. destruct (m s) as [[a|e] s']; done.
Qed.

Lemma preserves_bind {A B C} (f : Database → C) (m : M A) (k : A → M B) :
  preserves f m → (∀ a, preserves f (k a)) → preserves f (bind m k).
Proof.
  intros Hm Hk s. rewrite after_bind.
  destruct (outcome m s); [rewrite Hk|]; apply Hm.
Qed.

Lemma preserves_ret {A C} (f : Database → C) (a : A) : preserves f (ret a).
Proof. by intros s. Qed.

Lemma preserves_throw {A C} (f : Database → C) e : preserves f (@throw A e).
Proof. by intros s. Qed.

Lemma preserves_gets {A C} (f : Database → C) (g : Database → A) :
  preserves f (gets g).
Proof. by intros s. Qed.

Lemma preserves_modify {C} (f : Database → C) (g : Database → Database) :
  (∀ s, f (g s) = f s) → preserves f (modify g).
Proof. intros Hg s. apply Hg. Qed.

Lemma preserves_db_access {C} (f : Database → C) :
  (∀ n s, f (set_db_calls n s) = f s) → preserves f db_access.
Proof.
  intros Hf s. unfold after, db_access.
  destruct (db_fault (env s) (db_calls s)); apply Hf.
Qed.

Lemma preserves_when {C} (f : Database → C) (b : bool) (m : M unit) :
  preserves f m → preserves f (when b m).
Proof. destruct b; [done|]. intros _. apply preserves_ret. Qed.

(** The steps every proof of this kind repeats. *)
Ltac preserves_step :=
  first
    [ apply preserves_bind; [|intros ?]
    | apply preserves_ret
    | apply preserves_throw
    | apply preserves_gets
    | apply preserves_when
    | apply preserves_db_access; intros; reflexivity
    | apply preserves_modify; intros; reflexivity
    | match goal with
      | |- preserves _ (match ?x with _ => _ end) => destruct x
      | |- preserves _ (if ?b then _ else _) => destruct b
      end ].

Ltac preserves_tac := repeat preserves_step.

(** The store does not see the caches: no read or write of a table touches
    them or reads the clock. *)
Lemma getPlugins_caches : preserves caches getPlugins.
Proof. unfold getPlugins, select_plugins. preserves_tac. Qed.

Lemma getGroups_caches : preserves caches getGroups.
Proof. unfold getGroups, select_groups. preserves_tac. Qed.

Lemma registerPlugin_caches opts external :
  preserves caches (registerPlugin opts external).
Proof.
  unfold registerPlugin, first_plugin_by_name, insert_plugin. preserves_tac.
Qed.

Lemma clearExternalPlugins_caches : preserves caches clearExternalPlugins.
Proof. unfold clearExternalPlugins. preserves_tac. Qed.

Lemma registerGroup_caches opts : preserves caches (registerGroup opts).
Proof.
  unfold registerGroup, first_group_by_group_id, insert_group. preserves_tac.
Qed.

Lemma updatePlugin_caches plugin : preserves caches (updatePlugin plugin).
Proof.
  unfold updatePlugin, first_plugin_by_id, update_plugin_where_id.
  preserves_tac.
Qed.

Lemma getInternalPluginIds_caches : preserves caches getInternalPluginIds.
Proof.
  unfold getInternalPluginIds. preserves_tac.
Qed.

Lemma updateGroup_caches group : preserves caches (updateGroup group).
Proof.
  unfold updateGroup, first_group_by_id, update_group_where_id.
  preserves_tac.
Qed.

Lemma addGroup_caches group : preserves caches (addGroup group).
Proof.
  unfold addGroup, insert_group. preserves_tac.
Qed.

Lemma deleteGroup_caches id : preserves caches (deleteGroup id).
Proof. unfold deleteGroup, delete_group_where_id. preserves_tac. Qed.

Lemma run_write_caches w : preserves caches (run_write w).
Proof.
  destruct w; simpl.
  - apply registerPlugin_caches.
  - apply clearExternalPlugins_caches.
  - apply registerGroup_caches.
  - apply preserves_bind; [apply updatePlugin_caches|intros; apply preserves_ret].
  - apply preserves_bind; [apply updateGroup_caches|intros; apply preserves_ret].
  - apply preserves_bind; [apply addGroup_caches|intros; apply preserves_ret].
  - apply preserves_bind; [apply deleteGroup_caches|intros; apply preserves_ret].
Qed.

(** A cached read is decided by [caches] alone. *)
Lemma isCacheExpired_caches key s1 s2 :
  caches s1 = caches s2 →
  outcome (isCacheExpired key) s1 = outcome (isCacheExpired key) s2.
Proof.
  unfold caches. intros [= Hg Hp Ht Hc He Hk]. unfold outcome.
  rewrite !isCacheExpired_run, Ht, Hc, He, Hk.
  destruct (cacheTimeMap s2 !! key) as [latest|]; [|done].
  by destruct (bool_decide (latest ≠ 0)).
Qed.

(** X1. No write — a registration, the clearing of the external plugins, an
    update, an addition or a deletion, succeeding or not — touches a cache,
    a timestamp or the clock. A group record and a plugin snapshot whose
    timers have not run out are therefore still what the next read returns:
    a write shows in the reads only once the cache time has passed. *)
Theorem writes_leave_caches (w : Write) (s : Database) :
  let s' := after (run_write w) s in
  caches s' = caches s ∧
  (∀ groupId group,
     groupCache s !! groupId = Some group →
     outcome (isCacheExpired cacheKeys_groups) s = Ok false →
     outcome (getGroupMapFromCache groupId) s' = Ok (Some group)) ∧
  (∀ snapshot,
     pluginCache s = Some snapshot →
     outcome (isCacheExpired cacheKeys_plugins) s = Ok false →
     outcome getPluginListFromCache s' = Ok snapshot).
Proof.
  intros s'. pose proof (run_write_caches w s) as Hsame. fold s' in Hsame.
  split; [done|]. split.
  - intros groupId group Hg Hexp.
    rewrite <- (isCacheExpired_caches _ _ _ Hsame) in Hexp.
    unfold caches in Hsame. injection Hsame as Hgc _ _ _ _ _.
    unfold outcome. rewrite (getGroupMapFromCache_fresh groupId s' group);
      [done|by rewrite Hgc|done].
  - intros snapshot Hc Hexp.
    rewrite <- (isCacheExpired_caches _ _ _ Hsame) in Hexp.
    unfold caches in Hsame. injection Hsame as _ Hpc _ _ _ _.
    unfold outcome, getPluginListFromCache, bind at 1, gets.
    rewrite Hpc, Hc. by rewrite (bind_outcome_Ok _ _ _ _ Hexp).
Qed.

(** ** The registration tracker, with a store that may fail *)

Lemma registerPlugin_run opts external s :
  registerPlugin opts external s =
  if db_fault (env s) (db_calls s)
  then (Throw StoreError, set_db_calls (S (db_calls s)) s)
  else if includes (dp_name <$> tbl_plugins s) (rp_name opts)
  then (Ok tt, add_to_runtime (rp_name opts) external
                 (set_db_calls (S (db_calls s)) s))
  else if db_fault (env s) (S (db_calls s))
  then (Throw StoreError, set_db_calls (S (S (db_calls s))) s)
  else (Ok tt,
        add_to_runtime (rp_name opts) external
          (set_tbl_plugins
             (tbl_plugins s ++
              [new_plugin_row (tbl_plugins s) (rp_name opts)
                 (default false (rp_internal opts))])
             (set_db_calls (S (S (db_calls s))) s))).
Proof.
  unfold registerPlugin. set (name := rp_name opts).
  unfold first_plugin_by_name, bind at 1. unfold bind at 1.
  unfold db_access. destruct (db_fault (env s) (db_calls s)); [done|].
  unfold gets at 1. cbn [tbl_plugins set_db_calls].
  destruct (head (filter (λ r, dp_name r = name) (tbl_plugins s)))
    as [row|] eqn:Hhd.
  - apply head_filter_Some in Hhd as [Hrow Hname].
    assert (includes (dp_name <$> tbl_plugins s) name = true) as ->.
    { apply includes_true, list_elem_of_fmap. eauto. }
    unfold bind, ret, gets, when, modify, add_to_runtime; simpl.
    destruct (includes (registeredPlugins s) name); simpl;
      destruct external; simpl; try done;
      destruct (includes (registeredExternalPlugins s) name); simpl; done.
  - pose proof (proj1 (head_filter_None _ _) Hhd) as Hnone.
    assert (includes (dp_name <$> tbl_plugins s) name = false) as Hinc.
    { apply includes_false. intros (r & Hr & Hin)%list_elem_of_fmap.
      by eapply Hnone. }
    rewrite Hinc.
    unfold insert_plugin, bind, ret, gets, when, modify, throw, db_access,
      add_to_runtime; simpl.
    destruct (db_fault (env s) (S (db_calls s))); [done|]. simpl.
    rewrite Hinc. simpl.
    destruct (includes (registeredPlugins s) name); simpl;
      destruct external; simpl; try done;
      destruct (includes (registeredExternalPlugins s) name); simpl; done.
Qed.

Lemma add_to_runtime_wf name external s :
  runtime_wf s → runtime_wf (add_to_runtime name external s).
Proof.
  intros (Hr & He & Hsub). unfold add_to_runtime, runtime_wf.
  destruct (includes (registeredPlugins s) name) eqn:Hin; simpl.
  - apply includes_true in Hin.
    destruct external; simpl; [|done].
    destruct (includes (registeredExternalPlugins s) name) eqn:Hex; simpl;
      [done|].
    apply includes_false in Hex. unfold push.
    split; [done|]. split.
    + apply NoDup_app. split; [done|]. split; [|apply NoDup_singleton].
      intros x Hx ->%list_elem_of_singleton. done.
    + intros x [Hx|Hx]%elem_of_app; [by apply Hsub|].
      by apply list_elem_of_singleton in Hx as ->.
  - apply includes_false in Hin.
    assert (NoDup (push (registeredPlugins s) name)) as Hr'.
    { apply NoDup_app. split; [done|]. split; [|apply NoDup_singleton].
      intros x Hx ->%list_elem_of_singleton. done. }
    destruct external; simpl.
    + destruct (includes (registeredExternalPlugins s) name) eqn:Hex; simpl.
      * apply includes_true in Hex. exfalso. by apply Hin, Hsub.
      * apply includes_false in Hex. unfold push in *. split; [done|]. split.
        -- apply NoDup_app. split; [done|]. split; [|apply NoDup_singleton].
           intros x Hx ->%list_elem_of_singleton. done.
        -- intros x [Hx|Hx]%elem_of_app; apply elem_of_app; [left|right]; auto.
    + split; [done|]. split; [done|].
      intros x Hx. apply elem_of_app. left. by apply Hsub.
Qed.

Lemma registerPlugin_wf opts external s :
  runtime_wf s → runtime_wf (after (registerPlugin opts external) s).
Proof.
  intros Hwf. unfold after. rewrite registerPlugin_run.
  destruct (db_fault (env s) (db_calls s)); [done|].
  destruct (includes (dp_name <$> tbl_plugins s) (rp_name opts)).
  - by apply add_to_runtime_wf.
  - destruct (db_fault (env s) (S (db_calls s))); [done|].
    by apply add_to_runtime_wf.
Qed.

Lemma clearExternalPlugins_wf s :
  runtime_wf s → runtime_wf (after clearExternalPlugins s).
Proof.
  intros (Hr & He & Hsub). unfold runtime_wf, after, clearExternalPlugins.
  simpl. split; [by apply NoDup_filter|]. split; [apply NoDup_nil_2|].
  intros x Hx. by apply elem_of_nil in Hx.
Qed.

(** X2. [registerPlugin] throws exactly when the store rejects the lookup of
    the name, or the name has no row and the store rejects the insertion.
    When it throws, the name has not been added to the runtime lists, and
    the tables are as they were. *)
Theorem registerPlugin_failure
    (opts : IDataRegisterPluginOpts) (external : bool) (s : Database) :
  let s' := after (registerPlugin opts external) s in
  (outcome (registerPlugin opts external) s = Throw StoreError ↔
   db_fault (env s) (db_calls s) = true ∨
   ((rp_name opts ∉ dp_name <$> tbl_plugins s) ∧
    db_fault (env s) (S (db_calls s)) = true)) ∧
  (outcome (registerPlugin opts external) s ≠ Ok tt →
   runtime s' = runtime s ∧ tables s' = tables s).
Proof.
  intros s'. subst s'. unfold outcome, after. rewrite registerPlugin_run.
  destruct (db_fault (env s) (db_calls s)) eqn:Hf0.
  { split; [|done]. split; [by left|done]. }
  destruct (includes (dp_name <$> tbl_plugins s) (rp_name opts)) eqn:Hin.
  { apply includes_true in Hin. split; [|done].
    split; [done|]. intros [?|[? _]]; done. }
  apply includes_false in Hin.
  destruct (db_fault (env s) (S (db_calls s))) eqn:Hf1.
  - split; [|done]. split; [by right|done].
  - split; [|done]. split; [done|]. intros [?|[_ ?]]; done.
Qed.

(** ** Invariants of every object the class can reach *)

Lemma preserves_Date_now {C} (f : Database → C) :
  (∀ n s, f (set_ticks n s) = f s) → preserves f Date_now.
Proof. intros Hf s. apply Hf. Qed.

Ltac preserves_step' :=
  first [ preserves_step | apply preserves_Date_now; intros; reflexivity ].

Lemma getPluginListFromCache_runtime : preserves runtime getPluginListFromCache.
Proof.
  unfold getPluginListFromCache, getPluginListFromCache_update,
    updateCacheTimeMap, isCacheExpired, getPlugins, select_plugins.
  repeat preserves_step'.
Qed.

Lemma getGroupMapFromCache_runtime groupId :
  preserves runtime (getGroupMapFromCache groupId).
Proof.
  unfold getGroupMapFromCache, getGroupMapFromCache_update,
    updateCacheTimeMap, isCacheExpired, getGroups, select_groups.
  repeat preserves_step'.
Qed.

Lemma getPluginListFromCache_groupCache :
  preserves groupCache getPluginListFromCache.
Proof.
  unfold getPluginListFromCache, getPluginListFromCache_update,
    updateCacheTimeMap, isCacheExpired, getPlugins, select_plugins.
  repeat preserves_step'.
Qed.

Lemma run_write_runtime_wf w s :
  runtime_wf s → runtime_wf (after (run_write w) s).
Proof.
  assert (∀ {A} (m : M A), preserves runtime m →
            runtime_wf s → runtime_wf (after m s)) as Hsame.
  { intros A m Hm. specialize (Hm s). unfold runtime in Hm.
    injection Hm as Hr He. unfold runtime_wf. by rewrite Hr, He. }
  destruct w; simpl.
  - apply registerPlugin_wf.
  - apply clearExternalPlugins_wf.
  - apply Hsame. unfold registerGroup, first_group_by_group_id, insert_group.
    repeat preserves_step'.
  - apply Hsame.
    unfold updatePlugin, first_plugin_by_id, update_plugin_where_id.
    repeat preserves_step'.
  - apply Hsame.
    unfold updateGroup, first_group_by_id, update_group_where_id,
      getInternalPluginIds, getPlugins, select_plugins.
    repeat preserves_step'.
  - apply Hsame.
    unfold addGroup, insert_group, getInternalPluginIds, getPlugins,
      select_plugins.
    repeat preserves_step'.
  - apply Hsame. unfold deleteGroup, delete_group_where_id.
    repeat preserves_step'.
Qed.

Lemma keeps_bind {A B} (P : Database → Prop) (m : M A) (k : A → M B) :
  keeps P m → (∀ a, keeps P (k a)) → keeps P (bind m k).
Proof.
  intros Hm Hk s HP. rewrite after_bind.
  destruct (outcome m s); [apply Hk|]; by apply Hm.
Qed.

Lemma keeps_gets {A} (P : Database → Prop) (f : Database → A) :
  keeps P (gets f).
Proof. by intros s. Qed.

Lemma keeps_ret {A} (P : Database → Prop) (a : A) : keeps P (ret a).
Proof. by intros s. Qed.

Lemma keeps_preserves {A C} (f : Database → C) (P : Database → Prop) (m : M A) :
  (∀ s1 s2, f s1 = f s2 → P s1 → P s2) → preserves f m → keeps P m.
Proof. intros HP Hm s Hs. by apply (HP s). Qed.

Lemma cache_wf_caches s1 s2 : caches s1 = caches s2 → cache_wf s1 → cache_wf s2.
Proof.
  unfold caches, cache_wf. intros [= Hg Hp Ht _ He Hk].
  by rewrite Hg, Hp, Ht, He, Hk.
Qed.

Lemma cache_wf_tick s : cache_wf s → cache_wf (set_ticks (S (ticks s)) s).
Proof.
  intros (Hen & Hkey & Hst & Hboth). unfold cache_wf. simpl.
  split; [done|]. split; [done|]. split; [|done].
  intros key t Ht. destruct (Hst key t Ht) as (n & Hn & ->).
  exists n. split; [lia|done].
Qed.

Lemma isCacheExpired_cache_wf key : keeps cache_wf (isCacheExpired key).
Proof.
  intros s Hwf. unfold after. rewrite isCacheExpired_run.
  destruct (cacheTimeMap s !! key) as [latest|]; [|done].
  destruct (bool_decide (latest ≠ 0)); [|done]. by apply cache_wf_tick.
Qed.

Lemma plugin_update_cache_wf : keeps cache_wf getPluginListFromCache_update.
Proof.
  intros s (Hen & Hkey & Hst & Hboth). unfold after.
  destruct (db_fault (env s) (db_calls s)) eqn:Hf.
  - rewrite plugin_update_Throw by done. done.
  - rewrite plugin_update_Ok by done. unfold cache_wf. simpl.
    split; [|split; [done|split]].
    + intros c [= <-]. apply Forall_forall. intros p Hp.
      apply list_elem_of_filter in Hp. tauto.
    + intros key t. destruct (decide (key = cacheKeys_plugins)) as [->|Hne].
      * rewrite lookup_insert_eq. intros [= <-]. exists (ticks s). split; [lia|done].
      * rewrite lookup_insert_ne by done. intros Ht.
        destruct (Hst key t Ht) as (n & Hn & ->). exists n. split; [lia|done].
    + rewrite lookup_insert_eq. split; eauto.
Qed.

Lemma group_update_cache_wf : keeps cache_wf getGroupMapFromCache_update.
Proof.
  intros s (Hen & Hkey & Hst & Hboth). unfold after.
  destruct (db_fault (env s) (db_calls s)) eqn:Hf.
  - rewrite group_update_Throw by done. done.
  - rewrite group_update_Ok by done. unfold cache_wf. simpl.
    split; [done|]. split; [|split].
    + unfold groupCache_setAll. generalize (mvcGroup <$> tbl_groups s).
      intros groups. revert Hkey. generalize (groupCache s).
      induction groups as [|g groups IH]; intros m Hm; simpl; [done|].
      apply IH. intros k g'. destruct (decide (k = g_group_id g)) as [->|Hne].
      * rewrite lookup_insert_eq. by intros [= <-].
      * rewrite lookup_insert_ne by done. apply Hm.
    + intros key t. destruct (decide (key = cacheKeys_groups)) as [->|Hne].
      * rewrite lookup_insert_eq. intros [= <-]. exists (ticks s). split; [lia|done].
      * rewrite lookup_insert_ne by done. intros Ht.
        destruct (Hst key t Ht) as (n & Hn & ->). exists n. split; [lia|done].
    + rewrite lookup_insert_ne by done. done.
Qed.

Lemma getPluginListFromCache_cache_wf : keeps cache_wf getPluginListFromCache.
Proof.
  unfold getPluginListFromCache.
  apply keeps_bind; [apply keeps_gets|]. intros cache.
  assert (keeps cache_wf
            (getPluginListFromCache_update ;;
             let* cache' := gets pluginCache in ret (default [] cache')))
    as Hrefresh.
  { apply keeps_bind; [apply plugin_update_cache_wf|]. intros _.
    apply keeps_bind; [apply keeps_gets|]. intros. apply keeps_ret. }
  destruct cache as [cache|]; [|done].
  apply keeps_bind; [apply isCacheExpired_cache_wf|].
  intros [|]; simpl; [done|apply keeps_ret].
Qed.

Lemma getGroupMapFromCache_cache_wf groupId :
  keeps cache_wf (getGroupMapFromCache groupId).
Proof.
  unfold getGroupMapFromCache.
  apply keeps_bind; [apply keeps_gets|]. intros cache.
  assert (keeps cache_wf
            (getGroupMapFromCache_update ;;
             gets (λ s, groupCache s !! groupId))) as Hrefresh.
  { apply keeps_bind; [apply group_update_cache_wf|].
    intros. apply keeps_gets. }
  destruct cache as [cache|]; [|done].
  apply keeps_bind; [apply isCacheExpired_cache_wf|].
  intros [|]; simpl; [done|apply keeps_ret].
Qed.

(** A record that the lookup returns is the one it leaves in the map. *)
Lemma getGroupMapFromCache_entry groupId s group :
  outcome (getGroupMapFromCache groupId) s = Ok (Some group) →
  groupCache (after (getGroupMapFromCache groupId) s) !! groupId = Some group.
Proof.
  unfold outcome, after.
  destruct (getGroupMapFromCache_cases groupId s)
    as [(g & Hg & _ & ->)|(s1 & _ & _ & _ & _ & _ & ->)].
  - simpl. intros [= <-].
    destruct (isCacheExpired_frame cacheKeys_groups s)
      as (_ & _ & _ & _ & _ & _ & Hgc & _). by rewrite Hgc.
  - unfold bind, gets. destruct (getGroupMapFromCache_update s1) as [[[]|e] s'];
      simpl; [|done]. by intros [= ->].
Qed.

Lemma getAvailablePlugins_cache_wf groupId userId :
  keeps cache_wf (getAvailablePlugins groupId userId).
Proof.
  intros s Hwf. unfold getAvailablePlugins. rewrite after_bind.
  pose proof (getGroupMapFromCache_cache_wf groupId s Hwf) as Hwf1.
  destruct (outcome (getGroupMapFromCache groupId) s) as [[group|]|e] eqn:Hg;
    [|done..].
  apply getGroupMapFromCache_entry in Hg.
  set (s1 := after (getGroupMapFromCache groupId) s) in *.
  rewrite after_bind.
  pose proof (getPluginListFromCache_cache_wf s1 Hwf1) as Hwf2.
  pose proof (getPluginListFromCache_groupCache s1) as Hsame.
  destruct (outcome getPluginListFromCache s1) as [pluginsList|e]; [|done].
  set (s2 := after getPluginListFromCache s1) in *.
  destruct (truthy userId) as [u|]; [|done].
  unfold after, bind, modify, ret. simpl.
  destruct Hwf2 as (Hen & Hkey & Hst & Hboth). unfold cache_wf. simpl.
  split; [done|]. split; [|done].
  intros k g. destruct (decide (k = groupId)) as [->|Hne].
  - rewrite lookup_insert_eq. intros [= <-]. simpl.
    destruct Hwf1 as (_ & Hkey1 & _). by apply Hkey1.
  - rewrite lookup_insert_ne by done. apply Hkey.
Qed.

Lemma run_call_wf dayjs_valueOf c s :
  runtime_wf s ∧ cache_wf s →
  runtime_wf (run_call dayjs_valueOf c s) ∧ cache_wf (run_call dayjs_valueOf c s).
Proof.
  intros [Hr Hc].
  assert (∀ {A} (m : M A), preserves runtime m → runtime_wf (after m s))
    as Hsame.
  { intros A m Hm. specialize (Hm s). unfold runtime in Hm.
    injection Hm as Hr' He'. unfold runtime_wf. by rewrite Hr', He'. }
  assert (∀ {A} (m : M A), preserves caches m → cache_wf (after m s))
    as Hcsame.
  { intros A m Hm. by apply (cache_wf_caches s). }
  destruct c as [w| | |groupId userId|groupId|groupId userId]; simpl.
  - split; [by apply run_write_runtime_wf|]. apply Hcsame, run_write_caches.
  - split; [apply Hsame|apply Hcsame, getPlugins_caches].
    unfold getPlugins, select_plugins. repeat preserves_step'.
  - split; [apply Hsame|apply Hcsame, getGroups_caches].
    unfold getGroups, select_groups. repeat preserves_step'.
  - split.
    + apply Hsame. unfold isGroupAdmin.
      apply preserves_bind; [apply getGroupMapFromCache_runtime|].
      intros [g|]; apply preserves_ret.
    + clear Hr Hsame Hcsame. revert s Hc.
      change (keeps cache_wf (isGroupAdmin groupId userId)).
      unfold isGroupAdmin.
      apply keeps_bind; [apply getGroupMapFromCache_cache_wf|].
      intros [g|]; apply keeps_ret.
  - split.
    + apply Hsame. unfold isGroupValid.
      apply preserves_bind; [apply getGroupMapFromCache_runtime|].
      intros [g|]; repeat preserves_step'.
    + clear Hr Hsame Hcsame. revert s Hc.
      change (keeps cache_wf (isGroupValid dayjs_valueOf groupId)).
      unfold isGroupValid.
      apply keeps_bind; [apply getGroupMapFromCache_cache_wf|].
      intros [g|]; [|apply keeps_ret].
      apply keeps_bind; [|intros; apply keeps_ret].
      intros s Hs. by apply cache_wf_tick.
  - split; [|by apply getAvailablePlugins_cache_wf].
    apply Hsame. unfold getAvailablePlugins.
    apply preserves_bind; [apply getGroupMapFromCache_runtime|].
    intros [g|]; [|apply preserves_ret].
    apply preserves_bind; [apply getPluginListFromCache_runtime|].
    intros pluginsList. repeat preserves_step'.
Qed.

(** X3. Whatever calls are made on a new object, in whatever order and with
    whatever failures of the store: neither runtime list holds a name
    twice and every external name is a registered one; the plugin snapshot
    holds enabled plugins only and is there exactly when its timestamp is;
    every cached group sits under its own [group_id]; and every timestamp
    is a reading of the clock taken earlier. *)
Theorem reachable_invariants
    (dayjs_valueOf : string → option Z) (calls : list Call)
    (e : Environment) (cacheTime : Z)
    (plugins : list IDataPlugin) (groups : list IDataGroup) (seq : Z) :
  let s := run_calls dayjs_valueOf calls
             (new_Database e cacheTime plugins groups seq) in
  runtime_wf s ∧ cache_wf s.
Proof.
  intros s. subst s. unfold run_calls.
  assert (runtime_wf (new_Database e cacheTime plugins groups seq) ∧
          cache_wf (new_Database e cacheTime plugins groups seq)) as Hinit.
  { split.
    - unfold runtime_wf. simpl. split; [apply NoDup_nil_2|].
      split; [apply NoDup_nil_2|done].
    - unfold cache_wf. simpl. split; [done|]. split; [done|].
      split; [done|]. split; intros [x Hx]; done. }
  revert Hinit. generalize (new_Database e cacheTime plugins groups seq).
  induction calls as [|c calls IH]; intros s Hs; simpl; [done|].
  apply IH. by apply run_call_wf.
Qed.

(** ** The administrative writes and what is read back *)

Lemma filter_fmap {A B} (f : A → B) (P : B → Prop) `{∀ x, Decision (P x)}
    (l : list A) :
  filter P (f <$> l) = f <$> filter (λ x, P (f x)) l.
Proof.
  induction l as [|x l IH]; [done|].
  rewrite fmap_cons, !filter_cons.
  destruct (decide (P (f x))); [rewrite fmap_cons|]; by rewrite IH.
Qed.

Lemma filter_all {A} (P : A → Prop) `{∀ x, Decision (P x)} (l : list A) :
  (∀ x, x ∈ l → P x) → filter P l = l.
Proof.
  induction l as [|x l IH]; intros Hall; [done|].
  rewrite filter_cons, decide_True by (apply Hall; left).
  f_equal. apply IH. intros y Hy. apply Hall. by right.
Qed.

Lemma NoDup_uniq_from (seen l : list Z) : NoDup seen → NoDup (uniq_from seen l).
Proof.
  revert seen. induction l as [|x l IH]; intros seen Hnd; simpl; [done|].
  apply IH. destruct (includes seen x) eqn:Hinc; [done|].
  apply includes_false in Hinc. unfold push.
  apply NoDup_app. split; [done|]. split; [|apply NoDup_singleton].
  intros y Hy ->%list_elem_of_singleton. done.
Qed.

Lemma NoDup_uniq (l : list Z) : NoDup (uniq l).
Proof. apply NoDup_uniq_from, NoDup_nil_2. Qed.

Lemma uniq_from_NoDup (seen l : list Z) :
  NoDup (seen ++ l) → uniq_from seen l = seen ++ l.
Proof.
  revert seen. induction l as [|x l IH]; intros seen Hnd; simpl.
  - by rewrite app_nil_r.
  - assert (includes seen x = false) as ->.
    { apply includes_false. apply NoDup_app in Hnd as (_ & Hdisj & _).
      intros Hx. apply (Hdisj x Hx). left. }
    unfold push. rewrite IH; rewrite <- app_assoc; done.
Qed.

Lemma updatePlugin_run plugin s :
  updatePlugin plugin s =
  if db_fault (env s) (db_calls s)
  then (Throw StoreError, set_db_calls (S (db_calls s)) s)
  else match head (filter (λ r, dp_id r = pp_id plugin) (tbl_plugins s)) with
       | None => (Ok None, set_db_calls (S (db_calls s)) s)
       | Some _ =>
           if db_fault (env s) (S (db_calls s))
           then (Throw StoreError, set_db_calls (S (S (db_calls s))) s)
           else if bool_decide (NoDup (dp_name <$> updated_plugin_rows s plugin))
           then (Ok (Some (Z.of_nat (length (filter (λ r, dp_id r = pp_id plugin)
                                                    (tbl_plugins s))))),
                 set_tbl_plugins (updated_plugin_rows s plugin)
                   (set_db_calls (S (S (db_calls s))) s))
           else (Throw StoreError, set_db_calls (S (S (db_calls s))) s)
       end.
Proof.
  unfold updatePlugin, first_plugin_by_id.
  unfold bind at 1. unfold bind at 1. unfold db_access.
  destruct (db_fault (env s) (db_calls s)); [done|]. simpl.
  destruct (head (filter (λ r, dp_id r = pp_id plugin) (tbl_plugins s)));
    [|done].
  unfold update_plugin_where_id, bind, db_access, gets, throw, modify, ret.
  simpl. destruct (db_fault (env s) (S (db_calls s))); [done|]. simpl.
  unfold updated_plugin_rows, plugin_fields.
  case_bool_decide; reflexivity.
Qed.

Lemma updateGroup_run_admins group s :
  pg_plugins group = None →
  updateGroup group s =
  if db_fault (env s) (db_calls s)
  then (Throw StoreError, set_db_calls (S (db_calls s)) s)
  else match head (filter (λ r, dg_id r = pg_id group) (tbl_groups s)) with
       | None => (Ok None, set_db_calls (S (db_calls s)) s)
       | Some _ =>
           if db_fault (env s) (S (db_calls s))
           then (Throw StoreError, set_db_calls (S (S (db_calls s))) s)
           else if bool_decide
                     (NoDup (dg_group_id <$> updated_group_rows_admins s group))
           then (Ok (Some (Z.of_nat (length (filter (λ r, dg_id r = pg_id group)
                                                    (tbl_groups s))))),
                 set_tbl_groups (updated_group_rows_admins s group)
                   (set_db_calls (S (S (db_calls s))) s))
           else (Throw StoreError, set_db_calls (S (S (db_calls s))) s)
       end.
Proof.
  intros Hpl. unfold updateGroup, first_group_by_id. rewrite Hpl.
  unfold bind at 1. unfold bind at 1. unfold db_access.
  destruct (db_fault (env s) (db_calls s)); [done|]. simpl.
  destruct (head (filter (λ r, dg_id r = pg_id group) (tbl_groups s)));
    [|done].
  unfold update_group_where_id, bind, db_access, gets, throw, modify, ret.
  simpl. destruct (db_fault (env s) (S (db_calls s))); [done|]. simpl.
  unfold updated_group_rows_admins.
  case_bool_decide; reflexivity.
Qed.

(** X4. An update for an id that no row has is a no-op: [updatePlugin] and
    [updateGroup] return nothing after one read of the store, and leave the
    object as it was but for the count of that read. *)
Theorem update_of_missing_id (s : Database) :
  db_fault (env s) (db_calls s) = false →
  (∀ plugin,
     pp_id plugin ∉ dp_id <$> tbl_plugins s →
     updatePlugin plugin s = (Ok None, set_db_calls (S (db_calls s)) s)) ∧
  (∀ group,
     pg_id group ∉ dg_id <$> tbl_groups s →
     updateGroup group s = (Ok None, set_db_calls (S (db_calls s)) s)).
Proof.
  intros Hok. split.
  - intros plugin Hid. rewrite updatePlugin_run, Hok.
    destruct (head (filter (λ r, dp_id r = pp_id plugin) (tbl_plugins s)))
      as [r|] eqn:Hhd; [|done].
    apply head_filter_Some in Hhd as [Hr Heq]. exfalso. apply Hid.
    rewrite <- Heq. by apply list_elem_of_fmap_2.
  - intros group Hid.
    assert (head (filter (λ r, dg_id r = pg_id group) (tbl_groups s)) = None)
      as Hhd.
    { apply head_filter_None. intros r Hr Heq. apply Hid.
      rewrite <- Heq. by apply list_elem_of_fmap_2. }
    destruct (pg_plugins group) as [plugins|] eqn:Hpl.
    + by rewrite (updateGroup_run group plugins s Hpl), Hok, Hhd.
    + by rewrite (updateGroup_run_admins group s Hpl), Hok, Hhd.
Qed.

Lemma mvcPlugin_fields plugin r :
  mvcPlugin (plugin_fields plugin r) = plugin_patch plugin (mvcPlugin r).
Proof.
  unfold mvcPlugin, plugin_fields, plugin_patch. simpl. f_equal.
  - destruct (pp_white_list_users plugin); simpl; [apply toArrayNumber_join|done].
  - destruct (pp_black_list_users plugin); simpl; [apply toArrayNumber_join|done].
Qed.

(** X5. When [updatePlugin] has written, the plugins read from the table
    are those read before, with the plugin of the given id patched: every
    field given replaces the old one — a list given, of safe integers, is
    written in their decimal digits and comes back as the same list — and
    every field not given is as it was; the other plugins are untouched.
    The count returned is that of the rows with the id. *)
Theorem updatePlugin_read_back (plugin : PartialPlugin) (s : Database) (n : Z) :
  outcome (updatePlugin plugin) s = Ok (Some n) →
  (∀ l, pp_white_list_users plugin = Some l → Forall safe_integer l) →
  (∀ l, pp_black_list_users plugin = Some l → Forall safe_integer l) →
  let s' := after (updatePlugin plugin) s in
  (∀ r l, r ∈ tbl_plugins s' → dp_id r = pp_id plugin →
          (pp_white_list_users plugin = Some l →
           dp_white_list_users r = join_strings "," (decimal_digits <$> l)) ∧
          (pp_black_list_users plugin = Some l →
           dp_black_list_users r = join_strings "," (decimal_digits <$> l))) ∧
  mvcPlugin <$> tbl_plugins s' =
    (λ p, if bool_decide (p_id p = pp_id plugin) then plugin_patch plugin p else p)
      <$> (mvcPlugin <$> tbl_plugins s) ∧
  n = Z.of_nat (length (filter (λ r, dp_id r = pp_id plugin) (tbl_plugins s))) ∧
  0 < n ∧
  tbl_groups s' = tbl_groups s.
Proof.
  unfold outcome, after. rewrite updatePlugin_run.
  destruct (db_fault (env s) (db_calls s)); [done|].
  destruct (head (filter (λ r, dp_id r = pp_id plugin) (tbl_plugins s)))
    as [r0|] eqn:Hhd; [|done].
  destruct (db_fault (env s) (S (db_calls s))); [done|].
  case_bool_decide; [|done]. simpl. intros [= <-] Hwl Hbl.
  split; [|split; [|split; [done|split; [|done]]]].
  - intros r l Hr Hid. unfold updated_plugin_rows in Hr.
    apply list_elem_of_fmap in Hr as (row & -> & Hrow).
    case_bool_decide as Hrid; simpl.
    + split; intros Hl; rewrite Hl; simpl; apply join_safe; auto.
    + simpl in Hid. congruence.
  - unfold updated_plugin_rows. rewrite <- !list_fmap_compose.
    apply list_fmap_ext. intros i r _. simpl.
    case_bool_decide; [|done]. apply mvcPlugin_fields.
  - destruct (filter (λ r, dp_id r = pp_id plugin) (tbl_plugins s)); [done|].
    simpl. lia.
Qed.

Lemma Forall_uniq (P : Z → Prop) (l : list Z) : Forall P l → Forall P (uniq l).
Proof.
  rewrite !Forall_forall. intros Hl x Hx. apply Hl. by apply elem_of_uniq.
Qed.

(** X6. When [updateGroup] has written, the groups read from the table are
    those read before, with the group of the given id patched: admins given
    come back as given; plugins given come back merged with the internal
    plugins of the moment, these first and no id twice; and when no plugins
    are given the plugins stay as they were, internal plugins or not. The
    lists are of safe integers, and are written in their decimal digits. *)
Theorem updateGroup_read_back (group : PartialGroup) (s : Database) (n : Z) :
  outcome (updateGroup group) s = Ok (Some n) →
  (∀ l, pg_admins group = Some l → Forall safe_integer l) →
  (∀ l, pg_plugins group = Some l →
        Forall safe_integer (reportedInternalIds s ++ l)) →
  let s' := after (updateGroup group) s in
  (∀ r l, r ∈ tbl_groups s' → dg_id r = pg_id group →
          (pg_admins group = Some l →
           dg_admins r = join_strings "," (decimal_digits <$> l)) ∧
          (pg_plugins group = Some l →
           dg_plugins r = join_strings "," (decimal_digits <$>
                            uniq (reportedInternalIds s ++ l)))) ∧
  mvcGroup <$> tbl_groups s' =
    (λ g, if bool_decide (g_id g = Some (pg_id group))
          then group_patch (reportedInternalIds s) group g else g)
      <$> (mvcGroup <$> tbl_groups s) ∧
  tbl_plugins s' = tbl_plugins s.
Proof.
  assert (∀ r, bool_decide (g_id (mvcGroup r) = Some (pg_id group))
               = bool_decide (dg_id r = pg_id group)) as Hid.
  { intros r. apply bool_decide_ext. simpl. split; [by intros [= ->]|by intros ->]. }
  unfold outcome, after.
  destruct (pg_plugins group) as [plugins|] eqn:Hpl.
  - rewrite (updateGroup_run group plugins s Hpl).
    destruct (db_fault (env s) (db_calls s)); [done|].
    destruct (head (filter (λ r, dg_id r = pg_id group) (tbl_groups s)));
      [|done].
    destruct (db_fault (env s) (S (db_calls s))); [done|].
    destruct (db_fault (env s) (S (S (db_calls s)))); [done|].
    case_bool_decide; [|done]. simpl. intros _ Hadm Hplug.
    split; [|split; [|done]].
    + intros r l Hr Hrid. unfold updated_group_rows in Hr.
      apply list_elem_of_fmap in Hr as (row & -> & Hrow).
      case_bool_decide; simpl; [|simpl in Hrid; congruence].
      split.
      * intros Hl. rewrite Hl. simpl. apply join_safe; auto.
      * intros [= <-]. apply join_safe, Forall_uniq. by apply Hplug.
    + unfold updated_group_rows. rewrite <- !list_fmap_compose.
      apply list_fmap_ext. intros k r _. cbn [compose]. rewrite Hid.
      case_bool_decide; [|done].
      unfold mvcGroup, group_patch. rewrite Hpl. simpl. f_equal.
      * destruct (pg_admins group); simpl; [apply toArrayNumber_join|done].
      * apply toArrayNumber_join.
  - rewrite (updateGroup_run_admins group s Hpl).
    destruct (db_fault (env s) (db_calls s)); [done|].
    destruct (head (filter (λ r, dg_id r = pg_id group) (tbl_groups s)));
      [|done].
    destruct (db_fault (env s) (S (db_calls s))); [done|].
    case_bool_decide; [|done]. simpl. intros _ Hadm Hplug.
    split; [|split; [|done]].
    + intros r l Hr Hrid. unfold updated_group_rows_admins in Hr.
      apply list_elem_of_fmap in Hr as (row & -> & Hrow).
      case_bool_decide; simpl; [|simpl in Hrid; congruence].
      split; [|done].
      intros Hl. rewrite Hl. simpl. apply join_safe; auto.
    + unfold updated_group_rows_admins. rewrite <- !list_fmap_compose.
      apply list_fmap_ext. intros k r _. cbn [compose]. rewrite Hid.
      case_bool_decide; [|done].
      unfold mvcGroup, group_patch. rewrite Hpl. simpl. f_equal.
      destruct (pg_admins group); simpl; [apply toArrayNumber_join|done].
Qed.

(** What a successful [addGroup] has done, and when it succeeds. *)
Lemma addGroup_Ok group s res :
  outcome (addGroup group) s = Ok res →
  res = [dg_id (new_group_row s group)] ∧
  (dg_id (new_group_row s group) ∉ dg_id <$> tbl_groups s) ∧
  (g_group_id group ∉ dg_group_id <$> tbl_groups s) ∧
  after (addGroup group) s =
    set_seq_groups (Z.max (seq_groups s) (dg_id (new_group_row s group)))
      (set_tbl_groups (place_group (new_group_row s group) (tbl_groups s))
         (set_db_calls (S (S (db_calls s))) s)).
Proof.
  unfold outcome, after. rewrite addGroup_run.
  destruct (db_fault (env s) (db_calls s)); [done|].
  destruct (db_fault (env s) (S (db_calls s))); [done|].
  destruct (includes (dg_id <$> tbl_groups s) _) eqn:Hid; [done|].
  destruct (includes (dg_group_id <$> tbl_groups s) _) eqn:Hgid; [done|].
  simpl. intros [= <-]. apply includes_false in Hid, Hgid. done.
Qed.

Lemma addGroup_succeeds group s :
  db_fault (env s) (db_calls s) = false →
  db_fault (env s) (S (db_calls s)) = false →
  dg_id (new_group_row s group) ∉ dg_id <$> tbl_groups s →
  g_group_id group ∉ dg_group_id <$> tbl_groups s →
  outcome (addGroup group) s = Ok [dg_id (new_group_row s group)].
Proof.
  intros Hf1 Hf2 Hid%includes_false Hgid%includes_false.
  unfold outcome. by rewrite addGroup_run, Hf1, Hf2, Hid, Hgid.
Qed.

(** An id given by the store is past the ids of the table and past every
    id that the table has held. *)
Lemma increment_past (s : Database) :
  let id := next_id (seq_groups s :: (dg_id <$> tbl_groups s)) in
  seq_groups s < id ∧ (∀ r, r ∈ tbl_groups s → dg_id r < id) ∧
  Z.max (seq_groups s) id = id.
Proof.
  intros id.
  assert (seq_groups s < id) as Hseq by (apply next_id_above; left).
  split; [done|]. split; [|lia].
  intros r Hr. apply next_id_above. right. by apply list_elem_of_fmap_2.
Qed.

Lemma place_group_sorted (row : IDataGroup) (rows : list IDataGroup) :
  dg_id row ∉ dg_id <$> rows →
  StronglySorted Z.lt (dg_id <$> rows) →
  StronglySorted Z.lt (dg_id <$> place_group row rows).
Proof.
  induction rows as [|x rows IH]; intros Hnew Hsorted; simpl.
  - repeat constructor.
  - rewrite fmap_cons in Hnew, Hsorted. apply not_elem_of_cons in Hnew as [Hne Hnew].
    apply StronglySorted_inv in Hsorted as [Hsorted Hx].
    destruct (dg_id row <? dg_id x) eqn:Hlt.
    + apply Z.ltb_lt in Hlt. rewrite !fmap_cons. constructor.
      * by constructor.
      * constructor; [done|]. eapply Forall_impl; [exact Hx|].
        intros y Hy. simpl in Hy. lia.
    + apply Z.ltb_ge in Hlt. rewrite fmap_cons. constructor; [by apply IH|].
      apply Forall_forall. intros y (r & -> & Hr)%list_elem_of_fmap.
      apply place_group_elem in Hr as [->|Hr]; [lia|].
      rewrite Forall_forall in Hx. apply Hx. by apply list_elem_of_fmap_2.
Qed.

(** X7. When [addGroup] has written, it returns the id of the new row: the
    id given with the group or, when none is given, one past every id that
    the table of the groups holds or has held. The row stands among the
    others in the order of the ids, last when the store has given the id.
    The group read from it has the admins as given and, for plugins, the
    internal plugins of the moment followed by the plugins given that are
    not among them: every id given is there, and none twice. The lists are
    of safe integers, and are written in their decimal digits. *)
Theorem addGroup_read_back (group : IMvcGroup) (s : Database) (res : list Z) :
  outcome (addGroup group) s = Ok res →
  Forall safe_integer (g_admins group) →
  Forall safe_integer (reportedInternalIds s ++ g_plugins group) →
  let s' := after (addGroup group) s in
  let row := new_group_row s group in
  let written := mvcGroup row in
  res = [dg_id row] ∧
  (∀ id, g_id group = Some id → dg_id row = id) ∧
  (g_id group = None →
   seq_groups s < dg_id row ∧
   (∀ r, r ∈ tbl_groups s → dg_id r < dg_id row) ∧
   tbl_groups s' = tbl_groups s ++ [row]) ∧
  tbl_groups s' = place_group row (tbl_groups s) ∧
  (StronglySorted Z.lt (dg_id <$> tbl_groups s) →
   StronglySorted Z.lt (dg_id <$> tbl_groups s')) ∧
  seq_groups s' = Z.max (seq_groups s) (dg_id row) ∧
  tbl_plugins s' = tbl_plugins s ∧
  dg_admins row = join_strings "," (decimal_digits <$> g_admins group) ∧
  dg_plugins row = join_strings "," (decimal_digits <$>
                     uniq (reportedInternalIds s ++ g_plugins group)) ∧
  g_group_id written = g_group_id group ∧
  g_admins written = g_admins group ∧
  g_plugins written = uniq (reportedInternalIds s ++ g_plugins group) ∧
  NoDup (g_plugins written) ∧
  (∀ id, id ∈ g_plugins written ↔
         id ∈ reportedInternalIds s ∨ id ∈ g_plugins group) ∧
  (NoDup (reportedInternalIds s ++ g_plugins group) →
   g_plugins written = reportedInternalIds s ++ g_plugins group).
Proof.
  intros Hout Hadm Hplug s' row written.
  destruct (addGroup_Ok group s res Hout) as (Hres & Hid & Hgid & Hafter).
  subst s' written. rewrite Hafter. fold row in Hid |- *. simpl.
  fold (reportedInternalIds s). rewrite !toArrayNumber_join.
  split; [done|]. split; [by intros id ->|]. split.
  { intros Hnone. destruct (increment_past s) as (Hseq & Hrows & _).
    subst row. simpl. rewrite Hnone. simpl.
    split; [done|]. split; [done|]. apply place_group_last.
    intros r Hr. simpl. rewrite Hnone. by apply Hrows. }
  split; [done|]. split; [by apply place_group_sorted|].
  split; [done|]. split; [done|].
  split; [by apply join_safe|]. split; [by apply join_safe, Forall_uniq|].
  split; [done|]. split; [done|].
  split; [done|]. split; [apply NoDup_uniq|]. split.
  - intros id. by rewrite elem_of_uniq, elem_of_app.
  - intros Hnd. unfold uniq. by rewrite uniq_from_NoDup.
Qed.

(** X8. A group that has been added and is then deleted by the id that
    [addGroup] returned leaves the rows of the groups as they were, and the
    deletion counts one row. The store remembers the id: the same group
    added once more without an id is given the next one, not that of the
    row deleted. *)
Theorem addGroup_then_deleteGroup (group : IMvcGroup) (s : Database) (id : Z) :
  never_faults s →
  outcome (addGroup group) s = Ok [id] →
  let s1 := after (addGroup group) s in
  let s2 := after (deleteGroup id) s1 in
  outcome (deleteGroup id) s1 = Ok 1 ∧
  tbl_groups s2 = tbl_groups s ∧
  seq_groups s2 = Z.max (seq_groups s) id ∧
  (g_id group = None → outcome (addGroup group) s2 = Ok [id + 1]).
Proof.
  intros Hok Hout s1 s2.
  destruct (addGroup_Ok group s [id] Hout) as (Hres & Hid & Hgid & Hafter).
  assert (dg_id (new_group_row s group) = id) as Hrow by congruence.
  clear Hres. rewrite Hrow in Hid, Hafter.
  assert (∀ r, r ∈ tbl_groups s → dg_id r ≠ id) as Hold.
  { intros r Hr Heq. apply Hid. rewrite <- Heq. by apply list_elem_of_fmap_2. }
  assert (deleteGroup id s1 =
          (Ok 1, set_tbl_groups (tbl_groups s)
                   (set_db_calls (S (db_calls s1)) s1))) as Hdel.
  { unfold deleteGroup, delete_group_where_id, bind, db_access, gets, modify, ret.
    assert (db_fault (env s1) (db_calls s1) = false) as ->.
    { subst s1. rewrite Hafter. apply Hok. }
    assert (tbl_groups s1 = place_group (new_group_row s group) (tbl_groups s))
      as Htbl by (subst s1; by rewrite Hafter).
    simpl. rewrite Htbl.
    assert (filter (λ r, dg_id r ≠ id) (tbl_groups s) = tbl_groups s) as Hkeep
      by by apply filter_all.
    assert (filter (λ r, dg_id r = id) (tbl_groups s) = []) as Hnone.
    { apply elem_of_nil_inv. intros r [Heq Hr]%list_elem_of_filter.
      by apply (Hold r). }
    rewrite (place_group_filter (λ r, dg_id r ≠ id))
      by (rewrite Hrow; intros H; by apply H).
    rewrite Hkeep. do 3 f_equal.
    assert (∀ rows, filter (λ r, dg_id r = id) rows = [] →
              length (filter (λ r, dg_id r = id)
                        (place_group (new_group_row s group) rows)) = 1%nat)
      as Hone.
    { induction rows as [|x rows IH]; simpl.
      - intros _. by rewrite filter_cons, decide_True.
      - rewrite filter_cons. destruct (decide (dg_id x = id)); [done|].
        intros Hrows. destruct (_ <? _).
        + rewrite filter_cons, decide_True by done.
          rewrite filter_cons, decide_False by done. by rewrite Hrows.
        + rewrite filter_cons, decide_False by done. by apply IH. }
    by rewrite Hone. }
  subst s2. unfold outcome, after. rewrite Hdel. simpl.
  split; [done|]. split; [done|].
  split; [subst s1; by rewrite Hafter|].
  intros Hnone.
  destruct (increment_past s) as (Hseq & Hrows & Hmax).
  assert (id = next_id (seq_groups s :: (dg_id <$> tbl_groups s))) as Hnew.
  { rewrite <- Hrow. simpl. by rewrite Hnone. }
  rewrite <- Hnew in Hseq, Hrows, Hmax.
  remember (set_tbl_groups (tbl_groups s) (set_db_calls (S (db_calls s1)) s1))
    as s2 eqn:Hs2.
  assert (env s2 = env s ∧ tbl_groups s2 = tbl_groups s ∧ seq_groups s2 = id)
    as (Henv & Htbl & Hseq2).
  { rewrite Hs2. subst s1. rewrite Hafter. simpl. by rewrite Hmax. }
  assert (dg_id (new_group_row s2 group) = id + 1) as Hnext.
  { simpl. rewrite Hnone, Hseq2, Htbl. simpl. unfold next_id. simpl.
    assert (foldr Z.max 0 (dg_id <$> tbl_groups s) < id) as Hlt.
    { rewrite Hnew. unfold next_id. simpl. lia. }
    lia. }
  fold (outcome (addGroup group) s2). rewrite <- Hnext.
  apply addGroup_succeeds.
  - rewrite Henv. apply Hok.
  - rewrite Henv. apply Hok.
  - rewrite Hnext, Htbl.
    intros (r & Heq & Hr)%list_elem_of_fmap. specialize (Hrows r Hr). lia.
  - by rewrite Htbl.
Qed.

Lemma registerGroup_run opts s :
  registerGroup opts s =
  if db_fault (env s) (db_calls s)
  then (Throw StoreError, set_db_calls (S (db_calls s)) s)
  else if includes (dg_group_id <$> tbl_groups s) (rg_group_id opts)
  then (Ok tt, set_db_calls (S (db_calls s)) s)
  else if db_fault (env s) (S (db_calls s))
  then (Throw StoreError, set_db_calls (S (S (db_calls s))) s)
  else (Ok tt,
        set_seq_groups (dg_id (registered_group_row s opts))
          (set_tbl_groups (tbl_groups s ++ [registered_group_row s opts])
             (set_db_calls (S (S (db_calls s))) s))).
Proof.
  unfold registerGroup, first_group_by_group_id.
  unfold bind at 1. unfold bind at 1. unfold db_access.
  destruct (db_fault (env s) (db_calls s)); [done|]. simpl.
  destruct (head (filter (λ r, dg_group_id r = rg_group_id opts) (tbl_groups s)))
    as [row|] eqn:Hhd.
  - apply head_filter_Some in Hhd as [Hrow Hgid].
    assert (includes (dg_group_id <$> tbl_groups s) (rg_group_id opts) = true)
      as ->; [|done].
    apply includes_true, list_elem_of_fmap. eauto.
  - pose proof (proj1 (head_filter_None _ _) Hhd) as Hnone.
    assert (includes (dg_group_id <$> tbl_groups s) (rg_group_id opts) = false)
      as Hinc.
    { apply includes_false. intros (r & Hr & Hin)%list_elem_of_fmap.
      by eapply Hnone. }
    rewrite Hinc.
    unfold insert_group, bind, db_access, gets, throw, modify, ret. simpl.
    destruct (db_fault (env s) (S (db_calls s))); [done|]. simpl.
    destruct (increment_past s) as (Hseq & Hrows & Hmax).
    assert (includes (dg_id <$> tbl_groups s)
              (next_id (seq_groups s :: (dg_id <$> tbl_groups s))) = false) as ->.
    { apply includes_false.
      intros (r & Heq & Hr)%list_elem_of_fmap. specialize (Hrows r Hr). lia. }
    rewrite Hinc. simpl. rewrite Hmax.
    by rewrite place_group_last.
Qed.

(** X9. [registerGroup] writes a row only for a [group_id] that has none:
    for one that has a row the table stays as it is, whatever name and
    expiry are passed, so that a second registration changes nothing. The
    row it writes comes last, under an id past every id that the table
    holds or has held, which the store then remembers; it has no admin and
    no plugin, the internal plugins included: they are not forced on this
    path. *)
Theorem registerGroup_spec (opts opts' : IDataRegisterGroupOpts) (s : Database) :
  never_faults s →
  rg_group_id opts' = rg_group_id opts →
  let s1 := after (registerGroup opts) s in
  let s2 := after (registerGroup opts') s1 in
  outcome (registerGroup opts) s = Ok tt ∧
  outcome (registerGroup opts') s1 = Ok tt ∧
  tbl_groups s2 = tbl_groups s1 ∧
  (rg_group_id opts ∈ dg_group_id <$> tbl_groups s → tbl_groups s1 = tbl_groups s) ∧
  (rg_group_id opts ∉ dg_group_id <$> tbl_groups s →
   tbl_groups s1 = tbl_groups s ++ [registered_group_row s opts] ∧
   seq_groups s < dg_id (registered_group_row s opts) ∧
   (∀ r, r ∈ tbl_groups s → dg_id r < dg_id (registered_group_row s opts)) ∧
   seq_groups s1 = dg_id (registered_group_row s opts) ∧
   g_admins (mvcGroup (registered_group_row s opts)) = [] ∧
   g_plugins (mvcGroup (registered_group_row s opts)) = []).
Proof.
  intros Hok Hsame s1 s2.
  assert (outcome (registerGroup opts) s = Ok tt ∧
          env s1 = env s ∧
          (rg_group_id opts ∈ dg_group_id <$> tbl_groups s1) ∧
          (rg_group_id opts ∈ dg_group_id <$> tbl_groups s →
           tbl_groups s1 = tbl_groups s) ∧
          (rg_group_id opts ∉ dg_group_id <$> tbl_groups s →
           tbl_groups s1 = tbl_groups s ++ [registered_group_row s opts] ∧
           seq_groups s1 = dg_id (registered_group_row s opts)))
    as (Hout1 & Henv & Hin1 & Hhas & Hnew).
  { subst s1. unfold outcome, after. rewrite registerGroup_run, !Hok.
    destruct (includes (dg_group_id <$> tbl_groups s) (rg_group_id opts)) eqn:Hinc.
    - apply includes_true in Hinc. simpl. done.
    - apply includes_false in Hinc. simpl. repeat split; try done.
      rewrite fmap_app. apply elem_of_app. right. simpl. left. }
  assert (never_faults s1) as Hok1 by (intros k; rewrite Henv; apply Hok).
  assert (outcome (registerGroup opts') s1 = Ok tt ∧ tbl_groups s2 = tbl_groups s1)
    as [Hout2 Htbl2].
  { subst s2. unfold outcome, after. rewrite registerGroup_run, !Hok1, Hsame.
    apply includes_true in Hin1. by rewrite Hin1. }
  split; [done|]. split; [done|]. split; [done|]. split; [done|].
  intros Hnot. destruct (Hnew Hnot) as [Htbl Hseq1].
  destruct (increment_past s) as (Hseq & Hrows & _).
  split; [done|]. split; [done|]. split; [done|]. split; [done|].
  split; reflexivity.
Qed.

(** X10. [deleteGroup] removes the rows of the given id and no other, keeps
    the order of the rest and returns the number of rows removed: 0, with
    the table as it was, when no row has the id. When the store rejects the
    deletion, it throws and the table is as it was. *)
Theorem deleteGroup_spec (id : Z) (s : Database) :
  let s' := after (deleteGroup id) s in
  (db_fault (env s) (db_calls s) = false →
   outcome (deleteGroup id) s
     = Ok (Z.of_nat (length (filter (λ r, dg_id r = id) (tbl_groups s)))) ∧
   tbl_groups s' = filter (λ r, dg_id r ≠ id) (tbl_groups s) ∧
   (id ∉ dg_id <$> tbl_groups s') ∧
   (id ∉ dg_id <$> tbl_groups s →
    outcome (deleteGroup id) s = Ok 0 ∧ tbl_groups s' = tbl_groups s)) ∧
  (db_fault (env s) (db_calls s) = true →
   outcome (deleteGroup id) s = Throw StoreError ∧ tbl_groups s' = tbl_groups s) ∧
  tbl_plugins s' = tbl_plugins s.
Proof.
  intros s'. subst s'. unfold outcome, after.
  unfold deleteGroup, delete_group_where_id, bind, db_access, gets, modify, ret.
  simpl. destruct (db_fault (env s) (db_calls s)); simpl.
  { split; [done|]. split; done. }
  split; [|done]. intros _. split; [done|]. split; [done|]. split.
  - intros (r & Hid & [Hne _]%list_elem_of_filter)%list_elem_of_fmap. done.
  - intros Habsent.
    assert (∀ r, r ∈ tbl_groups s → dg_id r ≠ id) as Hold.
    { intros r Hr Heq. apply Habsent. rewrite <- Heq.
      by apply list_elem_of_fmap_2. }
    split.
    + assert (filter (λ r, dg_id r = id) (tbl_groups s) = []) as ->; [|done].
      apply elem_of_nil_inv. intros r [Heq Hr]%list_elem_of_filter.
      by apply (Hold r).
    + by apply filter_all.
Qed.

(** X11. After a registration that the store answered, [getPlugins] lists a
    plugin of that name. For a name that had no row it comes last, enabled,
    with empty white and black lists and with [internal] as passed, false
    by default; for a name that had a row, the plugin is listed as the row
    has it, whatever the registration passes. What was listed before is
    still listed. *)
Theorem registered_plugin_is_listed
    (opts : IDataRegisterPluginOpts) (external : bool) (s : Database) :
  never_faults s →
  let name := rp_name opts in
  let s1 := after (registerPlugin opts external) s in
  let fresh := mvcPlugin (new_plugin_row (tbl_plugins s) name
                            (default false (rp_internal opts))) in
  outcome getPlugins s1 = Ok (activePlugins s1) ∧
  (∀ p, p ∈ activePlugins s → p ∈ activePlugins s1) ∧
  (name ∉ dp_name <$> tbl_plugins s →
   last (activePlugins s1) = Some fresh ∧
   p_name fresh = name ∧ p_enabled fresh = true ∧
   p_internal fresh = default false (rp_internal opts) ∧
   p_white_list_users fresh = [] ∧ p_black_list_users fresh = []) ∧
  (∀ r, r ∈ tbl_plugins s → dp_name r = name →
        tbl_plugins s1 = tbl_plugins s ∧ mvcPlugin r ∈ activePlugins s1).
Proof.
  intros Hok name s1 fresh.
  destruct (registerPlugin_spec opts external s Hok)
    as (_ & Henv & Htbl & Hreg & _).
  fold name s1 in Henv, Htbl, Hreg.
  assert (name ∈ registeredPlugins s1 ∧
          ∀ n, n ∈ registeredPlugins s → n ∈ registeredPlugins s1)
    as [Hname Hmono].
  { rewrite Hreg. destruct (includes (registeredPlugins s) name) eqn:Hinc.
    - apply includes_true in Hinc. done.
    - unfold push. split; [apply elem_of_app; right; left|].
      intros n Hn. apply elem_of_app. by left. }
  split.
  { unfold outcome. rewrite getPlugins_Ok; [done|]. rewrite Henv. apply Hok. }
  split.
  { intros p [Hp Hin]%list_elem_of_filter. apply list_elem_of_filter.
    split.
    - apply includes_true, Hmono. by apply includes_true.
    - rewrite Htbl. destruct (includes (dp_name <$> tbl_plugins s) name);
        [done|]. rewrite fmap_app. apply elem_of_app. by left. }
  split.
  - intros Hnew. apply includes_false in Hnew. rewrite Hnew in Htbl.
    split; [|done]. unfold activePlugins. rewrite Htbl, fmap_app, filter_app.
    simpl. rewrite filter_cons, decide_True by (by apply includes_true).
    rewrite filter_nil. apply last_snoc.
  - intros r Hr Hrname.
    assert (includes (dp_name <$> tbl_plugins s) name = true) as Hinc.
    { apply includes_true, list_elem_of_fmap. eauto. }
    rewrite Hinc in Htbl. split; [done|].
    apply list_elem_of_filter. split.
    + apply includes_true. simpl. by rewrite Hrname.
    + rewrite Htbl. by apply list_elem_of_fmap_2.
Qed.

(** X12. After [clearExternalPlugins], [getPlugins] lists what it listed
    before less the plugins whose name was external; their rows stay in the
    table, where a later registration of the name finds them. *)
Theorem cleared_plugins_are_not_listed (s : Database) :
  let s' := after clearExternalPlugins s in
  outcome clearExternalPlugins s = Ok tt ∧
  tables s' = tables s ∧
  activePlugins s' =
    filter (λ p, p_name p ∉ registeredExternalPlugins s) (activePlugins s) ∧
  (db_fault (env s') (db_calls s') = false →
   outcome getPlugins s' = Ok (activePlugins s')).
Proof.
  intros s'. split; [done|]. split; [done|]. split.
  - subst s'. unfold activePlugins, after, clearExternalPlugins, bind, modify.
    simpl. rewrite list_filter_filter. apply list_filter_iff. intros p.
    rewrite includes_true, list_elem_of_filter, includes_false.
    by rewrite includes_true.
  - intros Hok. unfold outcome. by rewrite getPlugins_Ok.
Qed.

(** X13. The internal plugins that [getInternalPluginIds] reports, and that
    [addGroup] and [updateGroup] force, are those of the rows with
    [internal] set and a registered name, in the order of the table,
    enabled or not. *)
Theorem internal_ids_reported (s : Database) :
  reportedInternalIds s = internal_registered_ids s ∧
  (db_fault (env s) (db_calls s) = false →
   outcome getInternalPluginIds s = Ok (internal_registered_ids s)) ∧
  (db_fault (env s) (db_calls s) = true →
   outcome getInternalPluginIds s = Throw StoreError).
Proof.
  assert (reportedInternalIds s = internal_registered_ids s) as Heq.
  { unfold reportedInternalIds, internal_registered_ids, activePlugins.
    rewrite list_filter_filter, filter_fmap, <- list_fmap_compose.
    f_equal. apply list_filter_iff. intros r. simpl.
    by rewrite includes_true. }
  split; [done|]. split.
  - intros Hok. unfold outcome. rewrite getInternalPluginIds_Ok by done.
    simpl. f_equal. exact Heq.
  - intros Hko. unfold outcome. by rewrite getInternalPluginIds_Throw.
Qed.

(** ** The group cache and the resolver *)



(** X15. When a refresh of the groups is due and the store rejects the
    read, the lookup throws the store error, whether the group was cached or
    not, and leaves the cached groups and the timestamps as they were. *)
Theorem group_refresh_failure (groupId : Z) (s : Database) :
  groupCache s !! groupId = None ∨
  outcome (isCacheExpired cacheKeys_groups) s = Ok true →
  db_fault (env s) (db_calls s) = true →
  let s' := after (getGroupMapFromCache groupId) s in
  outcome (getGroupMapFromCache groupId) s = Throw StoreError ∧
  groupCache s' = groupCache s ∧
  cacheTimeMap s' = cacheTimeMap s ∧
  pluginCache s' = pluginCache s.
Proof.
  intros Hdue Hko s'. subst s'.
  destruct (getGroupMapFromCache_cases groupId s)
    as [(g & Hg & Hexp & _)|(s1 & He & Hd & _ & Hgc & Hs1 & Hrun)].
  { destruct Hdue as [Hnone|Htrue]; congruence. }
  assert (cacheTimeMap s1 = cacheTimeMap s ∧ pluginCache s1 = pluginCache s)
    as [Ht Hp].
  { destruct Hs1 as [->| ->]; [done|].
    by destruct (isCacheExpired_frame cacheKeys_groups s)
      as (_ & _ & _ & _ & _ & _ & _ & ? & ?). }
  unfold outcome, after. rewrite Hrun. unfold bind.
  rewrite group_update_Throw by (by rewrite He, Hd). simpl. done.
Qed.

(** X16. When the group is cached and the snapshot is there, and neither
    timer has run out at the two readings of the clock, [getAvailablePlugins]
    answers from the caches: it does not reach the store, so that it cannot
    fail, whatever the state of the store. *)
Theorem cached_resolution_skips_store
    (groupId : Z) (userId : option Z) (s : Database)
    (group : IMvcGroup) (snapshot : list IMvcPlugin) (stampG stampP : Z) :
  groupCache s !! groupId = Some group →
  pluginCache s = Some snapshot →
  cacheTimeMap s !! cacheKeys_groups = Some stampG → stampG ≠ 0 →
  cacheTimeMap s !! cacheKeys_plugins = Some stampP → stampP ≠ 0 →
  clock (env s) (ticks s) - stampG < cacheTime s →
  clock (env s) (S (ticks s)) - stampP < cacheTime s →
  let s' := after (getAvailablePlugins groupId userId) s in
  let ids := match truthy userId with
             | Some u => foldl (applyUserOverrides u) (g_plugins group) snapshot
             | None => g_plugins group
             end in
  outcome (getAvailablePlugins groupId userId) s
    = Ok (pluginNames (pluginMap_of snapshot) ids) ∧
  db_calls s' = db_calls s ∧
  tables s' = tables s ∧
  pluginCache s' = Some snapshot ∧
  cacheTimeMap s' = cacheTimeMap s.
Proof.
  intros Hg Hp HtG HnzG HtP HnzP HltG HltP s' ids.
  pose proof (getGroupMapFromCache_cached groupId s group stampG Hg HtG HnzG HltG)
    as Hrun1.
  set (s1 := set_ticks (S (ticks s)) s) in *.
  assert (getPluginListFromCache s1 = (Ok snapshot, set_ticks (S (ticks s1)) s1))
    as Hrun2 by (by apply (getPluginListFromCache_cached s1 snapshot stampP)).
  assert (outcome (getGroupMapFromCache groupId) s = Ok (Some group)) as Hout1
    by (unfold outcome; by rewrite Hrun1).
  assert (after (getGroupMapFromCache groupId) s = s1) as Hafter1
    by (unfold after; by rewrite Hrun1).
  assert (outcome getPluginListFromCache (after (getGroupMapFromCache groupId) s)
          = Ok snapshot) as Hout2
    by (rewrite Hafter1; unfold outcome; by rewrite Hrun2).
  subst s' ids. unfold outcome, after.
  rewrite (getAvailablePlugins_run groupId userId s group snapshot Hout1 Hout2).
  rewrite Hafter1. unfold after. rewrite Hrun2. simpl.
  destruct (truthy userId); simpl; done.
Qed.

(** The first occurrence of a member: where [indexOf] points, and what
    [splice] leaves. *)
Lemma indexOf_first (l : list Z) (x : Z) :
  x ∈ l →
  ∃ l1 l2, l = l1 ++ x :: l2 ∧ (x ∉ l1) ∧
           indexOf l x = Z.of_nat (length l1) ∧
           splice1 l (indexOf l x) = l1 ++ l2.
Proof.
  intros Hin.
  assert (∃ l1 l2, l = l1 ++ x :: l2 ∧ (x ∉ l1) ∧
                   indexOf l x = Z.of_nat (length l1)) as (l1 & l2 & -> & Hl1 & Hidx).
  { induction l as [|y l IH]; [by apply elem_of_nil in Hin|].
    destruct (decide (y = x)) as [->|Hne].
    - exists [], l. simpl. rewrite bool_decide_eq_true_2 by done.
      split; [done|]. split; [apply not_elem_of_nil|done].
    - apply elem_of_cons in Hin as [?|Hin]; [congruence|].
      destruct (IH Hin) as (l1 & l2 & -> & Hl1 & Hidx).
      exists (y :: l1), l2. simpl. rewrite bool_decide_eq_false_2 by done.
      rewrite Hidx.
      assert ((Z.of_nat (length l1) <? 0) = false) as ->
        by (apply Z.ltb_ge; lia).
      split; [done|].
      split; [apply not_elem_of_cons; split; [congruence|done]|lia]. }
  exists l1, l2. split; [done|]. split; [done|]. split; [done|].
  rewrite Hidx. unfold splice1.
  assert ((Z.of_nat (length l1) <? 0) = false) as -> by (apply Z.ltb_ge; lia).
  rewrite length_app. simpl.
  replace (Z.to_nat (Z.min (Z.of_nat (length l1))
                       (Z.of_nat (length l1 + S (length l2)))))
    with (length l1) by lia.
  apply delete_middle.
Qed.

(** One round of the overrides on ids without repetition. *)
Lemma applyUserOverrides_spec (userId : Z) (ids : list Z) (p : IMvcPlugin) :
  NoDup ids →
  NoDup (applyUserOverrides userId ids p) ∧
  ∀ id, id ∈ applyUserOverrides userId ids p ↔
        if bool_decide (id = p_id p)
        then (id ∈ ids ∨ userId ∈ p_white_list_users p) ∧
             userId ∉ p_black_list_users p
        else id ∈ ids.
Proof.
  intros Hnd. unfold applyUserOverrides.
  set (ids1 := if includes (p_white_list_users p) userId
                  && negb (includes ids (p_id p))
               then push ids (p_id p) else ids).
  assert (NoDup ids1 ∧
          ∀ id, id ∈ ids1 ↔
                if bool_decide (id = p_id p)
                then id ∈ ids ∨ userId ∈ p_white_list_users p
                else id ∈ ids) as [Hnd1 Hin1].
  { subst ids1.
    destruct (includes (p_white_list_users p) userId) eqn:Hw; simpl.
    - apply includes_true in Hw.
      destruct (includes ids (p_id p)) eqn:Hi; simpl.
      + apply includes_true in Hi. split; [done|]. intros id.
        case_bool_decide as Hid; [|done]. subst id. tauto.
      + apply includes_false in Hi. unfold push. split.
        * apply NoDup_app. split; [done|]. split; [|apply NoDup_singleton].
          intros y Hy ->%list_elem_of_singleton. done.
        * intros id. rewrite elem_of_app, list_elem_of_singleton.
          case_bool_decide; tauto.
    - apply includes_false in Hw. split; [done|]. intros id.
      case_bool_decide; tauto. }
  destruct (includes (p_black_list_users p) userId) eqn:Hb; simpl.
  - apply includes_true in Hb.
    destruct (includes ids1 (p_id p)) eqn:Hi; simpl.
    + apply includes_true in Hi.
      destruct (indexOf_first ids1 (p_id p) Hi) as (l1 & l2 & Heq & Hl1 & _ & ->).
      rewrite Heq in Hnd1, Hin1.
      apply NoDup_app in Hnd1 as (Hn1 & Hdisj & [Hl2 Hn2]%NoDup_cons).
      split.
      * apply NoDup_app. split; [done|]. split; [|done].
        intros y Hy Hy2. apply (Hdisj y Hy). by right.
      * intros id. specialize (Hin1 id).
        rewrite elem_of_app, elem_of_cons in Hin1. rewrite elem_of_app.
        case_bool_decide as Hid.
        -- subst id. tauto.
        -- tauto.
    + apply includes_false in Hi. split; [done|]. intros id.
      specialize (Hin1 id). case_bool_decide as Hid; [|done].
      subst id. tauto.
  - apply includes_false in Hb. split; [done|]. intros id.
    specialize (Hin1 id). case_bool_decide; tauto.
Qed.

(** X17. The overrides of a user over a catalog without repeated ids, from
    grants without repetition: an id is among the resulting ids exactly when
    it was granted or its plugin has the user on its white list, and its
    plugin has not the user on its black list; and no id is there twice. So
    the black list prevails over the grant and over the white list. *)
Theorem overrides_resolution
    (userId : Z) (ids : list Z) (pluginsList : list IMvcPlugin) :
  NoDup ids →
  NoDup (p_id <$> pluginsList) →
  let result := foldl (applyUserOverrides userId) ids pluginsList in
  NoDup result ∧
  ∀ id, id ∈ result ↔
        (id ∈ ids ∨
         ∃ p, p ∈ pluginsList ∧ p_id p = id ∧ userId ∈ p_white_list_users p) ∧
        ¬ ∃ p, p ∈ pluginsList ∧ p_id p = id ∧ userId ∈ p_black_list_users p.
Proof.
  revert ids. induction pluginsList as [|p l IH]; intros ids Hnd Hcat result.
  { subst result. simpl. split; [done|]. intros id. split.
    - intros Hin. split; [by left|]. intros (q & Hq & _). by apply elem_of_nil in Hq.
    - intros [[Hin|(q & Hq & _)] _]; [done|by apply elem_of_nil in Hq]. }
  rewrite fmap_cons in Hcat. apply NoDup_cons in Hcat as [Hp Hcat].
  destruct (applyUserOverrides_spec userId ids p Hnd) as [Hnd1 Hstep].
  destruct (IH (applyUserOverrides userId ids p) Hnd1 Hcat) as [Hnd' Hrest].
  subst result. simpl. split; [done|]. intros id.
  rewrite Hrest, Hstep. clear Hrest Hstep IH.
  assert (∀ q, q ∈ l → p_id q ≠ p_id p) as Hother.
  { intros q Hq Heq. apply Hp. rewrite <- Heq. by apply list_elem_of_fmap_2. }
  case_bool_decide as Hid.
  - subst id. split.
    + intros [[[Hin Hnb]|(q & Hq & Hqid & _)] Hnot].
      * split.
        -- destruct Hin as [Hin|Hw]; [by left|]. right. exists p.
           split; [left|done].
        -- intros (q & [->|Hq]%elem_of_cons & Hqid & Hqb); [done|].
           by apply (Hother q).
      * exfalso. by apply (Hother q).
    + intros [Hyes Hno]. split; [|intros (q & Hq & Hqid & _); by apply (Hother q)].
      left. split.
      * destruct Hyes as [Hin|(q & [->|Hq]%elem_of_cons & Hqid & Hqw)];
          [by left|by right|]. exfalso. by apply (Hother q).
      * intros Hb. apply Hno. exists p. split; [left|done].
  - split.
    + intros [Hyes Hno]. split.
      * destruct Hyes as [Hin|(q & Hq & Hqid & Hqw)]; [by left|].
        right. exists q. split; [by right|done].
      * intros (q & [->|Hq]%elem_of_cons & Hqid & Hqb); [congruence|].
        apply Hno. eauto.
    + intros [Hyes Hno]. split.
      * destruct Hyes as [Hin|(q & [->|Hq]%elem_of_cons & Hqid & Hqw)];
          [by left|congruence|]. right. eauto.
      * intros (q & Hq & Hqid & Hqb). apply Hno. exists q.
        split; [by right|done].
Qed.

Lemma pluginMap_of_elem (pluginsList : list IMvcPlugin) (id : Z) (p : IMvcPlugin) :
  pluginMap_of pluginsList !! id = Some p → p ∈ pluginsList ∧ p_id p = id.
Proof.
  unfold pluginMap_of.
  assert (∀ (l : list IMvcPlugin) (m : gmap Z IMvcPlugin),
            foldl (λ acc cur, <[p_id cur := cur]> acc) m l !! id = Some p →
            (p ∈ l ∧ p_id p = id) ∨ m !! id = Some p) as Hgen.
  { induction l as [|x l IH]; intros m; simpl; [by right|].
    intros [[Hin Hid]|Hm]%IH.
    - left. split; [by right|done].
    - destruct (decide (p_id x = id)) as [Heq|Hne].
      + rewrite Heq, lookup_insert_eq in Hm. injection Hm as ->.
        left. split; [left|done].
      + rewrite lookup_insert_ne in Hm by done. by right. }
  intros [?|Hempty]%Hgen; [done|]. by rewrite lookup_empty in Hempty.
Qed.

Lemma pluginNames_elem (pluginsList : list IMvcPlugin) (ids : list Z) (n : string) :
  n ∈ pluginNames (pluginMap_of pluginsList) ids →
  n ≠ EmptyString ∧
  ∃ p, p ∈ pluginsList ∧ p_name p = n ∧ p_id p ∈ ids.
Proof.
  unfold pluginNames. intros (id & Hid & Hsome)%list_elem_of_omap.
  destruct (pluginMap_of pluginsList !! id) as [p|] eqn:Hp; [|done].
  apply pluginMap_of_elem in Hp as [Hin Hpid].
  case_bool_decide as Hempty; [done|]. injection Hsome as <-.
  split; [done|]. exists p. by rewrite Hpid.
Qed.

(** X18. Every name that [getAvailablePlugins] returns is the name, not
    empty, of a plugin of the snapshot left in [pluginCache], with an id
    among the resulting ids; on an object with well-formed caches that
    plugin is enabled. A granted or white-listed id whose plugin is not in
    the snapshot gives no name. *)
Theorem available_names_are_cached_plugins
    (groupId : Z) (userId : option Z) (s : Database) (names : list string) :
  cache_wf s →
  outcome (getAvailablePlugins groupId userId) s = Ok names →
  let s' := after (getAvailablePlugins groupId userId) s in
  ∀ n, n ∈ names →
       n ≠ EmptyString ∧
       ∃ snapshot p, pluginCache s' = Some snapshot ∧ p ∈ snapshot ∧
                     p_name p = n ∧ p_enabled p = true.
Proof.
  intros Hwf Hout s' n Hn.
  pose proof (getAvailablePlugins_cache_wf groupId userId s Hwf) as (Hen & _).
  fold s' in Hen.
  destruct (outcome (getGroupMapFromCache groupId) s) as [[group|]|e] eqn:Hg.
  - destruct (outcome getPluginListFromCache
                (after (getGroupMapFromCache groupId) s)) as [pl|e] eqn:Hp.
    + pose proof (getPluginListFromCache_snapshot _ _ Hp) as Hsnap.
      assert (pluginCache s' = Some pl ∧
              ∃ ids, names = pluginNames (pluginMap_of pl) ids) as [Hc [ids ->]].
      { subst s'. revert Hout. unfold outcome, after.
        rewrite (getAvailablePlugins_run groupId userId s group pl Hg Hp).
        destruct (truthy userId); simpl; intros [= <-]; eauto. }
      apply pluginNames_elem in Hn as (Hne & p & Hin & Hname & _).
      split; [done|]. exists pl, p. split; [done|]. split; [done|].
      split; [done|]. specialize (Hen pl Hc).
      rewrite Forall_forall in Hen. by apply Hen.
    + exfalso. revert Hout. unfold outcome, getAvailablePlugins.
      rewrite (bind_outcome_Ok _ _ _ _ Hg).
      unfold bind at 1. rewrite (run_eq getPluginListFromCache), Hp. done.
  - exfalso. revert Hout Hn. unfold outcome, getAvailablePlugins.
    rewrite (bind_outcome_Ok _ _ _ _ Hg). simpl. intros [= <-] Hn.
    by apply elem_of_nil in Hn.
  - exfalso. revert Hout. unfold outcome, getAvailablePlugins.
    unfold bind at 1. rewrite (run_eq (getGroupMapFromCache groupId)), Hg. done.
Qed.

(** X19. A user id 0 counts as no user id: no override applies to it, even
    when 0 is on a white or a black list. A call without a user id, or with
    0, leaves the cached groups as the lookup of the group left them. *)
Theorem no_user_no_override (groupId : Z) (s : Database) :
  getAvailablePlugins groupId (Some 0) s = getAvailablePlugins groupId None s ∧
  groupCache (after (getAvailablePlugins groupId None) s)
    = groupCache (after (getGroupMapFromCache groupId) s) ∧
  (∀ group pluginsList,
     outcome (getGroupMapFromCache groupId) s = Ok (Some group) →
     outcome getPluginListFromCache (after (getGroupMapFromCache groupId) s)
       = Ok pluginsList →
     outcome (getAvailablePlugins groupId (Some 0)) s
       = Ok (pluginNames (pluginMap_of pluginsList) (g_plugins group))).
Proof.
  split; [reflexivity|]. split.
  - unfold getAvailablePlugins. rewrite after_bind.
    destruct (outcome (getGroupMapFromCache groupId) s) as [[group|]|e];
      [|done..].
    rewrite after_bind.
    pose proof (getPluginListFromCache_groupCache
                  (after (getGroupMapFromCache groupId) s)) as Hsame.
    destruct (outcome getPluginListFromCache
                (after (getGroupMapFromCache groupId) s)); simpl; done.
  - intros group pluginsList Hg Hp. unfold outcome.
    by rewrite (getAvailablePlugins_run groupId (Some 0) s group pluginsList Hg Hp).
Qed.

(** X20. A group that has been added under a [group_id] that the cache
    does not know is found by the next lookup as it was written, under the
    id that [addGroup] returned, and [isGroupAdmin] answers for it whether
    the user is among the admins that were given, safe integers all. *)
Theorem added_group_is_found (group : IMvcGroup) (s : Database) (res : list Z) :
  outcome (addGroup group) s = Ok res →
  groupCache s !! g_group_id group = None →
  Forall safe_integer (g_admins group) →
  let s1 := after (addGroup group) s in
  db_fault (env s1) (db_calls s1) = false →
  let found := mvcGroup (new_group_row s group) in
  outcome (getGroupMapFromCache (g_group_id group)) s1 = Ok (Some found) ∧
  head res = g_id found ∧
  g_admins found = g_admins group ∧
  ∀ userId,
    outcome (isGroupAdmin (g_group_id group) userId) s1
      = Ok (bool_decide (userId ∈ g_admins group)).
Proof.
  intros Hout Hcache Hadm s1 Hok1 found.
  destruct (addGroup_Ok group s res Hout) as (-> & Hid & Hgid & Hafter).
  assert (groupCache s1 = groupCache s ∧
          tbl_groups s1 = place_group (new_group_row s group) (tbl_groups s))
    as [Hgc Htbl] by (subst s1; by rewrite Hafter).
  assert (outcome (getGroupMapFromCache (g_group_id group)) s1 = Ok (Some found))
    as Hfound.
  { unfold outcome. rewrite getGroupMapFromCache_run, Hgc, Hcache.
    unfold bind. rewrite group_update_Ok by done. simpl. rewrite Htbl. f_equal.
    apply (groupCache_setAll_found _ _ found).
    - apply list_elem_of_fmap_2, place_group_elem. by left.
    - intros g' (r & -> & Hr)%list_elem_of_fmap Hsame.
      apply place_group_elem in Hr as [->|Hr]; [done|].
      exfalso. apply Hgid. simpl in Hsame. rewrite <- Hsame.
      by apply list_elem_of_fmap_2. }
  assert (g_admins found = g_admins group) as Hadmins
    by apply toArrayNumber_join.
  split; [done|]. split; [done|]. split; [done|].
  intros userId. unfold outcome, isGroupAdmin.
  rewrite (bind_outcome_Ok _ _ _ _ Hfound). simpl.
  by rewrite toArrayNumber_join.
Qed.

(** X21. The three questions about a group do not take a store failure for
    an unknown group: when the refresh of the groups is due and the store
    rejects the read, [isGroupAdmin], [isGroupValid] and
    [getAvailablePlugins] throw the store error instead of answering false
    or the empty list. *)
Theorem group_questions_propagate_failure
    (dayjs_valueOf : string → option Z) (groupId userId : Z)
    (user : option Z) (s : Database) :
  groupCache s !! groupId = None ∨
  outcome (isCacheExpired cacheKeys_groups) s = Ok true →
  db_fault (env s) (db_calls s) = true →
  outcome (isGroupAdmin groupId userId) s = Throw StoreError ∧
  outcome (isGroupValid dayjs_valueOf groupId) s = Throw StoreError ∧
  outcome (getAvailablePlugins groupId user) s = Throw StoreError.
Proof.
  intros Hdue Hko.
  assert (outcome (getGroupMapFromCache groupId) s = Throw StoreError) as Hthrow.
  { destruct (getGroupMapFromCache_due groupId s Hdue)
      as (s1 & He & Hd & _ & _ & _ & Hrun).
    unfold outcome. rewrite Hrun. unfold bind.
    by rewrite group_update_Throw by (by rewrite He, Hd). }
  unfold isGroupAdmin, isGroupValid, getAvailablePlugins.
  rewrite !outcome_bind, Hthrow. done.
Qed.

(** X22. When the group is found and the refresh of the plugin snapshot
    fails, [getAvailablePlugins] throws the store error before any override
    is applied: the cached groups are as the lookup left them. *)
Theorem catalog_failure_applies_no_override
    (groupId : Z) (userId : option Z) (group : IMvcGroup) (s : Database) :
  outcome (getGroupMapFromCache groupId) s = Ok (Some group) →
  let s1 := after (getGroupMapFromCache groupId) s in
  pluginCache s1 = None ∨
  outcome (isCacheExpired cacheKeys_plugins) s1 = Ok true →
  db_fault (env s1) (db_calls s1) = true →
  let s' := after (getAvailablePlugins groupId userId) s in
  outcome (getAvailablePlugins groupId userId) s = Throw StoreError ∧
  groupCache s' = groupCache s1 ∧
  groupCache s' !! groupId = Some group ∧
  pluginCache s' = pluginCache s1.
Proof.
  intros Hg s1 Hdue Hko s'.
  destruct (getPluginListFromCache_fault s1 Hko Hdue) as (Hthrow & Hpc & _).
  pose proof (getPluginListFromCache_groupCache s1) as Hgc.
  pose proof (getGroupMapFromCache_entry groupId s group Hg) as Hentry.
  fold s1 in Hentry.
  subst s'. unfold getAvailablePlugins.
  rewrite outcome_bind, after_bind, Hg. fold s1.
  rewrite outcome_bind, after_bind, Hthrow.
  split; [done|]. split; [done|]. split; [by rewrite Hgc|done].
Qed.

(** X23. For a group that the lookup finds, [isGroupValid] answers whether
    the reading of the clock is at most the instant of [expired_at]: at that
    very instant the group is still valid. *)
Theorem isGroupValid_until_expiry
    (dayjs_valueOf : string → option Z) (groupId : Z) (s : Database)
    (group : IMvcGroup) (expiredAt : Z) :
  outcome (getGroupMapFromCache groupId) s = Ok (Some group) →
  dayjs_valueOf (g_expired_at group) = Some expiredAt →
  let s1 := after (getGroupMapFromCache groupId) s in
  let now := clock (env s1) (ticks s1) in
  outcome (isGroupValid dayjs_valueOf groupId) s = Ok (bool_decide (now ≤ expiredAt)) ∧
  (now = expiredAt → outcome (isGroupValid dayjs_valueOf groupId) s = Ok true) ∧
  ticks (after (isGroupValid dayjs_valueOf groupId) s) = S (ticks s1).
Proof.
  intros Hg Hdate s1 now.
  assert (outcome (isGroupValid dayjs_valueOf groupId) s
          = Ok (bool_decide (now ≤ expiredAt))) as Hout.
  { pose proof (isGroupValid_run dayjs_valueOf groupId s group Hg) as Hrun.
    simpl in Hrun. rewrite Hrun, Hdate. f_equal. fold s1. fold now.
    destruct (Z.leb_spec now expiredAt).
    - by rewrite bool_decide_eq_true_2.
    - rewrite bool_decide_eq_false_2; [done|lia]. }
  split; [done|]. split.
  - intros Heq. rewrite Hout. f_equal. apply bool_decide_eq_true. lia.
  - unfold isGroupValid. rewrite after_bind, Hg. reflexivity.
Qed.

(** ** The further statements at work on the sample *)

(** The row of the group 555 is deleted while both caches are warm. *)
Lemma writes_leave_caches_witness :
  let s' := after (run_write (W_deleteGroup 1)) warm_db in
  (groupCache warm_db !! 555 = Some sample_group ∧
   outcome (isCacheExpired cacheKeys_groups) warm_db = Ok false ∧
   pluginCache warm_db = Some sample_catalog ∧
   outcome (isCacheExpired cacheKeys_plugins) warm_db = Ok false) ∧
  tbl_groups s' = [] ∧
  outcome (getGroupMapFromCache 555) s' = Ok (Some sample_group) ∧
  outcome getPluginListFromCache s' = Ok sample_catalog.
Proof.
  intros s'.
  assert (groupCache warm_db !! 555 = Some sample_group) as Hg by reflexivity.
  assert (outcome (isCacheExpired cacheKeys_groups) warm_db = Ok false)
    as HeG by reflexivity.
  assert (pluginCache warm_db = Some sample_catalog) as Hp by reflexivity.
  assert (outcome (isCacheExpired cacheKeys_plugins) warm_db = Ok false)
    as HeP by reflexivity.
  split; [repeat split; assumption|]. split; [reflexivity|].
  destruct (writes_leave_caches (W_deleteGroup 1) warm_db) as (_ & Hgroup & Hplug).
  split; [exact (Hgroup 555 sample_group Hg HeG)|exact (Hplug sample_catalog Hp HeP)].
Defined.

(** The store rejects the lookup of the name. *)
Lemma registerPlugin_failure_witness :
  let s' := after (registerPlugin sample_opts true) failing_db in
  db_fault (env failing_db) (db_calls failing_db) = true ∧
  outcome (registerPlugin sample_opts true) failing_db = Throw StoreError ∧
  registeredPlugins s' = ["ping"; "dice"; "quote"] ∧
  runtime s' = runtime failing_db ∧ tables s' = tables failing_db.
Proof.
  intros s'.
  assert (db_fault (env failing_db) (db_calls failing_db) = true)
    as Hko by reflexivity.
  destruct (registerPlugin_failure sample_opts true failing_db) as [Hiff Hsame].
  assert (outcome (registerPlugin sample_opts true) failing_db = Throw StoreError)
    as Hthrow by (apply Hiff; left; exact Hko).
  split; [exact Hko|]. split; [exact Hthrow|]. split; [reflexivity|].
  apply Hsame. rewrite Hthrow. discriminate.
Defined.

(** Updates for the id 99, which no row has. *)
Lemma update_of_missing_id_witness :
  db_fault (env sample_db) (db_calls sample_db) = false ∧
  (99 ∉ dp_id <$> tbl_plugins sample_db) ∧
  (99 ∉ dg_id <$> tbl_groups sample_db) ∧
  outcome (updatePlugin missing_plugin_update) sample_db = Ok None ∧
  outcome (updateGroup missing_group_update) sample_db = Ok None ∧
  tables (after (updatePlugin missing_plugin_update) sample_db) = tables sample_db.
Proof.
  assert (db_fault (env sample_db) (db_calls sample_db) = false)
    as Hok by reflexivity.
  assert (99 ∉ dp_id <$> tbl_plugins sample_db) as Hp
    by (apply includes_false; reflexivity).
  assert (99 ∉ dg_id <$> tbl_groups sample_db) as Hg
    by (apply includes_false; reflexivity).
  destruct (update_of_missing_id sample_db Hok) as [Hplugin Hgroup].
  split; [exact Hok|]. split; [exact Hp|]. split; [exact Hg|].
  unfold outcome, after.
  rewrite (Hplugin missing_plugin_update Hp), (Hgroup missing_group_update Hg).
  repeat split.
Defined.

(** The plugin 2 is disabled and given the white list 7, 8. *)
Lemma updatePlugin_read_back_witness :
  let s' := after (updatePlugin sample_plugin_update) sample_db in
  (outcome (updatePlugin sample_plugin_update) sample_db = Ok (Some 1) ∧
   Forall safe_integer [7; 8]) ∧
  dp_white_list_users <$> tbl_plugins s' = [""; "7,8"; "42"; ""] ∧
  (mvcPlugin <$> tbl_plugins s') !! 1%nat
    = Some {| p_id := 2; p_name := "dice"; p_enabled := false;
              p_internal := false; p_threshold := 2;
              p_white_list_users := [7; 8]; p_black_list_users := [7; 42] |} ∧
  (mvcPlugin <$> tbl_plugins s') !! 0%nat = Some (mvcPlugin sample_ping).
Proof.
  intros s'.
  assert (outcome (updatePlugin sample_plugin_update) sample_db = Ok (Some 1))
    as Hout by reflexivity.
  assert (Forall safe_integer [7; 8]) as Hsafe by (repeat constructor).
  split; [split; assumption|].
  destruct (updatePlugin_read_back sample_plugin_update sample_db 1 Hout)
    as (_ & Hview & _).
  { by intros l [= <-]. }
  { intros l Hl. discriminate Hl. }
  fold s' in Hview. split; [reflexivity|]. rewrite Hview. split; reflexivity.
Defined.

(** The plugins of the group 555 are set to 3: the internal plugin 1 comes
    first. *)
Lemma updateGroup_read_back_witness :
  let s' := after (updateGroup sample_group_update) sample_db in
  (outcome (updateGroup sample_group_update) sample_db = Ok (Some 1) ∧
   Forall safe_integer (reportedInternalIds sample_db ++ [3])) ∧
  dg_plugins <$> tbl_groups s' = ["1,3"] ∧
  g_plugins <$> (mvcGroup <$> tbl_groups s') = [[1; 3]] ∧
  g_admins <$> (mvcGroup <$> tbl_groups s') = [[9]].
Proof.
  intros s'.
  assert (outcome (updateGroup sample_group_update) sample_db = Ok (Some 1))
    as Hout by reflexivity.
  assert (Forall safe_integer (reportedInternalIds sample_db ++ [3])) as Hsafe
    by (repeat constructor).
  split; [split; assumption|].
  destruct (updateGroup_read_back sample_group_update sample_db 1 Hout)
    as (_ & Hview & _).
  { intros l Hl. discriminate Hl. }
  { by intros l [= <-]. }
  fold s' in Hview. split; [reflexivity|]. rewrite Hview. split; reflexivity.
Defined.

(** The group 777 is added with the plugin 2, after the group 555 has been
    deleted: it is given the id 2, the id 1 having been held. *)
Lemma addGroup_read_back_witness :
  let s := after (deleteGroup 1) sample_db in
  let s' := after (addGroup sample_new_group) s in
  (outcome (addGroup sample_new_group) s = Ok [2] ∧
   Forall safe_integer (g_admins sample_new_group) ∧
   Forall safe_integer (reportedInternalIds s ++ g_plugins sample_new_group)) ∧
  tbl_groups s = [] ∧
  dg_id <$> tbl_groups s' = [2] ∧
  dg_plugins <$> tbl_groups s' = ["1,2"] ∧
  g_plugins (mvcGroup (new_group_row s sample_new_group)) = [1; 2] ∧
  g_admins (mvcGroup (new_group_row s sample_new_group)) = [9].
Proof.
  intros s s'.
  assert (outcome (addGroup sample_new_group) s = Ok [2]) as Hout by reflexivity.
  assert (Forall safe_integer (g_admins sample_new_group)) as Hadm
    by (repeat constructor).
  assert (Forall safe_integer (reportedInternalIds s ++ g_plugins sample_new_group))
    as Hplug by (repeat constructor).
  split; [repeat split; assumption|].
  destruct (addGroup_read_back sample_new_group s [2] Hout Hadm Hplug)
    as (_ & _ & Hlast & _ & _ & _ & _ & _ & _ & _ & Hadmins & Hplugins & _).
  destruct (Hlast eq_refl) as (_ & _ & Htbl). fold s' in Htbl.
  split; [reflexivity|]. rewrite Htbl.
  split; [reflexivity|]. split; [reflexivity|].
  split; [rewrite Hplugins; reflexivity|exact Hadmins].
Defined.

(** The group 777 is added, deleted by the id 2 that was returned, and
    added again: it is then given the id 3. *)
Lemma addGroup_then_deleteGroup_witness :
  let s1 := after (addGroup sample_new_group) sample_db in
  let s2 := after (deleteGroup 2) s1 in
  (never_faults sample_db ∧
   outcome (addGroup sample_new_group) sample_db = Ok [2] ∧
   g_id sample_new_group = None) ∧
  outcome (deleteGroup 2) s1 = Ok 1 ∧
  tbl_groups s2 = sample_groups ∧
  outcome (addGroup sample_new_group) s2 = Ok [3].
Proof.
  intros s1 s2.
  assert (never_faults sample_db) as Hok by (intros n; reflexivity).
  assert (outcome (addGroup sample_new_group) sample_db = Ok [2])
    as Hout by reflexivity.
  split; [repeat split; (assumption || reflexivity)|].
  destruct (addGroup_then_deleteGroup sample_new_group sample_db 2 Hok Hout)
    as (Hdel & Htbl & _ & Hagain).
  split; [exact Hdel|]. split; [exact Htbl|]. exact (Hagain eq_refl).
Defined.

(** The group 777 is registered twice, under two names. *)
Lemma registerGroup_spec_witness :
  let s1 := after (registerGroup sample_group_opts) sample_db in
  let again := {| rg_name := "other"; rg_group_id := 777; rg_expired_at := "" |} in
  let s2 := after (registerGroup again) s1 in
  (never_faults sample_db ∧
   (rg_group_id sample_group_opts ∉ dg_group_id <$> tbl_groups sample_db)) ∧
  dg_name <$> tbl_groups s2 = ["lobby"; "annex"] ∧
  dg_id <$> tbl_groups s2 = [1; 2] ∧
  dg_plugins <$> tbl_groups s2 = ["1,2"; ""] ∧
  seq_groups s1 = 2.
Proof.
  intros s1 again s2.
  assert (never_faults sample_db) as Hok by (intros n; reflexivity).
  assert (rg_group_id sample_group_opts ∉ dg_group_id <$> tbl_groups sample_db)
    as Hnew by (apply includes_false; reflexivity).
  split; [split; assumption|].
  destruct (registerGroup_spec sample_group_opts again sample_db Hok eq_refl)
    as (_ & _ & Hsame & _ & Hrow).
  destruct (Hrow Hnew) as (Htbl & _ & _ & Hseq & _).
  fold s1 in Htbl, Hseq. fold s1 s2 in Hsame.
  rewrite Hsame, Htbl, Hseq. repeat split; reflexivity.
Defined.

(** The one group of the sample is deleted; then there is none to delete. *)
Lemma deleteGroup_spec_witness :
  let s' := after (deleteGroup 1) sample_db in
  (db_fault (env sample_db) (db_calls sample_db) = false ∧
   db_fault (env s') (db_calls s') = false ∧
   (1 ∉ dg_id <$> tbl_groups s')) ∧
  outcome (deleteGroup 1) sample_db = Ok 1 ∧
  tbl_groups s' = [] ∧
  outcome (deleteGroup 1) s' = Ok 0.
Proof.
  intros s'.
  assert (db_fault (env sample_db) (db_calls sample_db) = false)
    as Hok by reflexivity.
  assert (db_fault (env s') (db_calls s') = false) as Hok' by reflexivity.
  assert (1 ∉ dg_id <$> tbl_groups s') as Hgone
    by (apply includes_false; reflexivity).
  split; [repeat split; assumption|].
  destruct (deleteGroup_spec 1 sample_db) as (Hdel & _ & _).
  destruct (Hdel Hok) as (Hcount & Htbl & _ & _).
  destruct (deleteGroup_spec 1 s') as (Hdel' & _ & _).
  destruct (Hdel' Hok') as (_ & _ & _ & Hnone).
  split; [exact Hcount|]. split; [exact Htbl|]. exact (proj1 (Hnone Hgone)).
Defined.

(** The plugin weather, which has no row, is registered. *)
Lemma registered_plugin_is_listed_witness :
  let s1 := after (registerPlugin sample_opts true) sample_db in
  (never_faults sample_db ∧
   (rp_name sample_opts ∉ dp_name <$> tbl_plugins sample_db)) ∧
  p_name <$> activePlugins s1 = ["ping"; "dice"; "quote"; "weather"] ∧
  last (activePlugins s1)
    = Some {| p_id := 5; p_name := "weather"; p_enabled := true;
              p_internal := false; p_threshold := 2;
              p_white_list_users := []; p_black_list_users := [] |}.
Proof.
  intros s1.
  assert (never_faults sample_db) as Hok by (intros n; reflexivity).
  assert (rp_name sample_opts ∉ dp_name <$> tbl_plugins sample_db) as Hnew
    by (apply includes_false; reflexivity).
  split; [split; assumption|]. split; [reflexivity|].
  destruct (registered_plugin_is_listed sample_opts true sample_db Hok)
    as (_ & _ & Hfresh & _).
  exact (proj1 (Hfresh Hnew)).
Defined.

(** The external plugin weather is cleared; its row stays. *)
Lemma cleared_plugins_are_not_listed_witness :
  let s := after (registerAll sample_batch) sample_db in
  let s' := after clearExternalPlugins s in
  db_fault (env s') (db_calls s') = false ∧
  p_name <$> activePlugins s = ["ping"; "dice"; "quote"; "weather"; "help"] ∧
  outcome getPlugins s' = Ok (activePlugins s') ∧
  p_name <$> activePlugins s' = ["ping"; "dice"; "quote"; "help"] ∧
  tbl_plugins s' = tbl_plugins s.
Proof.
  intros s s'.
  assert (db_fault (env s') (db_calls s') = false) as Hok by reflexivity.
  destruct (cleared_plugins_are_not_listed s) as (_ & Htables & Hlisted & Hget).
  fold s' in Htables, Hlisted, Hget.
  split; [exact Hok|]. split; [reflexivity|]. split; [exact (Hget Hok)|].
  split; [rewrite Hlisted; reflexivity|].
  exact (f_equal (λ t, fst (fst t)) Htables).
Defined.

(** In the sample the internal plugin 4 has no registered name. *)
Lemma internal_ids_reported_witness :
  db_fault (env sample_db) (db_calls sample_db) = false ∧
  outcome getInternalPluginIds sample_db = Ok [1] ∧
  reportedInternalIds sample_db = [1].
Proof.
  assert (db_fault (env sample_db) (db_calls sample_db) = false)
    as Hok by reflexivity.
  destruct (internal_ids_reported sample_db) as (Heq & Hget & _).
  split; [exact Hok|]. split; [exact (Hget Hok)|].
  rewrite Heq. reflexivity.
Defined.


(** The store rejects the first read of the groups. *)
Lemma group_refresh_failure_witness :
  let s' := after (getGroupMapFromCache 555) failing_db in
  (groupCache failing_db !! 555 = None ∧
   db_fault (env failing_db) (db_calls failing_db) = true) ∧
  outcome (getGroupMapFromCache 555) failing_db = Throw StoreError ∧
  groupCache s' = groupCache failing_db ∧
  cacheTimeMap s' = cacheTimeMap failing_db.
Proof.
  intros s'.
  assert (groupCache failing_db !! 555 = None) as Hc by reflexivity.
  assert (db_fault (env failing_db) (db_calls failing_db) = true)
    as Hko by reflexivity.
  split; [split; assumption|].
  destruct (group_refresh_failure 555 failing_db (or_introl Hc) Hko)
    as (Hout & Hg & Ht & _).
  split; [exact Hout|]. split; [exact Hg|exact Ht].
Defined.

(** User 42 asks while both caches are warm. *)
Lemma cached_resolution_skips_store_witness :
  let s' := after (getAvailablePlugins 555 (Some 42)) warm_db in
  (groupCache warm_db !! 555 = Some sample_group ∧
   pluginCache warm_db = Some sample_catalog ∧
   cacheTimeMap warm_db !! cacheKeys_groups = Some 1000 ∧
   cacheTimeMap warm_db !! cacheKeys_plugins = Some 1100 ∧
   clock (env warm_db) (ticks warm_db) - 1000 < cacheTime warm_db ∧
   clock (env warm_db) (S (ticks warm_db)) - 1100 < cacheTime warm_db) ∧
  outcome (getAvailablePlugins 555 (Some 42)) warm_db = Ok ["ping"; "quote"] ∧
  db_calls s' = db_calls warm_db.
Proof.
  intros s'.
  assert (groupCache warm_db !! 555 = Some sample_group) as Hg by reflexivity.
  assert (pluginCache warm_db = Some sample_catalog) as Hp by reflexivity.
  assert (cacheTimeMap warm_db !! cacheKeys_groups = Some 1000)
    as HtG by reflexivity.
  assert (cacheTimeMap warm_db !! cacheKeys_plugins = Some 1100)
    as HtP by reflexivity.
  assert (clock (env warm_db) (ticks warm_db) - 1000 < cacheTime warm_db)
    as HltG by reflexivity.
  assert (clock (env warm_db) (S (ticks warm_db)) - 1100 < cacheTime warm_db)
    as HltP by reflexivity.
  split; [repeat split; assumption|].
  destruct (cached_resolution_skips_store 555 (Some 42) warm_db sample_group
              sample_catalog 1000 1100 Hg Hp HtG ltac:(discriminate)
              HtP ltac:(discriminate) HltG HltP) as (Hout & Hcalls & _).
  split; [exact Hout|exact Hcalls].
Defined.

(** The overrides of user 42 in the sample. *)
Lemma overrides_resolution_witness :
  let result := foldl (applyUserOverrides 42) [1; 2] sample_catalog in
  (NoDup [1; 2] ∧ NoDup (p_id <$> sample_catalog)) ∧
  NoDup result ∧ (3 ∈ result) ∧ (2 ∉ result).
Proof.
  intros result.
  assert (NoDup [1; 2]) as Hids by (apply (bool_decide_unpack _); reflexivity).
  assert (NoDup (p_id <$> sample_catalog)) as Hcat
    by (apply (bool_decide_unpack _); reflexivity).
  split; [split; assumption|].
  destruct (overrides_resolution 42 [1; 2] sample_catalog Hids Hcat)
    as [Hnd Hiff].
  fold result in Hnd, Hiff. split; [exact Hnd|]. split.
  - apply Hiff. split.
    + right. exists (mvcPlugin sample_quote). split.
      * right. right. left.
      * split; [reflexivity|]. apply includes_true. reflexivity.
    + intros (p & Hp & Hid & Hb). apply includes_true in Hb.
      apply elem_of_cons in Hp as [->|Hp]; [discriminate Hid|].
      apply elem_of_cons in Hp as [->|Hp]; [discriminate Hid|].
      apply elem_of_cons in Hp as [->|Hp]; [discriminate Hb|].
      by apply elem_of_nil in Hp.
  - intros Hin. apply Hiff in Hin as [_ Hnot]. apply Hnot.
    exists (mvcPlugin sample_dice). split.
    + right. left.
    + split; [reflexivity|]. apply includes_true. reflexivity.
Defined.

(** The names returned to user 42 in the sample. *)
Lemma available_names_are_cached_plugins_witness :
  let s' := after (getAvailablePlugins 555 (Some 42)) sample_db in
  (cache_wf sample_db ∧
   outcome (getAvailablePlugins 555 (Some 42)) sample_db = Ok ["ping"; "quote"]) ∧
  ∃ snapshot p, pluginCache s' = Some snapshot ∧ p ∈ snapshot ∧
                p_name p = "quote" ∧ p_enabled p = true.
Proof.
  intros s'.
  assert (cache_wf sample_db) as Hwf.
  { unfold cache_wf. simpl. split; [discriminate|]. split.
    - intros k g Hk. by rewrite lookup_empty in Hk.
    - split.
      + intros key t Hk. by rewrite lookup_empty in Hk.
      + split; intros [x Hx]; [discriminate Hx|by rewrite lookup_empty in Hx]. }
  assert (outcome (getAvailablePlugins 555 (Some 42)) sample_db
          = Ok ["ping"; "quote"]) as Hout by reflexivity.
  split; [split; assumption|].
  apply (available_names_are_cached_plugins 555 (Some 42) sample_db
           ["ping"; "quote"] Hwf Hout "quote").
  right. left.
Defined.

(** A user 0 and no user in the sample. *)
Lemma no_user_no_override_witness :
  (outcome (getGroupMapFromCache 555) sample_db = Ok (Some sample_group) ∧
   outcome getPluginListFromCache (after (getGroupMapFromCache 555) sample_db)
     = Ok sample_catalog) ∧
  outcome (getAvailablePlugins 555 (Some 0)) sample_db = Ok ["ping"; "dice"] ∧
  groupCache (after (getAvailablePlugins 555 None) sample_db) !! 555
    = Some sample_group.
Proof.
  assert (outcome (getGroupMapFromCache 555) sample_db = Ok (Some sample_group))
    as Hg by reflexivity.
  assert (outcome getPluginListFromCache
            (after (getGroupMapFromCache 555) sample_db) = Ok sample_catalog)
    as Hp by reflexivity.
  split; [split; assumption|].
  destruct (no_user_no_override 555 sample_db) as (_ & Hcache & Hzero).
  split; [exact (Hzero sample_group sample_catalog Hg Hp)|].
  rewrite Hcache. reflexivity.
Defined.

(** The group 777 is added and asked about. *)
Lemma added_group_is_found_witness :
  let s1 := after (addGroup sample_new_group) sample_db in
  (outcome (addGroup sample_new_group) sample_db = Ok [2] ∧
   groupCache sample_db !! g_group_id sample_new_group = None ∧
   Forall safe_integer (g_admins sample_new_group) ∧
   db_fault (env s1) (db_calls s1) = false) ∧
  outcome (getGroupMapFromCache 777) s1
    = Ok (Some {| g_id := Some 2; g_name := "annex"; g_group_id := 777;
                  g_expired_at := "2030-01-01"; g_admins := [9];
                  g_plugins := [1; 2] |}) ∧
  outcome (isGroupAdmin 777 9) s1 = Ok true ∧
  outcome (isGroupAdmin 777 10) s1 = Ok false.
Proof.
  intros s1.
  assert (outcome (addGroup sample_new_group) sample_db = Ok [2])
    as Hout by reflexivity.
  assert (Forall safe_integer (g_admins sample_new_group)) as Hadm
    by (repeat constructor).
  assert (db_fault (env s1) (db_calls s1) = false) as Hok1 by reflexivity.
  split; [repeat split; (assumption || reflexivity)|].
  destruct (added_group_is_found sample_new_group sample_db [2] Hout eq_refl
              Hadm Hok1) as (Hfound & _ & _ & Hadmin).
  split; [exact Hfound|].
  split; [exact (Hadmin 9)|exact (Hadmin 10)].
Defined.

(** The store rejects the read of the groups. *)
Lemma group_questions_propagate_failure_witness :
  (groupCache failing_db !! 555 = None ∧
   db_fault (env failing_db) (db_calls failing_db) = true) ∧
  outcome (isGroupAdmin 555 9) failing_db = Throw StoreError ∧
  outcome (isGroupValid sample_dayjs 555) failing_db = Throw StoreError ∧
  outcome (getAvailablePlugins 555 None) failing_db = Throw StoreError.
Proof.
  assert (groupCache failing_db !! 555 = None) as Hc by reflexivity.
  assert (db_fault (env failing_db) (db_calls failing_db) = true)
    as Hko by reflexivity.
  split; [split; assumption|].
  exact (group_questions_propagate_failure sample_dayjs 555 9 None failing_db
           (or_introl Hc) Hko).
Defined.

(** The store answers for the groups and rejects the read of the plugins. *)
Lemma catalog_failure_applies_no_override_witness :
  let s1 := after (getGroupMapFromCache 555) faulty_db in
  let s' := after (getAvailablePlugins 555 (Some 42)) faulty_db in
  (outcome (getGroupMapFromCache 555) faulty_db = Ok (Some sample_group) ∧
   pluginCache s1 = None ∧
   db_fault (env s1) (db_calls s1) = true) ∧
  outcome (getAvailablePlugins 555 (Some 42)) faulty_db = Throw StoreError ∧
  groupCache s' !! 555 = Some sample_group.
Proof.
  intros s1 s'.
  assert (outcome (getGroupMapFromCache 555) faulty_db = Ok (Some sample_group))
    as Hg by reflexivity.
  assert (pluginCache s1 = None) as Hp by reflexivity.
  assert (db_fault (env s1) (db_calls s1) = true) as Hko by reflexivity.
  split; [repeat split; assumption|].
  destruct (catalog_failure_applies_no_override 555 (Some 42) sample_group
              faulty_db Hg (or_introl Hp) Hko) as (Hout & _ & Hentry & _).
  split; [exact Hout|exact Hentry].
Defined.

(** A group that expires at the very reading of the clock. *)
Lemma isGroupValid_until_expiry_witness :
  (outcome (getGroupMapFromCache 555) sample_db = Ok (Some sample_group) ∧
   clock (env sample_db) 1 = 1100) ∧
  outcome (isGroupValid (λ _, Some 1100) 555) sample_db = Ok true ∧
  outcome (isGroupValid (λ _, Some 1099) 555) sample_db = Ok false.
Proof.
  assert (outcome (getGroupMapFromCache 555) sample_db = Ok (Some sample_group))
    as Hg by reflexivity.
  split; [split; [exact Hg|reflexivity]|].
  destruct (isGroupValid_until_expiry (λ _, Some 1100) 555 sample_db
              sample_group 1100 Hg eq_refl) as (_ & Hat & _).
  destruct (isGroupValid_until_expiry (λ _, Some 1099) 555 sample_db
              sample_group 1099 Hg eq_refl) as (Hpast & _).
  split; [exact (Hat eq_refl)|exact Hpast].
Defined.

(** X24. For a [group_id] that neither the cache nor the store knows, and a
    store that answers, [isGroupAdmin] answers false and
    [getAvailablePlugins] the empty list, for any user; the latter after the
    one read of the groups, without fetching the plugins. *)
Theorem unknown_group_answers
    (groupId userId : Z) (user : option Z) (s : Database) :
  groupCache s !! groupId = None →
  groupId ∉ dg_group_id <$> tbl_groups s →
  db_fault (env s) (db_calls s) = false →
  let s' := after (getAvailablePlugins groupId user) s in
  outcome (isGroupAdmin groupId userId) s = Ok false ∧
  outcome (getAvailablePlugins groupId user) s = Ok [] ∧
  db_calls s' = S (db_calls s) ∧
  pluginCache s' = pluginCache s ∧
  groupCache s' !! groupId = None.
Proof.
  intros Hc Habsent Hok s'.
  destruct (getGroupMapFromCache_unknown groupId s Hc Habsent Hok)
    as [Hnone Hcalls].
  assert (after (getAvailablePlugins groupId user) s
          = after (getGroupMapFromCache groupId) s) as Hafter.
  { unfold getAvailablePlugins. by rewrite after_bind, Hnone. }
  subst s'. rewrite Hafter.
  split; [unfold isGroupAdmin; by rewrite outcome_bind, Hnone|].
  split; [unfold getAvailablePlugins; by rewrite outcome_bind, Hnone|].
  split; [done|].
  unfold after. rewrite getGroupMapFromCache_run, Hc. unfold bind.
  rewrite group_update_Ok by done. simpl. split; [done|].
  rewrite groupCache_setAll_other by (by rewrite mvcGroup_ids). done.
Qed.

(** The group 556, which the sample has not. *)
Lemma unknown_group_answers_witness :
  (groupCache sample_db !! 556 = None ∧
   (556 ∉ dg_group_id <$> tbl_groups sample_db) ∧
   db_fault (env sample_db) (db_calls sample_db) = false) ∧
  outcome (isGroupAdmin 556 9) sample_db = Ok false ∧
  outcome (getAvailablePlugins 556 (Some 42)) sample_db = Ok [] ∧
  db_calls (after (getAvailablePlugins 556 (Some 42)) sample_db) = 1%nat.
Proof.
  assert (groupCache sample_db !! 556 = None) as Hc by reflexivity.
  assert (556 ∉ dg_group_id <$> tbl_groups sample_db) as Habsent
    by (apply includes_false; reflexivity).
  assert (db_fault (env sample_db) (db_calls sample_db) = false)
    as Hok by reflexivity.
  split; [repeat split; assumption|].
  destruct (unknown_group_answers 556 9 (Some 42) sample_db Hc Habsent Hok)
    as (Hadmin & Hnames & Hcalls & _).
  split; [exact Hadmin|]. split; [exact Hnames|exact Hcalls].
Defined.
